(** * WritePoetry: a shallow embedding of the notebook's transformer pipeline

    The notebook [WritePoetry.ipynb] splits a token-id corpus into training and
    validation halves, draws random batches of windows, trains a small
    decoder-only transformer and samples text from it.  This file embeds the
    code cells of the notebook and proves properties of them.

    Conventions of the embedding:
    - Python integers are [Z]; lengths and tensor dimensions are [nat].
    - Floating-point numbers are idealised as real numbers ([R]); the value
      [-inf] used by the attention mask is a separate constructor.  The
      product [0.9*len(data)] is taken as the exact rational product.
    - A raised Python exception is an [Err] result; the program state at the
      point of the exception is kept.
    - The global random generator of torch is a stream of raw draws read
      through a cursor kept in the program state. *)

From Stdlib Require Import String.
From Stdlib Require Import ZArith QArith Qround Reals Lra Lia Bool Arith List.
Import ListNotations.

Close Scope Q_scope.
Close Scope R_scope.
Close Scope Z_scope.
Open Scope nat_scope.

Set Implicit Arguments.

(** ** Python values and exceptions *)

(** The exceptions the notebook can raise, under the names of the error
    taxonomy; each constructor says which Python exception it stands for. *)
Inductive exn : Type :=
| InvalidSplit      (* named by the taxonomy; no statement of the notebook raises it *)
| InsufficientData  (* RuntimeError of torch.randint: from >= to *)
| ContextOverflow   (* IndexError of the positional embedding lookup *)
| VocabMismatch     (* IndexError of the token embedding lookup or of a loss target *)
| IndexError        (* any other index out of range, as in t[:, -1] on an empty dimension *)
| ShapeError        (* RuntimeError of torch.stack or of the loss on unequal shapes *)
| SamplingError     (* RuntimeError of torch.multinomial on an empty distribution *).

(** Outcome of a statement that may raise. *)
Inductive result (A : Type) : Type :=
| Ok (a : A)
| Err (e : exn).
Arguments Ok {A} a.
Arguments Err {A} e.

Definition is_ok {A} (r : result A) : bool :=
  match r with Ok _ => true | Err _ => false end.

(** [len(l)] as a Python integer. *)
Definition len {A} (l : list A) : Z := Z.of_nat (length l).

(** How a slice bound [i] is read against a sequence of length [n]: a negative
    bound counts from the end, and every bound is clipped to [0..n]. *)
Definition norm_index (n i : Z) : Z :=
  if (i <? 0)%Z then Z.max 0 (i + n) else Z.min i n.

(** [l[lo:hi]], either bound possibly left out. *)
Definition slice {A} (l : list A) (lo hi : option Z) : list A :=
  let a := match lo with None => 0%Z | Some i => norm_index (len l) i end in
  let b := match hi with None => len l | Some j => norm_index (len l) j end in
  firstn (Z.to_nat (b - a)) (skipn (Z.to_nat a) l).

(** [int(q)]: truncation towards zero. *)
Definition py_int (q : Q) : Z := Z.quot (Qnum q) (Zpos (Qden q)).

(** ** Cell 3: hyper-parameters and the train/validation split *)

Definition batch_size : nat := 16.
Definition block_size : nat := 32.

Module Split.

(** [int(f*len(data))], the index at which the corpus is cut. *)
Definition cut (f : Q) (data : list Z) : Z := py_int (f * inject_Z (len data))%Q.

(** [data[:k]] and [data[k:]] for the cut [k] of fraction [f]. *)
Definition halves (f : Q) (data : list Z) : list Z * list Z :=
  let k := cut f data in
  (slice data None (Some k), slice data (Some k) None).

(** [n = int(0.9*len(data))] *)
Definition n (data : list Z) : Z := cut (9 # 10)%Q data.

End Split.

(** [train_data = data[:n]] *)
Definition train_data (data : list Z) : list Z := slice data None (Some (Split.n data)).

(** [val_data = data[n:]] *)
Definition val_data (data : list Z) : list Z := slice data (Some (Split.n data)) None.

(** The two assignments as one statement with an outcome: neither slice can
    raise, so the outcome is always [Ok]. *)
Definition split_data (data : list Z) : result (list Z * list Z) :=
  Ok (train_data data, val_data data).

(** ** Parameters of the model *)

Definition vec : Type := list R.

(** Weights are kept as functions of the index; the shapes are fixed by the
    constructor calls of the notebook and are arguments of the forward
    functions. *)
Record Linear : Type := { weight : nat -> vec; bias : nat -> R }.
Record LayerNorm : Type := { gamma : nat -> R; beta : nat -> R }.
Record MultiheadAttention : Type := { in_proj : Linear; out_proj : Linear }.
Record MHA : Type :=
  { MHA_attn : MultiheadAttention; MHA_ln : LayerNorm;
    MHA_proj : Linear; MHA_proj_ln : LayerNorm }.
Record FeedFoward : Type := { FF_proj1 : Linear; FF_proj2 : Linear }.
Record Block : Type := { Block_mha : MHA; Block_ff : FeedFoward }.
Record Transformer : Type :=
  { blocks : list Block; T_ln : LayerNorm; T_proj : Linear;
    tok_emb : nat -> vec; pos_emb : nat -> vec }.

(** What the notebook takes from its libraries without fixing it in the code:
    the vocabulary size of the tokenizer, the GELU function, the raw output of
    the random generator, reverse-mode differentiation and the AdamW update. *)
Class Torch : Type := {
  n_vocab : nat;            (* enc.n_vocab *)
  gelu : R -> R;            (* F.gelu *)
  raw : nat -> nat;         (* the k-th raw draw of the global generator *)
  Grad : Type;              (* the .grad buffers of the parameters *)
  OptState : Type;          (* the moment estimates of AdamW *)
  no_grad : Grad;           (* the buffers after optim.zero_grad() *)
  autograd : (Transformer -> R) -> Transformer -> Grad -> Grad;
                            (* loss.backward(): adds the gradient of the loss *)
  adamw : Transformer -> Grad -> OptState -> Transformer * OptState
                            (* optim.step() *)
}.

(** ** Program state and the monad of statements *)

(** A ghost record of what the model and the optimizer were asked to do. *)
Inductive event : Type :=
| Forward (training : bool) (x : list (list Z))   (* model(x) with model.training *)
| Backward                                        (* loss.backward() *)
| OptimStep                                       (* optim.step() *)
| ZeroGrad                                        (* optim.zero_grad() *).

Section Program.
Context {torch : Torch}.

Record State : Type := mkState {
  params : Transformer;            (* model.parameters() *)
  training : bool;                 (* model.training *)
  grad : Grad;
  opt_state : OptState;
  rng : nat;                       (* raw draws consumed so far *)
  stdout : list (nat * R * R);     (* printed: step, train loss, val loss *)
  events : list event              (* ghost, oldest first *)
}.

Definition M (A : Type) : Type := State -> result A * State.

Definition ret {A} (a : A) : M A := fun st => (Ok a, st).

Definition raise {A} (e : exn) : M A := fun st => (Err e, st).

Definition bind {A B} (m : M A) (k : A -> M B) : M B :=
  fun st => match m st with
            | (Ok a, st') => k a st'
            | (Err e, st') => (Err e, st')
            end.

Definition lift {A} (r : result A) : M A := fun st => (r, st).

Definition get : M State := fun st => (Ok st, st).

End Program.

Notation "x <- m ;; k" := (bind m (fun x => k))
  (at level 61, m at next level, right associativity).
Notation "m ;;; k" := (bind m (fun _ => k))
  (at level 61, right associativity).

Section Sampler.
Context {torch : Torch}.

(** The state after [k] more raw draws were consumed. *)
Definition advance (st : State) (k : nat) : State :=
  mkState (params st) (training st) (grad st) (opt_state st)
          (rng st + k) (stdout st) (events st).

(** The raw draws number [rng st], ..., [rng st + k - 1]. *)
Definition upcoming (st : State) (k : nat) : list nat :=
  map (fun i => raw (rng st + i)) (seq 0 k).

(** The next [k] raw draws of the generator. *)
Definition draws (k : nat) : M (list nat) :=
  fun st => (Ok (upcoming st k), advance st k).

(** The integer of [low..high-1] that a raw draw [r] stands for. *)
Definition randint_value (low high : Z) (r : nat) : Z :=
  (low + Z.of_nat r mod (high - low))%Z.

(** [torch.randint(low, high, (size,))] *)
Definition randint (low high : Z) (size : nat) : M (list Z) :=
  if (low <? high)%Z then
    rs <- draws size ;;
    ret (map (randint_value low high) rs)
  else raise InsufficientData.

(** [torch.stack(rows)] of one-dimensional tensors. *)
Definition torch_stack {A} (rows : list (list A)) : result (list (list A)) :=
  match rows with
  | [] => Err ShapeError
  | r :: _ =>
      if forallb (fun r' => Nat.eqb (length r') (length r)) rows
      then Ok rows else Err ShapeError
  end.

(** The half of the corpus that [get_batch] reads for [split]. *)
Definition select (data : list Z) (split : string) : list Z :=
  if String.eqb split "train" then train_data data else val_data data.

(** [get_batch(split)]; the global [data] is the first argument. *)
Definition get_batch (data : list Z) (split : string)
  : M (list (list Z) * list (list Z)) :=
  let data := select data split in
  ix <- randint 0 (len data - Z.of_nat block_size) batch_size ;;
  x <- lift (torch_stack
               (map (fun i => slice data (Some i) (Some (i + Z.of_nat block_size)%Z)) ix)) ;;
  y <- lift (torch_stack
               (map (fun i => slice data (Some (i + 1)%Z)
                                    (Some (i + Z.of_nat block_size + 1)%Z)) ix)) ;;
  ret (x, y).

(** The offsets [ix] that [get_batch] draws in state [st] from a half [d]. *)
Definition offsets (d : list Z) (st : State) : list Z :=
  map (randint_value 0 (len d - Z.of_nat block_size)) (upcoming st batch_size).

(** The input rows of the batch that [get_batch] returns in state [st] from
    a half [d]. *)
Definition batch_inputs (d : list Z) (st : State) : list (list Z) :=
  map (fun i => slice d (Some i) (Some (i + Z.of_nat block_size)%Z)) (offsets d st).

End Sampler.

(** ** Cell 4: the model *)

Definition n_embd : nat := 128.
Definition n_head : nat := 8.
Definition n_layer : nat := 8.

(** *** Vectors and activations *)

Definition enumerate {A} (l : list A) : list (nat * A) := combine (seq 0 (length l)) l.

Definition sum (v : vec) : R := fold_right Rplus 0%R v.
Arguments sum : simpl never.

Definition dot (a b : vec) : R := sum (map (fun p => (fst p * snd p)%R) (combine a b)).

Definition vadd (a b : vec) : vec := map (fun p => (fst p + snd p)%R) (combine a b).

Definition scale (c : R) (a : vec) : vec := map (fun u => (c * u)%R) a.

(** An activation tensor of shape [(dim0, dim1, E)]: the vector at each pair
    of indices. *)
Record tensor3 : Type := mkT3 { dim0 : nat; dim1 : nat; at3 : nat -> nat -> vec }.

(** [x.permute(1,0,2)] *)
Definition permute_1_0_2 (x : tensor3) : tensor3 :=
  mkT3 (dim1 x) (dim0 x) (fun i j => at3 x j i).

(** A layer that acts on the last dimension only. *)
Definition map3 (f : vec -> vec) (x : tensor3) : tensor3 :=
  mkT3 (dim0 x) (dim1 x) (fun i j => f (at3 x i j)).

(** [x + y] for two activations of one shape. *)
Definition add3 (x y : tensor3) : tensor3 :=
  mkT3 (dim0 x) (dim1 x) (fun i j => vadd (at3 x i j) (at3 y i j)).

(** *** Library layers *)

(** [nn.Linear(in_features, out_features)] *)
Definition Linear_forward (out_features : nat) (L : Linear) (x : vec) : vec :=
  map (fun o => (dot (weight L o) x + bias L o)%R) (seq 0 out_features).

Definition mean (v : vec) : R := (sum v / INR (length v))%R.

Definition variance (v : vec) : R := mean (map (fun a => ((a - mean v) * (a - mean v))%R) v).

Definition layer_norm_eps : R := (1 / 100000)%R.

(** [nn.LayerNorm(n_embd)] *)
Definition LayerNorm_forward (L : LayerNorm) (x : vec) : vec :=
  map (fun p : nat * R => ((snd p - mean x) / sqrt (variance x + layer_norm_eps) * gamma L (fst p)
                 + beta L (fst p))%R)
      (enumerate x).

(** A float that may be [-inf]. *)
Inductive fl : Type :=
| NegInf
| Fin (x : R).

Definition fl_add (a b : fl) : fl :=
  match a, b with
  | Fin u, Fin v => Fin (u + v)%R
  | _, _ => NegInf
  end.

Definition fl_exp (a : fl) : R :=
  match a with
  | NegInf => 0%R
  | Fin u => exp u
  end.

(** [F.softmax(row, dim=-1)] *)
Definition softmax (row : list fl) : vec :=
  map (fun a => (fl_exp a / sum (map fl_exp row))%R) row.

(** *** The causal mask of [MHA.forward] *)

Definition matrix (A : Type) : Type := list (list A).

(** [torch.ones(r, c)] *)
Definition torch_ones (r c : nat) : matrix Q := repeat (repeat 1%Q c) r.

(** [torch.triu(m)]: the entries below the diagonal become zero. *)
Definition torch_triu (m : matrix Q) : matrix Q :=
  map (fun ir : nat * list Q =>
         map (fun ja : nat * Q => if fst ja <? fst ir then 0%Q else snd ja)
             (enumerate (snd ir)))
      (enumerate m).

(** [m == c] for a float tensor *)
Definition eq_scalar (m : matrix Q) (c : Q) : matrix bool :=
  map (map (fun a => Qeq_bool a c)) m.

(** [m.transpose(0, 1)] *)
Definition transpose {A} (m : matrix A) : matrix A :=
  map (fun j => flat_map (fun row => match nth_error row j with
                                     | Some a => [a]
                                     | None => []
                                     end) m)
      (seq 0 (length (hd [] m))).

(** [m == 0] and [m == 1] for a bool tensor *)
Definition eq_bool_scalar (m : matrix bool) (c : bool) : matrix bool :=
  map (map (fun b => Bool.eqb b c)) m.

(** [m.float()] *)
Definition to_float (m : matrix bool) : matrix fl :=
  map (map (fun b : bool => if b then Fin 1%R else Fin 0%R)) m.

(** [m.masked_fill(cond, v)] *)
Definition masked_fill (m : matrix fl) (cond : matrix bool) (v : fl) : matrix fl :=
  map (fun rc : list fl * list bool =>
         map (fun ab : fl * bool => if snd ab then v else fst ab)
             (combine (fst rc) (snd rc)))
      (combine m cond).

(** The two mask statements of [MHA.forward], for a window of [T] positions. *)
Definition causal_mask (T : nat) : matrix fl :=
  let mask := transpose (eq_scalar (torch_triu (torch_ones T T)) 1%Q) in
  masked_fill (masked_fill (to_float mask) (eq_bool_scalar mask false) NegInf)
              (eq_bool_scalar mask true) (Fin 0%R).

(** The matrix with entry [f i j] at row [i] and column [j]. *)
Definition tabulate {A} (r c : nat) (f : nat -> nat -> A) : matrix A :=
  map (fun i => map (f i) (seq 0 c)) (seq 0 r).

(** *** [nn.MultiheadAttention(n_embd, n_head)] *)

Definition head_dim : nat := n_embd / n_head.

(** Components [h*head_dim .. (h+1)*head_dim - 1] of a vector. *)
Definition head_chunk (h : nat) (v : vec) : vec := firstn head_dim (skipn (h * head_dim) v).

(** Query, key and value of head [h] at every position of a sequence. *)
Definition queries (A : MultiheadAttention) (h : nat) (xs : list vec) : list vec :=
  map (fun x => head_chunk h (firstn n_embd (Linear_forward (3 * n_embd) (in_proj A) x))) xs.

Definition keys (A : MultiheadAttention) (h : nat) (xs : list vec) : list vec :=
  map (fun x => head_chunk h
                  (firstn n_embd (skipn n_embd (Linear_forward (3 * n_embd) (in_proj A) x)))) xs.

Definition values (A : MultiheadAttention) (h : nat) (xs : list vec) : list vec :=
  map (fun x => head_chunk h
                  (skipn (2 * n_embd) (Linear_forward (3 * n_embd) (in_proj A) x))) xs.

(** The scaled dot products of head [h]: entry [(i, j)] is query [i] against
    key [j]. *)
Definition scores (A : MultiheadAttention) (h : nat) (xs : list vec) : matrix R :=
  map (fun q => map (fun k => (dot q k / sqrt (INR head_dim))%R) (keys A h xs))
      (queries A h xs).

(** The float mask is added to the scores. *)
Definition masked_scores (s : matrix R) (attn_mask : matrix fl) : matrix fl :=
  map (fun rm : list R * list fl =>
         map (fun sm : R * fl => fl_add (Fin (fst sm)) (snd sm))
             (combine (fst rm) (snd rm)))
      (combine s attn_mask).

(** The attention weights of head [h]: the softmax of every row of the masked
    scores. *)
Definition attention_weights (A : MultiheadAttention) (attn_mask : matrix fl)
    (h : nat) (xs : list vec) : matrix R :=
  map softmax (masked_scores (scores A h xs) attn_mask).

(** The weighted sum of the value vectors. *)
Definition weighted_sum (w : vec) (vs : list vec) : vec :=
  fold_right vadd (repeat 0%R head_dim)
             (map (fun p => scale (fst p) (snd p)) (combine w vs)).

(** The output at every position of one sequence: the heads side by side,
    then the output projection. *)
Definition attend (A : MultiheadAttention) (attn_mask : matrix fl) (xs : list vec)
  : list vec :=
  map (fun i =>
         Linear_forward n_embd (out_proj A)
           (flat_map (fun h => weighted_sum (nth i (attention_weights A attn_mask h xs) [])
                                            (values A h xs))
                     (seq 0 n_head)))
      (seq 0 (length xs)).

(** [attn(x, x, x, attn_mask=mask)] on an input of shape [(L, N, E)]: the
    sequence of batch entry [b] is [x[0][b], ..., x[L-1][b]]. *)
Definition MultiheadAttention_forward (A : MultiheadAttention) (x : tensor3)
    (attn_mask : matrix fl) : tensor3 :=
  mkT3 (dim0 x) (dim1 x)
       (fun l b => nth l (attend A attn_mask (map (fun l' => at3 x l' b) (seq 0 (dim0 x)))) []).

(** The sequence of batch row [b] that [MHA.forward] hands to the attention
    layer: the normalised input, read along the window. *)
Definition MHA_sequence (m : MHA) (x : tensor3) (b : nat) : list vec :=
  let x := map3 (LayerNorm_forward (MHA_ln m)) x in
  let x := permute_1_0_2 x in
  map (fun l' => at3 x l' b) (seq 0 (dim0 x)).

(** *** The modules of the notebook *)

Section Model.
Context {torch : Torch}.

(** [model.eval()] and [model.train()] *)
Definition set_training (b : bool) : M unit :=
  fun st => (Ok tt, mkState (params st) b (grad st) (opt_state st)
                            (rng st) (stdout st) (events st)).

Definition log (e : event) : M unit :=
  fun st => (Ok tt, mkState (params st) (training st) (grad st) (opt_state st)
                            (rng st) (stdout st) (events st ++ [e])).

(** [nn.Dropout()] on an activation whose vectors have [width] components:
    in training mode every component is dropped with probability 1/2, on a
    raw draw of its own, and the kept ones are doubled; in evaluation mode the
    input is returned. *)
Definition Dropout (width : nat) (x : tensor3) : M tensor3 :=
  st <- get ;;
  if training st then
    rs <- draws (dim0 x * dim1 x * width) ;;
    ret (mkT3 (dim0 x) (dim1 x)
              (fun i j =>
                 map (fun ea : nat * R => if Nat.even (nth ((i * dim1 x + j) * width + fst ea) rs 1)
                                then (snd ea * 2)%R else 0%R)
                     (enumerate (at3 x i j))))
  else ret x.

Definition MHA_forward (m : MHA) (x : tensor3) : M tensor3 :=
  let mask := causal_mask (dim1 x) in
  let x := map3 (LayerNorm_forward (MHA_ln m)) x in
  let x := permute_1_0_2 x in
  let x := MultiheadAttention_forward (MHA_attn m) x mask in
  x <- Dropout n_embd x ;;
  let x := permute_1_0_2 x in
  let x := map3 (Linear_forward n_embd (MHA_proj m)) x in
  let x := map3 (LayerNorm_forward (MHA_proj_ln m)) x in
  ret x.

Definition FeedFoward_forward (m : FeedFoward) (x : tensor3) : M tensor3 :=
  let x := map3 (Linear_forward (4 * n_embd) (FF_proj1 m)) x in
  let x := map3 (map gelu) x in
  let x := map3 (Linear_forward n_embd (FF_proj2 m)) x in
  x <- Dropout n_embd x ;;
  ret x.

Definition Block_forward (m : Block) (x : tensor3) : M tensor3 :=
  a <- MHA_forward (Block_mha m) x ;;
  let x := add3 x a in
  f <- FeedFoward_forward (Block_ff m) x ;;
  let x := add3 x f in
  ret x.

(** [nn.Sequential] over the blocks, applied in order *)
Fixpoint Sequential_forward (bs : list Block) (x : tensor3) : M tensor3 :=
  match bs with
  | [] => ret x
  | b :: bs' => x' <- Block_forward b x ;; Sequential_forward bs' x'
  end.

(** One lookup in an [nn.Embedding] of [num] rows; [e] is raised when the
    index is out of range. *)
Definition Embedding_row (num : nat) (w : nat -> vec) (e : exn) (idx : Z) : result vec :=
  if ((0 <=? idx)%Z && (idx <? Z.of_nat num)%Z)%bool then Ok (w (Z.to_nat idx)) else Err e.

Fixpoint all_ok {A} (l : list (result A)) : result (list A) :=
  match l with
  | [] => Ok []
  | Ok a :: l' => match all_ok l' with Ok r => Ok (a :: r) | Err e => Err e end
  | Err e :: _ => Err e
  end.

(** [nn.Embedding(num, n_embd)] on a tensor of indices. *)
Definition Embedding_forward (num : nat) (w : nat -> vec) (e : exn) (idx : list Z)
  : result (list vec) :=
  all_ok (map (Embedding_row num w e) idx).

(** [torch.arange(T)] *)
Definition arange (T : nat) : list Z := map Z.of_nat (seq 0 T).

(** [x.shape[1]] of a two-dimensional tensor given by its rows. *)
Definition shape1 {A} (x : list (list A)) : nat := length (hd [] x).

(** [Transformer.forward]: the result has shape [(B, T, n_vocab)]. *)
Definition Transformer_forward (x : list (list Z)) : M tensor3 :=
  st <- get ;;
  log (Forward (training st) x) ;;;
  let model := params st in
  tok <- lift (all_ok (map (Embedding_forward n_vocab (tok_emb model) VocabMismatch) x)) ;;
  pos <- lift (Embedding_forward block_size (pos_emb model) ContextOverflow
                                 (arange (shape1 x))) ;;
  let x := mkT3 (length x) (shape1 x)
                (fun b t => vadd (nth t (nth b tok []) []) (nth t pos [])) in
  x <- Sequential_forward (blocks model) x ;;
  let x := map3 (LayerNorm_forward (T_ln model)) x in
  let x := map3 (Linear_forward n_vocab (T_proj model)) x in
  ret x.

End Model.

(** ** Cells 5 to 7: loss, optimizer and the training loop *)

Section Trainer.
Context {torch : Torch}.

(** [t.view(k, -1)] of an activation, as [k] rows of features.  In torch the
    view needs the number of elements to be a multiple of [k], and a number of
    positions other than [k] makes the view of the targets raise right after
    it; both are the same RuntimeError, raised here. *)
Definition view_rows (k : nat) (t : tensor3) : result (list vec) :=
  if Nat.eqb (dim0 t * dim1 t) k
  then Ok (flat_map (fun b => map (at3 t b) (seq 0 (dim1 t))) (seq 0 (dim0 t)))
  else Err ShapeError.

(** [y.view(k)] of a two-dimensional tensor of ids. *)
Definition view_flat (k : nat) (y : list (list Z)) : result (list Z) :=
  if Nat.eqb (length (concat y)) k then Ok (concat y) else Err ShapeError.

(** The default [ignore_index] of [nn.CrossEntropyLoss]. *)
Definition ignore_index : Z := (-100)%Z.

(** The loss term of one position: none for an ignored target, an error for
    a target that is no class. *)
Definition nll (row : vec) (t : Z) : result (option R) :=
  if (t =? ignore_index)%Z then Ok None
  else if ((0 <=? t)%Z && (t <? Z.of_nat n_vocab)%Z)%bool
       then Ok (Some (- ln (nth (Z.to_nat t) (softmax (map Fin row)) 0%R))%R)
       else Err VocabMismatch.

Definition kept_terms (terms : list (option R)) : vec :=
  flat_map (fun o : option R => match o with Some u => [u] | None => [] end) terms.

(** [lossfcn = nn.CrossEntropyLoss()]: the mean of the terms that are not
    ignored. *)
Definition lossfcn (logits : list vec) (targets : list Z) : result R :=
  if Nat.eqb (length logits) (length targets) then
    match all_ok (map (fun p : vec * Z => nll (fst p) (snd p)) (combine logits targets)) with
    | Ok terms => Ok (mean (kept_terms terms))
    | Err e => Err e
    end
  else Err ShapeError.

(** [y_hat = model(x)] followed by [lossfcn(y_hat.view(B*T,-1), y.view(B*T))]. *)
Definition forward_loss (x y : list (list Z)) (B T : nat) : M R :=
  y_hat <- Transformer_forward x ;;
  a <- lift (view_rows (B * T) y_hat) ;;
  t <- lift (view_flat (B * T) y) ;;
  lift (lossfcn a t).

(** The loss of the forward pass started in state [st0], as a function of
    the parameters: what [backward] differentiates. *)
Definition replay (st0 : State) (x y : list (list Z)) (B T : nat) (model : Transformer) : R :=
  match forward_loss x y B T
          (mkState model (training st0) (grad st0) (opt_state st0)
                   (rng st0) (stdout st0) (events st0)) with
  | (Ok l, _) => l
  | (Err _, _) => 0%R
  end.

(** [train_loss.backward()] *)
Definition backward (st0 : State) (x y : list (list Z)) (B T : nat) : M unit :=
  fun st =>
    (Ok tt, mkState (params st) (training st)
                    (autograd (replay st0 x y B T) (params st) (grad st))
                    (opt_state st) (rng st) (stdout st) (events st ++ [Backward])).

(** [optim.step()] *)
Definition optim_step : M unit :=
  fun st =>
    let r := adamw (params st) (grad st) (opt_state st) in
    (Ok tt, mkState (fst r) (training st) (grad st) (snd r)
                    (rng st) (stdout st) (events st ++ [OptimStep])).

(** [optim.zero_grad()] *)
Definition optim_zero_grad : M unit :=
  fun st =>
    (Ok tt, mkState (params st) (training st) no_grad (opt_state st)
                    (rng st) (stdout st) (events st ++ [ZeroGrad])).

(** [print(f"Step {step}, Train loss: ..., Val loss: ...")] *)
Definition print (line : nat * R * R) : M unit :=
  fun st =>
    (Ok tt, mkState (params st) (training st) (grad st) (opt_state st)
                    (rng st) (stdout st ++ [line]) (events st)).

(** The body of [if (step+1) % 200 == 0:]. *)
Definition validation (data : list Z) (step B T : nat) (train_loss : R) : M unit :=
  set_training false ;;;
  xy <- get_batch data "val" ;;
  let x := fst xy in
  let y := snd xy in
  val_loss <- forward_loss x y B T ;;
  print (step, train_loss, val_loss) ;;;
  set_training true.

(** The first seven statements of the loop body: one gradient step on a
    training batch.  It returns [B], [T] and [train_loss] for the statements
    that follow. *)
Definition update (data : list Z) : M (nat * nat * R) :=
  xy <- get_batch data "train" ;;
  let x := fst xy in
  let y := snd xy in
  let B := length x in
  let T := shape1 x in
  st0 <- get ;;
  train_loss <- forward_loss x y B T ;;
  backward st0 x y B T ;;;
  optim_step ;;;
  optim_zero_grad ;;;
  ret (B, T, train_loss).

(** The body of [for step in range(1000):]. *)
Definition training_step (data : list Z) (step : nat) : M unit :=
  r <- update data ;;
  let B := fst (fst r) in
  let T := snd (fst r) in
  let train_loss := snd r in
  if Nat.eqb ((step + 1) mod 200) 0
  then validation data step B T train_loss
  else ret tt.

Fixpoint for_each {A} (l : list A) (body : A -> M unit) : M unit :=
  match l with
  | [] => ret tt
  | a :: l' => body a ;;; for_each l' body
  end.

(** [for step in range(steps): ...]; the notebook runs 1000 steps. *)
Definition training_loop (data : list Z) (steps : nat) : M unit :=
  for_each (seq 0 steps) (training_step data).

(** ** Cell 9: generation *)

(** [t[:, -1]] *)
Definition last_position (t : tensor3) : result (list vec) :=
  if Nat.eqb (dim1 t) 0 then Err IndexError
  else Ok (map (fun b => at3 t b (dim1 t - 1)) (seq 0 (dim0 t))).

(** One draw of [torch.multinomial(p, 1)] for a row [p]: the index that the
    raw draw [r] stands for.  The probabilities are not modelled: a softmax
    gives every index a positive probability, so every index can be drawn. *)
Definition multinomial_row (p : vec) (r : nat) : result (list Z) :=
  match p with
  | [] => Err SamplingError
  | _ => Ok [Z.of_nat (r mod length p)]
  end.

(** [torch.multinomial(p, 1)] for a batch of distributions. *)
Definition multinomial (p : list vec) : M (list (list Z)) :=
  rs <- draws (length p) ;;
  lift (all_ok (map (fun pr : vec * nat => multinomial_row (fst pr) (snd pr)) (combine p rs))).

(** [torch.cat([a, b], dim=-1)] for two-dimensional tensors. *)
Definition cat_last (a b : list (list Z)) : result (list (list Z)) :=
  if Nat.eqb (length a) (length b)
  then Ok (map (fun p : list Z * list Z => fst p ++ snd p) (combine a b))
  else Err ShapeError.

(** [seq[:, -block_size:]] *)
Definition context_of (seq : list (list Z)) : list (list Z) :=
  map (fun row => slice row (Some (- Z.of_nat block_size)%Z) None) seq.

(** The body of [for step in range(200):]. *)
Definition generation_step (seq : list (list Z)) : M (list (list Z)) :=
  let context := context_of seq in
  out <- Transformer_forward context ;;
  y_hat <- lift (last_position out) ;;
  let p := map (fun v => softmax (map Fin v)) y_hat in
  next_word <- multinomial p ;;
  lift (cat_last seq next_word).

Fixpoint generation_loop (steps : nat) (seq : list (list Z)) : M (list (list Z)) :=
  match steps with
  | O => ret seq
  | S k => seq' <- generation_step seq ;; generation_loop k seq'
  end.

(** The generation cell for the ids [seed] of the prompt: [unsqueeze(0)],
    the loop (200 steps in the notebook), and [seq[0]] for decoding. *)
Definition generate (seed : list Z) (steps : nat) : M (list Z) :=
  seq <- generation_loop steps [seed] ;;
  ret (hd [] seq).

(** The state in which the first training step starts: a freshly built
    module is in training mode. *)
Definition initial_state (model : Transformer) (o : OptState) : State :=
  mkState model true no_grad o 0 [] [].

(** The cells in order: train for 1000 steps, then generate 200 ids. *)
Definition notebook (data seed : list Z) : M (list Z) :=
  training_loop data 1000 ;;; generate seed 200.

(** The contexts of the forward passes recorded in a list of events. *)
Definition forward_inputs (es : list event) : list (list (list Z)) :=
  flat_map (fun e => match e with Forward _ x => [x] | _ => [] end) es.

(** The modes of the forward passes recorded in a list of events. *)
Definition forward_modes (es : list event) : list bool :=
  flat_map (fun e => match e with Forward b _ => [b] | _ => [] end) es.

End Trainer.

(** ** Vocabulary of the proofs *)

Section Outcomes.
Context {torch : Torch}.

(** Only the cursor of the random generator may differ between two states. *)
Definition frame (st st' : State) : Prop :=
  params st' = params st /\ training st' = training st /\ grad st' = grad st
  /\ opt_state st' = opt_state st /\ stdout st' = stdout st /\ events st' = events st.

(** The statement [m] run in [st] returns a value and leaves a state that
    together satisfy [P]. *)
Definition succeeds {A} (m : M A) (st : State) (P : A -> State -> Prop) : Prop :=
  exists a st', m st = (Ok a, st') /\ P a st'.

(** Every id is a token of the vocabulary. *)
Definition in_vocab (ids : list Z) : Prop :=
  Forall (fun id => (0 <= id < Z.of_nat n_vocab)%Z) ids.

(** The contexts that [steps] generation steps hand to the model when they
    start from the row [s] and end with the row [out]: before step [k] the
    row is the first [len(s) + k] ids of [out]. *)
Definition contexts_of (s out : list Z) (steps : nat) : list (list (list Z)) :=
  map (fun k => [slice (firstn (length s + k) out) (Some (- Z.of_nat block_size)%Z) None])
      (seq 0 steps).

(** Every row of a batch of ids is in the vocabulary. *)
Definition ids_in_vocab (x : list (list Z)) : Prop := Forall in_vocab x.

End Outcomes.

(** ** A small instance on which the definitions can be run *)

Definition zero_Linear : Linear := {| weight := fun _ => []; bias := fun _ => 0%R |}.
Definition unit_LayerNorm : LayerNorm := {| gamma := fun _ => 1%R; beta := fun _ => 0%R |}.
Definition zero_MHA : MHA :=
  {| MHA_attn := {| in_proj := zero_Linear; out_proj := zero_Linear |};
     MHA_ln := unit_LayerNorm; MHA_proj := zero_Linear; MHA_proj_ln := unit_LayerNorm |}.
Definition zero_Block : Block :=
  {| Block_mha := zero_MHA;
     Block_ff := {| FF_proj1 := zero_Linear; FF_proj2 := zero_Linear |} |}.
Definition zero_model : Transformer :=
  {| blocks := repeat zero_Block n_layer; T_ln := unit_LayerNorm; T_proj := zero_Linear;
     tok_emb := fun _ => repeat 0%R n_embd; pos_emb := fun _ => repeat 0%R n_embd |}.

(** The GPT-2 vocabulary, a generator that counts, the identity in place of
    GELU and an optimizer that leaves the parameters alone. *)
Definition toy : Torch :=
  {| n_vocab := Z.to_nat 50257; gelu := fun u => u; raw := fun k => k;
     Grad := unit; OptState := unit; no_grad := tt;
     autograd := fun _ _ g => g; adamw := fun model _ o => (model, o) |}.

Definition toy_state : @State toy := @initial_state toy zero_model tt.

(** An input of the attention block: one batch row, a window of two
    positions. *)
Definition toy_window : tensor3 := mkT3 1 2 (fun _ _ => repeat 0%R n_embd).

(** The ids of the prompt ['I am a']. *)
Definition toy_seed : list Z := [40; 716; 257]%Z.

(** A corpus of ten ids. *)
Definition tiny_corpus : list Z := [11; 12; 13; 14; 15; 16; 17; 18; 19; 20]%Z.

(** A corpus of 400 ids: 360 for training, 40 for validation. *)
Definition toy_corpus : list Z := map Z.of_nat (seq 0 400).

(** A corpus of 320 ids, whose validation half has exactly [block_size] ids. *)
Definition short_corpus : list Z := map Z.of_nat (seq 0 320).

(** ** Cell 2: cleaning the text *)

(** A Python string is its sequence of code points. *)
Definition text : Type := list N.

Definition is_ascii (c : N) : bool := (c <=? 127)%N.

(** The number of leading characters of [t] that satisfy [p], counted up
    to [most]: what a greedy quantifier with that upper bound takes. *)
Fixpoint leading (most : nat) (p : N -> bool) (t : text) : nat :=
  match most, t with
  | S k, c :: r => if p c then S (leading k p r) else 0
  | _, _ => 0
  end.

(** The first candidate that succeeds, in the order of the list. *)
Fixpoint first_some {A B} (f : A -> option B) (l : list A) : option B :=
  match l with
  | [] => None
  | a :: l' => match f a with Some b => Some b | None => first_some f l' end
  end.

(** The repetition counts a greedy quantifier [{lo,hi}] tries, most first,
    when [g] characters are available. *)
Definition counts (lo g : nat) : list nat := rev (seq lo (S g - lo)).

(** [re.sub(pattern, repl, t)] for a pattern that matches no empty string.
    [m u] is the length of the match of the pattern at the start of [u], if
    there is one; [skip] characters of an earlier match are still to be
    dropped. *)
Fixpoint re_sub_from (m : text -> option nat) (repl : text) (skip : nat) (t : text) : text :=
  match t with
  | [] => []
  | c :: r =>
      match skip with
      | S k => re_sub_from m repl k r
      | O =>
          match m t with
          | Some (S k) => repl ++ re_sub_from m repl k r
          | _ => c :: re_sub_from m repl 0 r
          end
      end
  end.

Definition re_sub (m : text -> option nat) (repl : text) (t : text) : text :=
  re_sub_from m repl 0 t.

(** The pattern [[^\x00-\x7F]+]: a longest run of characters above 127. *)
Definition match_non_ascii (t : text) : option nat :=
  match leading (length t) (fun c => negb (is_ascii c)) t with
  | O => None
  | k => Some k
  end.

Section Dates.

(** [\d] on the characters above 127: the decimal digits of other scripts,
    as the Unicode database lists them. *)
Variable unicode_digit : N -> bool.

(** [\d] *)
Definition is_digit (c : N) : bool :=
  ((48 <=? c)%N && (c <=? 57)%N) || (negb (is_ascii c) && unicode_digit c).

(** [\d{lo,hi}] followed by the rest of the pattern [k]: the counts are
    tried from the largest down, and the first one after which the rest
    matches is kept. *)
Definition match_digits (lo hi : nat) (k : text -> option nat) (t : text) : option nat :=
  first_some (fun n => option_map (Nat.add n) (k (skipn n t)))
             (counts lo (leading hi is_digit t)).

(** [/] followed by the rest of the pattern [k]. *)
Definition match_slash (k : text -> option nat) (t : text) : option nat :=
  match t with
  | c :: r => if (c =? 47)%N then option_map S (k r) else None
  | [] => None
  end.

(** The pattern [\d{1,2}/\d{1,2}/\d{2,4}] *)
Definition match_date (t : text) : option nat :=
  match_digits 1 2
    (match_slash (match_digits 1 2 (match_slash (match_digits 2 4 (fun _ => Some 0))))) t.

(** The three statements of the cell after the file is read. *)
Definition clean (t : text) : text :=
  let t := re_sub match_non_ascii [32%N] t in
  let t := re_sub match_date [32%N] t in
  slice t (Some 26%Z) None.

(** A string of the shape [\d{1,2}/\d{1,2}/\d{2,4}]. *)
Definition is_date (d : text) : Prop :=
  exists a b c,
    d = a ++ [47%N] ++ b ++ [47%N] ++ c
    /\ forallb is_digit a = true /\ 1 <= length a <= 2
    /\ forallb is_digit b = true /\ 1 <= length b <= 2
    /\ forallb is_digit c = true /\ 2 <= length c <= 4.

(** Some part of [t] has the shape of a date. *)
Definition has_date (t : text) : Prop :=
  exists pre d post, t = pre ++ d ++ post /\ is_date d.

End Dates.

(** ** The forward pass without dropout *)

Section Evaluation.
Context {torch : Torch}.

(** What [MHA.forward] returns when dropout is the identity. *)
Definition MHA_eval (m : MHA) (x : tensor3) : tensor3 :=
  let mask := causal_mask (dim1 x) in
  let x := map3 (LayerNorm_forward (MHA_ln m)) x in
  let x := permute_1_0_2 x in
  let x := MultiheadAttention_forward (MHA_attn m) x mask in
  let x := permute_1_0_2 x in
  let x := map3 (Linear_forward n_embd (MHA_proj m)) x in
  map3 (LayerNorm_forward (MHA_proj_ln m)) x.

Definition FeedFoward_eval (m : FeedFoward) (x : tensor3) : tensor3 :=
  let x := map3 (Linear_forward (4 * n_embd) (FF_proj1 m)) x in
  let x := map3 (map gelu) x in
  map3 (Linear_forward n_embd (FF_proj2 m)) x.

Definition Block_eval (m : Block) (x : tensor3) : tensor3 :=
  let x := add3 x (MHA_eval (Block_mha m) x) in
  add3 x (FeedFoward_eval (Block_ff m) x).

Fixpoint Sequential_eval (bs : list Block) (x : tensor3) : tensor3 :=
  match bs with
  | [] => x
  | b :: bs' => Sequential_eval bs' (Block_eval b x)
  end.

(** The logits of [Transformer.forward] in evaluation mode, for ids of the
    vocabulary in a window that the positional table holds. *)
Definition logits (model : Transformer) (x : list (list Z)) : tensor3 :=
  let tok := map (map (fun i => tok_emb model (Z.to_nat i))) x in
  let pos := map (pos_emb model) (seq 0 (shape1 x)) in
  let x := mkT3 (length x) (shape1 x)
                (fun b t => vadd (nth t (nth b tok []) []) (nth t pos [])) in
  let x := Sequential_eval (blocks model) x in
  let x := map3 (LayerNorm_forward (T_ln model)) x in
  map3 (Linear_forward n_vocab (T_proj model)) x.

(** The state after a call of the model was recorded. *)
Definition recorded (st : State) (x : list (list Z)) : State :=
  mkState (params st) (training st) (grad st) (opt_state st)
          (rng st) (stdout st) (events st ++ [Forward (training st) x]).

(** The raw draws that one forward pass in training mode consumes on a
    batch of [B] rows of [T] ids: two dropout layers in every block, one draw
    for each of the [B*T*n_embd] components. *)
Definition dropout_draws (model : Transformer) (B T : nat) : nat :=
  length (blocks model) * (2 * (B * T * n_embd)).

(** Row [b] of [X] and row [b'] of [X'] hold the same vectors at the first
    [n] positions. *)
Definition agree (n : nat) (X : tensor3) (b : nat) (X' : tensor3) (b' : nat) : Prop :=
  forall t, t < n -> at3 X b t = at3 X' b' t.

End Evaluation.

(** A corpus of 330 ids, whose validation half has [block_size + 1] ids. *)
Definition edge_corpus : list Z := map Z.of_nat (seq 0 330).


(** ** What a run of the training loop does *)

(** The test of [if (step+1) % 200 == 0:]. *)
Definition is_validation_step (step : nat) : bool := Nat.eqb ((step + 1) mod 200) 0.

Definition validation_steps (steps : nat) : list nat :=
  filter is_validation_step (seq 0 steps).

(** The modes of the forward passes of one step of the loop. *)
Definition step_modes (step : nat) : list bool :=
  if is_validation_step step then [true; false] else [true].

(** The number of calls of [optim.step()] and of [backward()] in a list of
    events. *)
Definition optimizer_steps (es : list event) : nat :=
  length (filter (fun e => match e with OptimStep => true | _ => false end) es).

Definition backward_passes (es : list event) : nat :=
  length (filter (fun e => match e with Backward => true | _ => false end) es).

(** The step numbers of the printed lines. *)
Definition printed_steps (lines : list (nat * R * R)) : list nat :=
  map (fun l : nat * R * R => fst (fst l)) lines.

Section Accounting.
Context {torch : Torch}.

(** What a piece of the loop has done when it is left in [st']: [modes] are
    the modes of its forward passes, [lines] the steps of the lines it
    printed, [k] the number of its backward passes and optimizer steps. *)
Definition step_done (st : State) (modes : list bool) (lines : list nat) (k : nat)
    (st' : State) : Prop :=
  exists out evs,
    stdout st' = stdout st ++ out /\ printed_steps out = lines
    /\ events st' = events st ++ evs /\ forward_modes evs = modes
    /\ optimizer_steps evs = k /\ backward_passes evs = k.

End Accounting.

(** ** Cell 10: the split of the text for fine-tuning *)

(** [int(n*0.9)], where [n] is still the [n] of cell 3: the number of ids of
    the training half. *)
Definition text_cut (data : list Z) : Z := py_int (inject_Z (Split.n data) * (9 # 10))%Q.

(** [train_data = text[:int(n*0.9)]] *)
Definition train_text (t : text) (data : list Z) : text :=
  slice t None (Some (text_cut data)).

(** [val_data = text[int(n*0.9):]] *)
Definition val_text (t : text) (data : list Z) : text :=
  slice t (Some (text_cut data)) None.

(** The small instance after [model.eval()]. *)
Definition toy_eval_state : @State toy := @mkState toy zero_model false tt tt 0 [] [].
(** * Properties *)

Unset Implicit Arguments.

(** ** Slices *)

Lemma norm_index_bounds (k i : Z) :
  (0 <= k)%Z -> (0 <= norm_index k i <= k)%Z.
Proof.
  intros Hk. unfold norm_index.
  destruct (Z.ltb_spec i 0); lia.
Qed.

Lemma norm_index_inside (k i : Z) :
  (0 <= i <= k)%Z -> norm_index k i = i.
Proof.
  intros Hi. unfold norm_index.
  destruct (Z.ltb_spec i 0); lia.
Qed.

Lemma len_nonneg {A} (l : list A) : (0 <= len l)%Z.
Proof. unfold len. lia. Qed.

Lemma slice_upto {A} (l : list A) (k : Z) :
  slice l None (Some k) = firstn (Z.to_nat (norm_index (len l) k)) l.
Proof.
  unfold slice. simpl. now rewrite Z.sub_0_r.
Qed.

Lemma slice_from {A} (l : list A) (k : Z) :
  slice l (Some k) None = skipn (Z.to_nat (norm_index (len l) k)) l.
Proof.
  unfold slice.
  pose proof (norm_index_bounds (len l) k (len_nonneg l)) as Hb.
  apply firstn_all2. rewrite length_skipn. unfold len in *. lia.
Qed.

Lemma slice_zero_upto {A} (l : list A) (k : Z) :
  slice l (Some 0%Z) (Some k) = slice l None (Some k).
Proof.
  unfold slice. rewrite (norm_index_inside (len l) 0%Z); [reflexivity|].
  pose proof (len_nonneg l). lia.
Qed.

Lemma slice_halves {A} (l : list A) (k : Z) :
  slice l None (Some k) ++ slice l (Some k) None = l.
Proof.
  rewrite slice_upto, slice_from. apply firstn_skipn.
Qed.

(** A window [l[off : off+w]] that lies inside [l]. *)
Lemma slice_window {A} (l : list A) (off : Z) (w : nat) :
  (0 <= off)%Z -> (off + Z.of_nat w <= len l)%Z ->
  slice l (Some off) (Some (off + Z.of_nat w)%Z)
  = firstn w (skipn (Z.to_nat off) l).
Proof.
  intros H0 H1. unfold slice.
  rewrite !norm_index_inside by lia.
  replace (Z.to_nat (off + Z.of_nat w - off)) with w by lia.
  reflexivity.
Qed.

Lemma window_length {A} (l : list A) (off w : nat) :
  off + w <= length l -> length (firstn w (skipn off l)) = w.
Proof.
  intros H. rewrite length_firstn, length_skipn. lia.
Qed.

Lemma window_nth_error {A} (l : list A) (off w t : nat) :
  t < w -> nth_error (firstn w (skipn off l)) t = nth_error l (off + t).
Proof.
  intros H. rewrite nth_error_firstn.
  destruct (Nat.ltb_spec t w); [|lia].
  apply nth_error_skipn.
Qed.

Lemma py_int_floor (q : Q) : (0 <= q)%Q -> py_int q = Qfloor q.
Proof.
  destruct q as [a b]. unfold Qle, py_int, Qfloor. simpl.
  intros H. apply Z.quot_div_nonneg; lia.
Qed.

(** ** The train/validation split *)

Lemma halves_app (f : Q) (data : list Z) :
  fst (Split.halves f data) ++ snd (Split.halves f data) = data.
Proof. unfold Split.halves. simpl. apply slice_halves. Qed.

Lemma train_val_app (data : list Z) : train_data data ++ val_data data = data.
Proof. apply slice_halves. Qed.

Lemma cut_at_nine_tenths (data : list Z) : Split.n data = (9 * len data / 10)%Z.
Proof.
  unfold Split.n, Split.cut, py_int, Qmult, inject_Z. cbn [Qnum Qden].
  change (10 * 1)%positive with 10%positive.
  apply Z.quot_div_nonneg; pose proof (len_nonneg data); lia.
Qed.

(** Taking or dropping more than the list holds is taking or dropping all of
    it. *)
Lemma firstn_min_length {A} (k : nat) (l : list A) :
  firstn (Nat.min k (length l)) l = firstn k l.
Proof.
  destruct (Nat.le_gt_cases k (length l)) as [H|H].
  - now rewrite Nat.min_l.
  - rewrite Nat.min_r by lia. rewrite firstn_all. symmetry. apply firstn_all2. lia.
Qed.

Lemma skipn_min_length {A} (k : nat) (l : list A) :
  skipn (Nat.min k (length l)) l = skipn k l.
Proof.
  destruct (Nat.le_gt_cases k (length l)) as [H|H].
  - now rewrite Nat.min_l.
  - rewrite Nat.min_r by lia. rewrite skipn_all. symmetry. apply skipn_all2. lia.
Qed.

(** A cut at [k >= 0]: the first [k] elements and the rest. *)
Lemma slice_at_cut {A} (l : list A) (k : Z) :
  (0 <= k)%Z ->
  slice l None (Some k) = firstn (Z.to_nat k) l
  /\ slice l (Some k) None = skipn (Z.to_nat k) l.
Proof.
  intros Hk. rewrite slice_upto, slice_from.
  assert (E : Z.to_nat (norm_index (len l) k) = Nat.min (Z.to_nat k) (length l)).
  { unfold norm_index, len. destruct (Z.ltb_spec k 0); lia. }
  rewrite E. split; [apply firstn_min_length|apply skipn_min_length].
Qed.

(** C2.  For every id sequence and every split fraction [f] (the notebook's
    is 0.9), the two halves are [ids[0:floor(f*len(ids))]] and
    [ids[floor(f*len(ids)):]]: the training half is a prefix of the corpus and
    the validation half is the rest of it, in the original order, so the
    lengths add up to the length of the corpus and the halves neither overlap
    nor leave a gap.  The cut falls at [k = floor(f*len(ids))]: the training
    half is the first [k] ids and the validation half what is left when they
    are dropped, so the training half has [min(k, len(ids))] ids, and exactly
    [k] for a fraction of at most one.  For the notebook's fraction the cut is
    at [floor(9*len(ids)/10)]. *)
Theorem split_is_ordered_partition (f : Q) (data : list Z) :
  (0 <= f)%Q ->
  let k := Qfloor (f * inject_Z (len data))%Q in
  let train := fst (Split.halves f data) in
  let val := snd (Split.halves f data) in
  train = slice data (Some 0%Z) (Some k)
  /\ val = slice data (Some k) None
  /\ train ++ val = data
  /\ length train + length val = length data
  /\ train = firstn (length train) data
  /\ val = skipn (length train) data
  /\ (train_data data, val_data data) = Split.halves (9 # 10)%Q data
  /\ (0 <= k)%Z
  /\ train = firstn (Z.to_nat k) data
  /\ val = skipn (Z.to_nat k) data
  /\ length train = Nat.min (Z.to_nat k) (length data)
  /\ ((f <= 1)%Q -> length train = Z.to_nat k)
  /\ train_data data = firstn (9 * length data / 10) data
  /\ val_data data = skipn (9 * length data / 10) data.
Proof.
  intros Hf k train val.
  assert (Hk : Split.cut f data = k).
  { unfold Split.cut, k. apply py_int_floor.
    apply Qmult_le_0_compat; [exact Hf|].
    unfold Qle. simpl. pose proof (len_nonneg data). lia. }
  assert (Happ : train ++ val = data) by apply halves_app.
  assert (Hlen : length train + length val = length data).
  { rewrite <- length_app. now rewrite Happ. }
  assert (Hprod : (0 <= f * inject_Z (len data))%Q).
  { apply Qmult_le_0_compat; [exact Hf|].
    unfold Qle. simpl. pose proof (len_nonneg data). lia. }
  assert (Hk0 : (0 <= k)%Z).
  { unfold k. change 0%Z with (Qfloor 0). now apply Qfloor_resp_le. }
  assert (Htrain : train = firstn (Z.to_nat k) data).
  { unfold train, Split.halves. cbn [fst]. rewrite Hk. now apply slice_at_cut. }
  assert (Hval : val = skipn (Z.to_nat k) data).
  { unfold val, Split.halves. cbn [snd]. rewrite Hk. now apply slice_at_cut. }
  assert (Hmin : length train = Nat.min (Z.to_nat k) (length data)).
  { rewrite Htrain. apply length_firstn. }
  assert (Hn : Z.to_nat (Split.n data) = 9 * length data / 10).
  { rewrite cut_at_nine_tenths. unfold len.
    rewrite <- (Nat2Z.id (9 * length data / 10)). f_equal.
    rewrite Nat2Z.inj_div, Nat2Z.inj_mul. reflexivity. }
  assert (Hn0 : (0 <= Split.n data)%Z).
  { rewrite cut_at_nine_tenths. apply Z.div_pos; pose proof (len_nonneg data); lia. }
  split.
  { unfold train, Split.halves. simpl. rewrite Hk. symmetry. apply slice_zero_upto. }
  split.
  { unfold val, Split.halves. simpl. now rewrite Hk. }
  split; [exact Happ|]. split; [exact Hlen|].
  split.
  { rewrite <- Happ. rewrite firstn_app, Nat.sub_diag, firstn_all. simpl.
    now rewrite app_nil_r. }
  split.
  { rewrite <- Happ. rewrite skipn_app, Nat.sub_diag, skipn_all. reflexivity. }
  split; [reflexivity|]. split; [exact Hk0|]. split; [exact Htrain|].
  split; [exact Hval|]. split; [exact Hmin|].
  split.
  { intros Hf1. rewrite Hmin. apply Nat.min_l.
    assert (Hle : (k <= len data)%Z).
    { assert (Hq : (f * inject_Z (len data) <= inject_Z (len data))%Q).
      { apply Qle_trans with (1 * inject_Z (len data))%Q.
        - apply Qmult_le_compat_r; [exact Hf1|].
          unfold Qle. simpl. pose proof (len_nonneg data). lia.
        - rewrite Qmult_1_l. apply Qle_refl. }
      apply Qfloor_resp_le in Hq. rewrite Qfloor_Z in Hq. exact Hq. }
    unfold len in Hle. lia. }
  split.
  - unfold train_data. rewrite <- Hn. now apply slice_at_cut.
  - unfold val_data. rewrite <- Hn. now apply slice_at_cut.
Qed.

(** The split of a corpus of ten ids at the notebook's fraction 0.9. *)
Lemma split_is_ordered_partition_witness :
  let data := [11; 12; 13; 14; 15; 16; 17; 18; 19; 20]%Z in
  let k := Qfloor ((9 # 10) * inject_Z (len data))%Q in
  let train := fst (Split.halves (9 # 10)%Q data) in
  let val := snd (Split.halves (9 # 10)%Q data) in
  train = slice data (Some 0%Z) (Some k)
  /\ val = slice data (Some k) None
  /\ train ++ val = data
  /\ length train + length val = length data
  /\ train = firstn (length train) data
  /\ val = skipn (length train) data
  /\ (train_data data, val_data data) = Split.halves (9 # 10)%Q data
  /\ (0 <= k)%Z
  /\ train = firstn (Z.to_nat k) data
  /\ val = skipn (Z.to_nat k) data
  /\ length train = Nat.min (Z.to_nat k) (length data)
  /\ (((9 # 10) <= 1)%Q -> length train = Z.to_nat k)
  /\ train_data data = firstn (9 * length data / 10) data
  /\ val_data data = skipn (9 * length data / 10) data.
Proof.
  apply (split_is_ordered_partition (9 # 10)%Q
           [11; 12; 13; 14; 15; 16; 17; 18; 19; 20]%Z).
  unfold Qle. simpl. lia.
Defined.

(** ** The batch sampler *)

Section SamplerFacts.
Context {torch : Torch}.

Lemma randint_value_range (low high : Z) (r : nat) :
  (low < high)%Z -> (low <= randint_value low high r < high)%Z.
Proof.
  intros H. unfold randint_value.
  pose proof (Z.mod_pos_bound (Z.of_nat r) (high - low)). lia.
Qed.

Lemma randint_value_periodic (low high : Z) (r : nat) :
  (low < high)%Z ->
  randint_value low high (r + Z.to_nat (high - low)) = randint_value low high r.
Proof.
  intros H. unfold randint_value. f_equal.
  rewrite Nat2Z.inj_add, Z2Nat.id by lia.
  rewrite <- (Z.mul_1_l (high - low)) at 1.
  apply Z_mod_plus_full.
Qed.

Lemma filter_eqb_seq (k a m : nat) :
  a <= k < a + m -> filter (fun r => Nat.eqb r k) (seq a m) = [k].
Proof.
  revert a. induction m as [|m IH]; intros a H; [lia|].
  simpl. destruct (Nat.eqb_spec a k) as [->|Hne].
  - f_equal. clear IH H.
    assert (G : forall b, k < b -> filter (fun r => Nat.eqb r k) (seq b m) = []).
    { clear. induction m as [|m IH]; intros b Hb; [reflexivity|].
      simpl. destruct (Nat.eqb_spec b k); [lia|]. apply IH. lia. }
    apply G. lia.
  - apply IH. lia.
Qed.

(** Among the raw residues [0..high-low-1], exactly one stands for each
    integer of [low..high-1]. *)
Lemma randint_value_one_each (low high v : Z) :
  (low <= v < high)%Z ->
  filter (fun r => Z.eqb (randint_value low high r) v) (seq 0 (Z.to_nat (high - low)))
  = [Z.to_nat (v - low)].
Proof.
  intros H.
  rewrite <- (filter_eqb_seq (Z.to_nat (v - low)) 0 (Z.to_nat (high - low))) by lia.
  apply filter_ext_in. intros r Hr. apply in_seq in Hr.
  unfold randint_value. rewrite Z.mod_small by lia.
  destruct (Z.eqb_spec (low + Z.of_nat r) v), (Nat.eqb_spec r (Z.to_nat (v - low)));
    try reflexivity; lia.
Qed.

Lemma randint_run (low high : Z) (size : nat) (st : State) :
  (low < high)%Z ->
  randint low high size st
  = (Ok (map (randint_value low high) (upcoming st size)), advance st size).
Proof.
  intros H. unfold randint.
  destruct (Z.ltb_spec low high); [reflexivity|lia].
Qed.

Lemma randint_empty (low high : Z) (size : nat) (st : State) :
  (high <= low)%Z -> randint low high size st = (Err InsufficientData, st).
Proof.
  intros H. unfold randint.
  destruct (Z.ltb_spec low high); [lia|reflexivity].
Qed.

Lemma torch_stack_ok {A} (rows : list (list A)) (k : nat) :
  rows <> [] -> Forall (fun r => length r = k) rows -> torch_stack rows = Ok rows.
Proof.
  intros Hne Hall. destruct rows as [|r rows]; [congruence|].
  unfold torch_stack.
  replace (forallb (fun r' => Nat.eqb (length r') (length r)) (r :: rows)) with true;
    [reflexivity|].
  symmetry. apply forallb_forall. intros r' Hin.
  rewrite Forall_forall in Hall.
  rewrite (Hall r' Hin), (Hall r (or_introl eq_refl)). apply Nat.eqb_refl.
Qed.

Lemma upcoming_length (st : State) (k : nat) : length (upcoming st k) = k.
Proof. unfold upcoming. now rewrite length_map, length_seq. Qed.

Lemma offsets_length (d : list Z) (st : State) : length (offsets d st) = batch_size.
Proof. unfold offsets. now rewrite length_map, upcoming_length. Qed.

Lemma offsets_range (d : list Z) (st : State) (i : Z) :
  block_size < length d -> In i (offsets d st) ->
  (0 <= i < len d - Z.of_nat block_size)%Z.
Proof.
  intros Hd Hin. unfold offsets in Hin. apply in_map_iff in Hin.
  destruct Hin as [r [<- _]]. apply randint_value_range. unfold len. lia.
Qed.

(** The input window and the target window at offset [i]. *)
Lemma input_window (d : list Z) (i : Z) :
  (0 <= i < len d - Z.of_nat block_size)%Z ->
  slice d (Some i) (Some (i + Z.of_nat block_size)%Z)
  = firstn block_size (skipn (Z.to_nat i) d).
Proof. intros H. apply slice_window; lia. Qed.

Lemma target_window (d : list Z) (i : Z) :
  (0 <= i < len d - Z.of_nat block_size)%Z ->
  slice d (Some (i + 1)%Z) (Some (i + Z.of_nat block_size + 1)%Z)
  = firstn block_size (skipn (Z.to_nat i + 1) d).
Proof.
  intros H.
  replace (i + Z.of_nat block_size + 1)%Z with (i + 1 + Z.of_nat block_size)%Z by lia.
  rewrite slice_window by lia.
  now replace (Z.to_nat (i + 1)) with (Z.to_nat i + 1) by lia.
Qed.

(** What a batch request returns when the chosen half is longer than a
    window: sixteen input windows and the sixteen windows one position
    further, at the offsets the generator yields. *)
Lemma get_batch_run (data : list Z) (split : string) (st : State) :
  block_size < length (select data split) ->
  get_batch data split st
  = (Ok (map (fun i => slice (select data split) (Some i)
                             (Some (i + Z.of_nat block_size)%Z))
             (offsets (select data split) st),
         map (fun i => slice (select data split) (Some (i + 1)%Z)
                             (Some (i + Z.of_nat block_size + 1)%Z))
             (offsets (select data split) st)),
     advance st batch_size).
Proof.
  intros Hd. unfold get_batch. set (d := select data split) in *.
  unfold bind at 1. rewrite randint_run by (unfold len; lia).
  fold (offsets d st).
  assert (Hne : offsets d st <> []).
  { intros E. pose proof (offsets_length d st) as L. rewrite E in L. discriminate L. }
  unfold bind at 1. unfold lift at 1.
  rewrite (torch_stack_ok _ block_size).
  - unfold bind at 1. unfold lift at 1.
    rewrite (torch_stack_ok _ block_size).
    + reflexivity.
    + destruct (offsets d st); [congruence|discriminate].
    + apply Forall_forall. intros r Hr. apply in_map_iff in Hr.
      destruct Hr as [i [<- Hi]]. apply offsets_range in Hi; [|exact Hd].
      rewrite target_window by exact Hi. apply window_length. unfold len in Hi. lia.
  - destruct (offsets d st); [congruence|discriminate].
  - apply Forall_forall. intros r Hr. apply in_map_iff in Hr.
    destruct Hr as [i [<- Hi]]. apply offsets_range in Hi; [|exact Hd].
    rewrite input_window by exact Hi. apply window_length. unfold len in Hi. lia.
Qed.

Lemma get_batch_short (data : list Z) (split : string) (st : State) :
  length (select data split) <= block_size ->
  get_batch data split st = (Err InsufficientData, st).
Proof.
  intros Hd. unfold get_batch, bind.
  rewrite randint_empty; [reflexivity|]. unfold len. lia.
Qed.

End SamplerFacts.

Section SamplerClaims.
Context {torch : Torch}.

Lemma nth_map_in_range {A B} (f : A -> B) (l : list A) (k : nat) (a : A) (b : B) :
  k < length l -> nth k (map f l) b = f (nth k l a).
Proof.
  intros H. rewrite (nth_indep (map f l) b (f a)) by (now rewrite length_map).
  apply map_nth.
Qed.

(** C3.  On a half longer than [block_size], a batch request succeeds; each
    of its [batch_size] offsets is the integer of [0 .. len - block_size - 1]
    that one fresh raw draw of the generator stands for, every integer of that
    range standing for equally many raw draws; row [row] of the inputs is
    [split[off : off+block_size]] and row [row] of the targets is
    [split[off+1 : off+block_size+1]], both of full length: position [t] of the
    input row is element [off+t] of the half and position [t] of the target
    row is element [off+t+1]. *)
Theorem get_batch_rows_are_shifted_windows
    (data : list Z) (split : string) (st : State) :
  block_size < length (select data split) ->
  let d := select data split in
  let high := (len d - Z.of_nat block_size)%Z in
  let ix := offsets d st in
  exists x y,
    get_batch data split st = (Ok (x, y), advance st batch_size)
    /\ length ix = batch_size /\ length x = batch_size /\ length y = batch_size
    /\ (forall v, (0 <= v < high)%Z ->
          filter (fun r => Z.eqb (randint_value 0 high r) v) (seq 0 (Z.to_nat high))
          = [Z.to_nat v])
    /\ (forall r, randint_value 0 high (r + Z.to_nat high) = randint_value 0 high r)
    /\ (forall row, row < batch_size ->
          let off := nth row ix 0%Z in
          off = randint_value 0 high (raw (rng st + row))
          /\ (0 <= off < high)%Z
          /\ nth row x [] = slice d (Some off) (Some (off + Z.of_nat block_size)%Z)
          /\ nth row y [] = slice d (Some (off + 1)%Z)
                                   (Some (off + Z.of_nat block_size + 1)%Z)
          /\ length (nth row x []) = block_size
          /\ length (nth row y []) = block_size
          /\ (forall t, t < block_size ->
                nth_error (nth row x []) t = nth_error d (Z.to_nat off + t)
                /\ nth_error (nth row y []) t = nth_error d (Z.to_nat off + t + 1))).
Proof.
  intros Hd d high ix. change (block_size < length d) in Hd.
  assert (Hhigh : (0 < high)%Z) by (unfold high, len; lia).
  eexists _, _. split; [apply get_batch_run; exact Hd|].
  fold d. fold ix.
  assert (Hix : length ix = batch_size) by apply offsets_length.
  split; [exact Hix|]. rewrite !length_map. split; [exact Hix|]. split; [exact Hix|].
  split.
  { intros v Hv. pose proof (randint_value_one_each 0 high v) as E.
    rewrite !Z.sub_0_r in E. apply E. lia. }
  split.
  { intros r. pose proof (randint_value_periodic 0 high r) as E.
    rewrite Z.sub_0_r in E. apply E. lia. }
  intros row Hrow off.
  assert (Hin : In off ix) by (apply nth_In; lia).
  assert (Hoff : (0 <= off < high)%Z) by exact (offsets_range d st off Hd Hin).
  rewrite (nth_map_in_range _ ix row 0%Z) by lia.
  rewrite (nth_map_in_range _ ix row 0%Z) by lia.
  fold off. rewrite input_window, target_window by exact Hoff.
  assert (Hfit : Z.to_nat off + 1 + block_size <= length d) by (unfold high, len in Hoff; lia).
  repeat split; try lia.
  - unfold off, ix, offsets, upcoming.
    rewrite (nth_map_in_range _ _ row 0) by (rewrite length_map, length_seq; lia).
    f_equal. rewrite (nth_map_in_range _ _ row 0) by (rewrite length_seq; lia).
    now rewrite seq_nth by lia.
  - apply window_length. lia.
  - apply window_length. lia.
  - now apply window_nth_error.
  - rewrite window_nth_error by assumption. f_equal. lia.
Qed.

(** C6.  On a half of at most [block_size] ids, and so on one of exactly
    [block_size] ids, a batch request raises (the range handed to
    [torch.randint] is empty) and returns no batch; no random draw is
    consumed. *)
Theorem get_batch_fails_on_short_split
    (data : list Z) (split : string) (st : State) :
  length (select data split) <= block_size ->
  get_batch data split st = (Err InsufficientData, st).
Proof. apply get_batch_short. Qed.

(** C10.  Any [split] argument other than the exact string ['train'] is
    accepted and reads the validation half: the request behaves exactly as
    [get_batch('val')], and returns a batch whenever the validation half is
    longer than [block_size]; only ['train'] reads the training half. *)
Theorem get_batch_other_names_read_val
    (data : list Z) (split : string) (st : State) :
  split <> "train"%string ->
  select data split = val_data data
  /\ select data "train" = train_data data
  /\ get_batch data split st = get_batch data "val" st
  /\ (block_size < length (val_data data) ->
      exists x y, get_batch data split st = (Ok (x, y), advance st batch_size)
                  /\ x = map (fun i => slice (val_data data) (Some i)
                                             (Some (i + Z.of_nat block_size)%Z))
                             (offsets (val_data data) st)).
Proof.
  intros Hne.
  assert (Hsel : select data split = val_data data).
  { unfold select. destruct (String.eqb_spec split "train"); [contradiction|reflexivity]. }
  split; [exact Hsel|]. split; [reflexivity|]. split.
  - unfold get_batch. rewrite Hsel. reflexivity.
  - intros Hlen. eexists _, _. split.
    + apply get_batch_run. now rewrite Hsel.
    + now rewrite Hsel.
Qed.

(** C7 (as the code has it).  The split itself never raises, however short
    its halves are: it returns both slices.  A half shorter than
    [block_size + 1] shows only later, when a batch is requested from it: that
    request raises. *)
Theorem split_never_fails_short_half_fails_later (data : list Z) :
  split_data data = Ok (train_data data, val_data data)
  /\ (forall split st,
        length (select data split) < block_size + 1 ->
        get_batch data split st = (Err InsufficientData, st)).
Proof.
  split; [reflexivity|].
  intros split st H. apply get_batch_short. lia.
Qed.

End SamplerClaims.

(** ** The causal mask *)

Lemma combine_map_map {A B C} (f : A -> B) (g : A -> C) (l : list A) :
  combine (map f l) (map g l) = map (fun a => (f a, g a)) l.
Proof. induction l as [|a l IH]; simpl; [reflexivity|now rewrite IH]. Qed.

Lemma enumerate_map_seq {A} (g : nat -> A) (k : nat) :
  enumerate (map g (seq 0 k)) = map (fun i => (i, g i)) (seq 0 k).
Proof.
  unfold enumerate. rewrite length_map, length_seq.
  rewrite <- (map_id (seq 0 k)) at 1. apply combine_map_map.
Qed.

Lemma repeat_map_seq {A} (a : A) (k : nat) : repeat a k = map (fun _ => a) (seq 0 k).
Proof.
  generalize 0. induction k as [|k IH]; intros s; simpl; [reflexivity|].
  now rewrite (IH (S s)).
Qed.

Lemma tabulate_nth_error {A} (r c : nat) (f : nat -> nat -> A) (i : nat) :
  i < r -> nth_error (tabulate r c f) i = Some (map (f i) (seq 0 c)).
Proof.
  intros H. unfold tabulate. rewrite nth_error_map, nth_error_seq.
  destruct (Nat.ltb_spec i r); [reflexivity|lia].
Qed.

Lemma tabulate_row {A} (r c : nat) (f : nat -> nat -> A) (i : nat) :
  i < r -> nth i (tabulate r c f) [] = map (f i) (seq 0 c).
Proof. intros H. apply nth_error_nth. now apply tabulate_nth_error. Qed.

Lemma map_seq_nth_error {A} (g : nat -> A) (c j : nat) :
  j < c -> nth_error (map g (seq 0 c)) j = Some (g j).
Proof.
  intros H. rewrite nth_error_map, nth_error_seq.
  destruct (Nat.ltb_spec j c); [reflexivity|lia].
Qed.

Lemma ones_tabulate (r c : nat) : torch_ones r c = tabulate r c (fun _ _ => 1%Q).
Proof. unfold torch_ones, tabulate. now rewrite !repeat_map_seq. Qed.

Lemma triu_tabulate (r c : nat) (f : nat -> nat -> Q) :
  torch_triu (tabulate r c f)
  = tabulate r c (fun i j => if j <? i then 0%Q else f i j).
Proof.
  unfold torch_triu, tabulate. rewrite enumerate_map_seq, map_map.
  apply map_ext. intros i. simpl. rewrite enumerate_map_seq, map_map. reflexivity.
Qed.

Lemma map_map_tabulate {A B} (g : A -> B) (r c : nat) (f : nat -> nat -> A) :
  map (map g) (tabulate r c f) = tabulate r c (fun i j => g (f i j)).
Proof.
  unfold tabulate. rewrite map_map. apply map_ext. intros i. now rewrite map_map.
Qed.

Lemma column_of_rows {A} (c : nat) (f : nat -> nat -> A) (j s r : nat) :
  j < c ->
  flat_map (fun row => match nth_error row j with
                       | Some a => [a]
                       | None => []
                       end)
           (map (fun i => map (f i) (seq 0 c)) (seq s r))
  = map (fun i => f i j) (seq s r).
Proof.
  intros Hj. revert s. induction r as [|r IH]; intros s; [reflexivity|].
  simpl. rewrite map_seq_nth_error by exact Hj. simpl. f_equal. apply IH.
Qed.

Lemma transpose_tabulate {A} (r c : nat) (f : nat -> nat -> A) :
  0 < r -> transpose (tabulate r c f) = tabulate c r (fun j i => f i j).
Proof.
  intros Hr. unfold transpose.
  assert (Hhd : length (hd [] (tabulate r c f)) = c).
  { destruct r; [lia|]. unfold tabulate. simpl. now rewrite length_map, length_seq. }
  rewrite Hhd. unfold tabulate at 2. apply map_ext_in. intros j Hj.
  apply in_seq in Hj. unfold tabulate. apply column_of_rows. lia.
Qed.

Lemma masked_fill_tabulate (r c : nat) (f : nat -> nat -> fl) (g : nat -> nat -> bool)
    (v : fl) :
  masked_fill (tabulate r c f) (tabulate r c g) v
  = tabulate r c (fun i j => if g i j then v else f i j).
Proof.
  unfold masked_fill, tabulate. rewrite combine_map_map, map_map.
  apply map_ext. intros i. simpl. now rewrite combine_map_map, map_map.
Qed.

(** The mask as a table: [0.0] on and below the diagonal, [-inf] above it. *)
Lemma causal_mask_table (T : nat) :
  causal_mask T = tabulate T T (fun i j => if j <=? i then Fin 0%R else NegInf).
Proof.
  destruct T as [|T]; [reflexivity|].
  unfold causal_mask, eq_scalar, eq_bool_scalar, to_float.
  rewrite ones_tabulate, triu_tabulate, map_map_tabulate.
  rewrite transpose_tabulate by lia.
  rewrite !map_map_tabulate, !masked_fill_tabulate.
  unfold tabulate. apply map_ext. intros i. apply map_ext. intros j.
  destruct (Nat.ltb_spec i j), (Nat.leb_spec j i); try lia; reflexivity.
Qed.

(** ** Attention weights under the causal mask *)

Lemma nth_error_combine {A B} (l1 : list A) (l2 : list B) (k : nat) :
  nth_error (combine l1 l2) k
  = match nth_error l1 k, nth_error l2 k with
    | Some a, Some b => Some (a, b)
    | _, _ => None
    end.
Proof.
  revert l2 k. induction l1 as [|a l1 IH]; intros l2 k.
  - destruct k; reflexivity.
  - destruct l2 as [|b l2].
    + destruct k; simpl; [reflexivity|]. now destruct (nth_error l1 k).
    + destruct k; simpl; [reflexivity|]. apply IH.
Qed.

Lemma sum_nil : sum [] = 0%R.
Proof. reflexivity. Qed.

Lemma sum_cons (u : R) (l : vec) : sum (u :: l) = (u + sum l)%R.
Proof. reflexivity. Qed.

Lemma sum_app (a b : vec) : sum (a ++ b) = (sum a + sum b)%R.
Proof.
  induction a as [|u a IH].
  - simpl. rewrite sum_nil. lra.
  - simpl. rewrite !sum_cons, IH. lra.
Qed.

Lemma sum_zero (l : vec) :
  (forall k u, nth_error l k = Some u -> u = 0%R) -> sum l = 0%R.
Proof.
  induction l as [|u l IH]; intros H; [reflexivity|].
  rewrite sum_cons, (H 0 u eq_refl), IH; [lra|].
  intros k v Hk. apply (H (S k) v Hk).
Qed.

Lemma sum_nonneg (l : vec) : Forall (fun u => (0 <= u)%R) l -> (0 <= sum l)%R.
Proof.
  induction 1 as [|u l Hu _ IH].
  - rewrite sum_nil. lra.
  - rewrite sum_cons. lra.
Qed.

Lemma sum_pos (l : vec) (k : nat) (u : R) :
  Forall (fun v => (0 <= v)%R) l -> nth_error l k = Some u -> (0 < u)%R ->
  (0 < sum l)%R.
Proof.
  intros Hall. revert k. induction Hall as [|v l Hv Hall IH]; intros k Hk Hu.
  - destruct k; discriminate.
  - rewrite sum_cons. destruct k; simpl in Hk.
    + injection Hk as ->. pose proof (sum_nonneg _ Hall). lra.
    + specialize (IH k Hk Hu). lra.
Qed.

Lemma sum_map_div (l : vec) (z : R) :
  sum (map (fun a => (a / z)%R) l) = (sum l / z)%R.
Proof.
  induction l as [|u l IH].
  - simpl. rewrite sum_nil. unfold Rdiv. now rewrite Rmult_0_l.
  - simpl. rewrite !sum_cons, IH. unfold Rdiv. lra.
Qed.

Lemma fl_exp_nonneg (a : fl) : (0 <= fl_exp a)%R.
Proof.
  destruct a; simpl; [lra|]. left. apply exp_pos.
Qed.

(** A softmax row sums to one as soon as one of its entries is finite. *)
Lemma softmax_sums_to_one (row : list fl) (k : nat) (u : R) :
  nth_error row k = Some (Fin u) -> sum (softmax row) = 1%R.
Proof.
  intros Hk. unfold softmax.
  rewrite <- (map_map fl_exp (fun a => (a / sum (map fl_exp row))%R)).
  rewrite sum_map_div.
  assert (Hz : (0 < sum (map fl_exp row))%R).
  { apply (sum_pos _ k (exp u)).
    - apply Forall_forall. intros v Hv. apply in_map_iff in Hv.
      destruct Hv as [a [<- _]]. apply fl_exp_nonneg.
    - now rewrite nth_error_map, Hk.
    - apply exp_pos. }
  field. lra.
Qed.

Lemma softmax_nth_error (row : list fl) (j : nat) (a : fl) :
  nth_error row j = Some a ->
  nth_error (softmax row) j = Some (fl_exp a / sum (map fl_exp row))%R.
Proof. intros H. unfold softmax. now rewrite nth_error_map, H. Qed.

(** Row [i] of the scores of a sequence of [T] positions. *)
Lemma scores_row (A : MultiheadAttention) (h : nat) (xs : list vec) (i : nat) :
  i < length xs ->
  exists q, nth i (scores A h xs) []
            = map (fun k => (dot q k / sqrt (INR head_dim))%R) (keys A h xs).
Proof.
  intros Hi. unfold scores.
  assert (Hq : i < length (queries A h xs)) by (unfold queries; now rewrite length_map).
  exists (nth i (queries A h xs) []).
  exact (nth_map_in_range _ _ i [] [] Hq).
Qed.

Lemma scores_row_length (A : MultiheadAttention) (h : nat) (xs : list vec) (i : nat) :
  i < length xs -> length (nth i (scores A h xs) []) = length xs.
Proof.
  intros Hi. destruct (scores_row A h xs i Hi) as [q ->].
  unfold keys. now rewrite !length_map.
Qed.

Lemma scores_length (A : MultiheadAttention) (h : nat) (xs : list vec) :
  length (scores A h xs) = length xs.
Proof. unfold scores, queries. now rewrite !length_map. Qed.

(** Row [i] of the masked scores: the score plus the mask entry. *)
Lemma masked_scores_row (s : matrix R) (T i : nat) :
  i < T -> i < length s ->
  nth i (masked_scores s (causal_mask T)) []
  = map (fun sm : R * fl => fl_add (Fin (fst sm)) (snd sm))
        (combine (nth i s [])
                 (map (fun j => if j <=? i then Fin 0%R else NegInf) (seq 0 T))).
Proof.
  intros HT Hs. unfold masked_scores. rewrite causal_mask_table.
  apply nth_error_nth. rewrite nth_error_map, nth_error_combine.
  rewrite (nth_error_nth' s [] Hs), tabulate_nth_error by exact HT.
  reflexivity.
Qed.

Lemma masked_entry (srow : list R) (T i j : nat) (s : R) :
  j < T -> nth_error srow j = Some s ->
  nth_error (map (fun sm : R * fl => fl_add (Fin (fst sm)) (snd sm))
                 (combine srow
                          (map (fun j => if j <=? i then Fin 0%R else NegInf) (seq 0 T)))) j
  = Some (if j <=? i then Fin (s + 0)%R else NegInf).
Proof.
  intros Hj Hs. rewrite nth_error_map, nth_error_combine, Hs.
  rewrite map_seq_nth_error by exact Hj. simpl.
  now destruct (j <=? i).
Qed.

Lemma MHA_sequence_length (m : MHA) (x : tensor3) (b : nat) :
  length (MHA_sequence m x b) = dim1 x.
Proof. unfold MHA_sequence. now rewrite length_map, length_seq. Qed.

(** The attention layer inside [MHA.forward] reads the sequence of every
    batch row through [attention_weights] under [causal_mask]. *)
Lemma MHA_attention_unfolds (m : MHA) (x : tensor3) (l b : nat) :
  at3 (MultiheadAttention_forward (MHA_attn m)
         (permute_1_0_2 (map3 (LayerNorm_forward (MHA_ln m)) x))
         (causal_mask (dim1 x))) l b
  = nth l (attend (MHA_attn m) (causal_mask (dim1 x)) (MHA_sequence m x b)) [].
Proof. reflexivity. Qed.

(** The row of position [i] in head [h] for batch row [b]: the masked score
    [(i, j)] is [-inf] for every later position [j > i] and the plain score
    elsewhere, so the attention weight of every [j > i] is zero, the weights
    on the positions after [i] sum to zero and those up to [i] sum to one. *)
Lemma masked_attention_row (m : MHA) (x : tensor3) (b h i : nat) :
  i < dim1 x ->
  let T := dim1 x in
  let xs := MHA_sequence m x b in
  let plain := scores (MHA_attn m) h xs in
  let masked := masked_scores plain (causal_mask T) in
  let w := attention_weights (MHA_attn m) (causal_mask T) h xs in
  length xs = T
  /\ (forall j, i < j < T -> nth_error (nth i masked []) j = Some NegInf)
  /\ (forall j, j <= i ->
        exists s, nth_error (nth i plain []) j = Some s
                  /\ nth_error (nth i masked []) j = Some (Fin (s + 0)%R))
  /\ (forall j, i < j < T -> nth_error (nth i w []) j = Some 0%R)
  /\ sum (skipn (S i) (nth i w [])) = 0%R
  /\ sum (firstn (S i) (nth i w [])) = 1%R.
Proof.
  intros Hi T xs plain masked w.
  assert (Hxs : length xs = T) by apply MHA_sequence_length.
  assert (Hrow : length (nth i plain []) = T).
  { unfold plain. rewrite scores_row_length; [exact Hxs|]. rewrite Hxs. exact Hi. }
  assert (Hmasked : forall j, j < T ->
            nth_error (nth i masked []) j
            = Some (if j <=? i then Fin (nth j (nth i plain []) 0%R + 0)%R else NegInf)).
  { intros j Hj. unfold masked. rewrite masked_scores_row.
    - apply masked_entry; [exact Hj|]. apply nth_error_nth'. rewrite Hrow. exact Hj.
    - exact Hi.
    - unfold plain. rewrite scores_length, Hxs. exact Hi. }
  assert (Hw : nth i w [] = softmax (nth i masked [])).
  { unfold w, attention_weights. fold plain. fold masked.
    change (@nil R) with (softmax []). apply map_nth. }
  assert (Hfuture : forall j, i < j < T -> nth_error (nth i w []) j = Some 0%R).
  { intros j Hj. rewrite Hw.
    rewrite (softmax_nth_error _ j NegInf).
    - simpl. f_equal. unfold Rdiv. apply Rmult_0_l.
    - rewrite Hmasked by lia. destruct (Nat.leb_spec j i); [lia|reflexivity]. }
  assert (Hwlen : length (nth i w []) = T).
  { rewrite Hw. unfold softmax. rewrite length_map.
    unfold masked. rewrite masked_scores_row.
    - rewrite length_map, length_combine, Hrow, length_map, length_seq. lia.
    - exact Hi.
    - unfold plain. rewrite scores_length, Hxs. exact Hi. }
  assert (Hzero : sum (skipn (S i) (nth i w [])) = 0%R).
  { apply sum_zero. intros k u Hk. rewrite nth_error_skipn in Hk.
    assert (Hlt : S i + k < T).
    { rewrite <- Hwlen. apply nth_error_Some. rewrite Hk. discriminate. }
    rewrite Hfuture in Hk by lia. now injection Hk as <-. }
  split; [exact Hxs|]. split.
  { intros j Hj. rewrite Hmasked by lia. destruct (Nat.leb_spec j i); [lia|reflexivity]. }
  split.
  { intros j Hj. exists (nth j (nth i plain []) 0%R). split.
    - apply nth_error_nth'. rewrite Hrow. lia.
    - rewrite Hmasked by lia. destruct (Nat.leb_spec j i); [reflexivity|lia]. }
  split; [exact Hfuture|]. split; [exact Hzero|].
  assert (Hone : sum (nth i w []) = 1%R).
  { rewrite Hw. apply (softmax_sums_to_one _ i (nth i (nth i plain []) 0%R + 0)%R).
    rewrite Hmasked by exact Hi. now rewrite Nat.leb_refl. }
  rewrite <- (firstn_skipn (S i) (nth i w [])), sum_app, Hzero in Hone. lra.
Qed.

(** ** The forward pass *)

Section ForwardFacts.
Context {torch : Torch}.

Lemma frame_refl (st : State) : frame st st.
Proof. repeat split. Qed.

Lemma frame_trans (a b c : State) : frame a b -> frame b c -> frame a c.
Proof.
  unfold frame. intros (H1 & H2 & H3 & H4 & H5 & H6) (G1 & G2 & G3 & G4 & G5 & G6).
  repeat split; congruence.
Qed.

Lemma frame_advance (st : State) (k : nat) : frame st (advance st k).
Proof. repeat split. Qed.

Lemma succeeds_ret {A} (a : A) (st : State) (P : A -> State -> Prop) :
  P a st -> succeeds (ret a) st P.
Proof. intros H. exists a, st. split; [reflexivity|exact H]. Qed.

Lemma succeeds_bind {A B} (m : M A) (k : A -> M B) (st : State)
    (P : A -> State -> Prop) (Q : B -> State -> Prop) :
  succeeds m st P ->
  (forall a st', P a st' -> succeeds (k a) st' Q) ->
  succeeds (bind m k) st Q.
Proof.
  intros (a & st' & Hm & HP) Hk.
  destruct (Hk a st' HP) as (b & st'' & Hb & HQ).
  exists b, st''. split; [|exact HQ]. unfold bind. rewrite Hm. exact Hb.
Qed.

Lemma succeeds_bind_run {A B} (m : M A) (k : A -> M B) (st st1 : State) (a : A)
    (Q : B -> State -> Prop) :
  m st = (Ok a, st1) -> succeeds (k a) st1 Q -> succeeds (bind m k) st Q.
Proof.
  intros Hm (b & st2 & Hk & HQ). exists b, st2. split; [|exact HQ].
  unfold bind. now rewrite Hm.
Qed.

Lemma succeeds_weaken {A} (m : M A) (st : State) (P Q : A -> State -> Prop) :
  succeeds m st P -> (forall a st', P a st' -> Q a st') -> succeeds m st Q.
Proof.
  intros (a & st' & Hm & HP) H. exists a, st'. split; [exact Hm|]. now apply H.
Qed.

Lemma succeeds_lift {A} (r : result A) (a : A) (st : State) (P : A -> State -> Prop) :
  r = Ok a -> P a st -> succeeds (lift r) st P.
Proof. intros -> H. exists a, st. split; [reflexivity|exact H]. Qed.

(** Dropout never raises, keeps the shape and touches the generator only;
    in evaluation mode it returns its input and touches nothing. *)
Lemma Dropout_succeeds (width : nat) (x : tensor3) (st : State) :
  succeeds (Dropout width x) st
           (fun y st' => dim0 y = dim0 x /\ dim1 y = dim1 x /\ frame st st').
Proof.
  unfold succeeds, Dropout, bind, get. cbv beta iota.
  destruct (training st) eqn:E.
  - eexists _, _. split; [reflexivity|]. repeat split.
  - exists x, st. split; [reflexivity|]. repeat split.
Qed.

Lemma Dropout_eval (width : nat) (x : tensor3) (st : State) :
  training st = false -> Dropout width x st = (Ok x, st).
Proof. intros E. unfold Dropout, bind, get. now rewrite E. Qed.

(** In training mode dropout consumes one raw draw per component and every
    component of the result is either zero or twice the input. *)
Lemma Dropout_training (width : nat) (x : tensor3) (st : State) :
  training st = true ->
  exists y,
    Dropout width x st = (Ok y, advance st (dim0 x * dim1 x * width))
    /\ forall i j, Forall2 (fun a b => b = 0%R \/ b = (a * 2)%R) (at3 x i j) (at3 y i j).
Proof.
  intros E. unfold Dropout, bind, get, draws, ret. rewrite E.
  eexists. split; [reflexivity|]. intros i j. cbn [at3].
  unfold enumerate.
  match goal with |- context [map ?f _] => set (keep := f) end.
  assert (Hkeep : forall ea, keep ea = 0%R \/ keep ea = (snd ea * 2)%R).
  { intros ea. unfold keep. destruct (Nat.even _); [now right|now left]. }
  clearbody keep. generalize 0 as s.
  induction (at3 x i j) as [|a l IH]; intros s; [constructor|].
  simpl. constructor; [apply (Hkeep (s, a))|apply IH].
Qed.

Lemma MHA_forward_succeeds (m : MHA) (x : tensor3) (st : State) :
  succeeds (MHA_forward m x) st
           (fun y st' => dim0 y = dim0 x /\ dim1 y = dim1 x /\ frame st st').
Proof.
  unfold MHA_forward.
  eapply succeeds_bind; [apply Dropout_succeeds|].
  intros y st' (H0 & H1 & Hf). apply succeeds_ret. simpl in *.
  split; [exact H1|split; [exact H0|exact Hf]].
Qed.

Lemma FeedFoward_forward_succeeds (m : FeedFoward) (x : tensor3) (st : State) :
  succeeds (FeedFoward_forward m x) st
           (fun y st' => dim0 y = dim0 x /\ dim1 y = dim1 x /\ frame st st').
Proof.
  unfold FeedFoward_forward.
  eapply succeeds_bind; [apply Dropout_succeeds|].
  intros y st' (H0 & H1 & Hf). apply succeeds_ret. simpl in *. tauto.
Qed.

Lemma Block_forward_succeeds (m : Block) (x : tensor3) (st : State) :
  succeeds (Block_forward m x) st
           (fun y st' => dim0 y = dim0 x /\ dim1 y = dim1 x /\ frame st st').
Proof.
  unfold Block_forward.
  eapply succeeds_bind; [apply MHA_forward_succeeds|].
  intros a st1 (_ & _ & Hf1).
  eapply succeeds_bind; [apply FeedFoward_forward_succeeds|].
  intros f st2 (_ & _ & Hf2). apply succeeds_ret. simpl.
  split; [reflexivity|split; [reflexivity|apply (frame_trans _ _ _ Hf1 Hf2)]].
Qed.

Lemma Sequential_forward_succeeds (bs : list Block) (x : tensor3) (st : State) :
  succeeds (Sequential_forward bs x) st
           (fun y st' => dim0 y = dim0 x /\ dim1 y = dim1 x /\ frame st st').
Proof.
  revert x st. induction bs as [|b bs IH]; intros x st; simpl.
  - apply succeeds_ret. repeat split.
  - eapply succeeds_bind; [apply Block_forward_succeeds|].
    intros y st1 (H0 & H1 & Hf1).
    eapply succeeds_weaken; [apply IH|].
    intros z st2 (G0 & G1 & Hf2). simpl.
    split; [congruence|split; [congruence|apply (frame_trans _ _ _ Hf1 Hf2)]].
Qed.

End ForwardFacts.

Section EmbeddingFacts.
Context {torch : Torch}.

Lemma all_ok_map_Ok {A B} (f : A -> result B) (g : A -> B) (l : list A) :
  (forall a, In a l -> f a = Ok (g a)) -> all_ok (map f l) = Ok (map g l).
Proof.
  induction l as [|a l IH]; intros H; [reflexivity|].
  simpl. rewrite (H a (or_introl eq_refl)), IH; [reflexivity|].
  intros a' Ha'. apply H. now right.
Qed.

Lemma all_ok_map_Err {A B} (f : A -> result B) (e : exn) (l : list A) :
  (forall a, In a l -> is_ok (f a) = true \/ f a = Err e) ->
  (exists a, In a l /\ f a = Err e) ->
  all_ok (map f l) = Err e.
Proof.
  induction l as [|a l IH]; intros Hall (a' & Hin & Ha'); [destruct Hin|].
  simpl. destruct (f a) as [b|e'] eqn:Efa.
  - destruct Hin as [<-|Hin]; [congruence|].
    rewrite IH; [reflexivity| |now exists a'].
    intros a'' Ha''. apply Hall. now right.
  - destruct (Hall a (or_introl eq_refl)) as [H|H]; rewrite Efa in H;
      [discriminate|now injection H as ->].
Qed.

Lemma Embedding_row_in (num : nat) (w : nat -> vec) (e : exn) (idx : Z) :
  (0 <= idx < Z.of_nat num)%Z -> Embedding_row num w e idx = Ok (w (Z.to_nat idx)).
Proof.
  intros H. unfold Embedding_row.
  destruct (Z.leb_spec 0 idx), (Z.ltb_spec idx (Z.of_nat num)); try lia. reflexivity.
Qed.

Lemma Embedding_row_out (num : nat) (w : nat -> vec) (e : exn) (idx : Z) :
  ~ (0 <= idx < Z.of_nat num)%Z -> Embedding_row num w e idx = Err e.
Proof.
  intros H. unfold Embedding_row.
  destruct (Z.leb_spec 0 idx), (Z.ltb_spec idx (Z.of_nat num)); try lia; reflexivity.
Qed.

Lemma Embedding_forward_in (num : nat) (w : nat -> vec) (e : exn) (idx : list Z) :
  Forall (fun i => (0 <= i < Z.of_nat num)%Z) idx ->
  Embedding_forward num w e idx = Ok (map (fun i => w (Z.to_nat i)) idx).
Proof.
  intros H. unfold Embedding_forward. apply all_ok_map_Ok.
  intros i Hi. apply Embedding_row_in. rewrite Forall_forall in H. now apply H.
Qed.

Lemma Embedding_forward_out (num : nat) (w : nat -> vec) (e : exn) (idx : list Z) (i : Z) :
  In i idx -> ~ (0 <= i < Z.of_nat num)%Z -> Embedding_forward num w e idx = Err e.
Proof.
  intros Hin Hout. unfold Embedding_forward. apply all_ok_map_Err.
  - intros a _. destruct (Z_le_dec 0 a) as [H0|H0].
    + destruct (Z_lt_dec a (Z.of_nat num)) as [H1|H1].
      * left. rewrite Embedding_row_in by lia. reflexivity.
      * right. apply Embedding_row_out. lia.
    + right. apply Embedding_row_out. lia.
  - exists i. split; [exact Hin|]. now apply Embedding_row_out.
Qed.

(** The positional lookup over [0 .. T-1] in a table of [block_size] rows. *)
Lemma positions_in_table (w : nat -> vec) (T : nat) :
  T <= block_size ->
  Embedding_forward block_size w ContextOverflow (arange T) = Ok (map w (seq 0 T)).
Proof.
  intros H. rewrite Embedding_forward_in.
  - unfold arange. rewrite map_map. f_equal. apply map_ext. intros t.
    now rewrite Nat2Z.id.
  - apply Forall_forall. intros i Hi. unfold arange in Hi. apply in_map_iff in Hi.
    destruct Hi as (t & <- & Ht). apply in_seq in Ht. lia.
Qed.

Lemma positions_beyond_table (w : nat -> vec) (T : nat) :
  block_size < T ->
  Embedding_forward block_size w ContextOverflow (arange T) = Err ContextOverflow.
Proof.
  intros H. apply (Embedding_forward_out _ _ _ _ (Z.of_nat block_size)).
  - unfold arange. apply in_map. apply in_seq. lia.
  - lia.
Qed.

Lemma tokens_in_table (w : nat -> vec) (x : list (list Z)) :
  ids_in_vocab x ->
  all_ok (map (Embedding_forward n_vocab w VocabMismatch) x)
  = Ok (map (map (fun i => w (Z.to_nat i))) x).
Proof.
  intros H. apply all_ok_map_Ok. intros row Hrow.
  apply Embedding_forward_in. unfold ids_in_vocab in H. rewrite Forall_forall in H.
  now apply H.
Qed.

(** The token lookup raises nothing but [VocabMismatch]. *)
Lemma tokens_lookup_cases (w : nat -> vec) (x : list (list Z)) :
  is_ok (all_ok (map (Embedding_forward n_vocab w VocabMismatch) x)) = true
  \/ all_ok (map (Embedding_forward n_vocab w VocabMismatch) x) = Err VocabMismatch.
Proof.
  induction x as [|row x IH]; [now left|].
  simpl. destruct (Embedding_forward n_vocab w VocabMismatch row) as [r|e] eqn:E.
  - destruct IH as [IH|IH].
    + left. now destruct (all_ok (map (Embedding_forward n_vocab w VocabMismatch) x)).
    + right. now rewrite IH.
  - right. f_equal. unfold Embedding_forward in E.
    clear IH. induction row as [|i row IHrow]; [discriminate|].
    simpl in E. unfold Embedding_row in E at 1.
    destruct ((0 <=? i)%Z && (i <? Z.of_nat n_vocab)%Z)%bool.
    + destruct (all_ok (map (Embedding_row n_vocab w VocabMismatch) row));
        [discriminate|]. apply IHrow. congruence.
    + congruence.
Qed.

End EmbeddingFacts.

Section TransformerFacts.
Context {torch : Torch}.

Ltac run_forward_head :=
  unfold Transformer_forward;
  cbv beta iota delta [bind get log lift].

Lemma Transformer_forward_beyond_block (x : list (list Z)) (st : State) :
  block_size < shape1 x -> ids_in_vocab x ->
  fst (Transformer_forward x st) = Err ContextOverflow.
Proof.
  intros HT Hids. run_forward_head.
  rewrite tokens_in_table by exact Hids.
  rewrite positions_beyond_table by exact HT. reflexivity.
Qed.

Lemma Transformer_forward_beyond_block_raises (x : list (list Z)) (st : State) :
  block_size < shape1 x ->
  fst (Transformer_forward x st) = Err VocabMismatch
  \/ fst (Transformer_forward x st) = Err ContextOverflow.
Proof.
  intros HT. run_forward_head.
  destruct (tokens_lookup_cases (tok_emb (params st)) x) as [H|H].
  - destruct (all_ok (map (Embedding_forward n_vocab (tok_emb (params st)) VocabMismatch) x));
      [|discriminate].
    rewrite positions_beyond_table by exact HT. now right.
  - rewrite H. now left.
Qed.

(** Within the positional table and the vocabulary the forward pass returns
    logits of shape [(B, T, n_vocab)]; it records itself, may consume random
    draws, and changes nothing else. *)
Lemma Transformer_forward_succeeds (x : list (list Z)) (st : State) :
  shape1 x <= block_size -> ids_in_vocab x ->
  succeeds (Transformer_forward x) st
    (fun out st' =>
       dim0 out = length x /\ dim1 out = shape1 x
       /\ (forall b t, length (at3 out b t) = n_vocab)
       /\ params st' = params st /\ training st' = training st
       /\ grad st' = grad st /\ opt_state st' = opt_state st
       /\ stdout st' = stdout st
       /\ events st' = events st ++ [Forward (training st) x]).
Proof.
  intros HT Hids. unfold succeeds. run_forward_head.
  rewrite tokens_in_table by exact Hids.
  rewrite positions_in_table by exact HT.
  match goal with
  | |- context [Sequential_forward ?bs ?x0 ?s0] =>
      destruct (Sequential_forward_succeeds bs x0 s0) as (y & st' & Hrun & H0 & H1 & Hf)
  end.
  cbv beta iota. rewrite Hrun. eexists _, _. split; [reflexivity|].
  destruct Hf as (F1 & F2 & F3 & F4 & F5 & F6). simpl in *.
  repeat split; try assumption.
  intros b t. unfold Linear_forward. now rewrite length_map, length_seq.
Qed.

Lemma in_vocab_cases (row : list Z) :
  in_vocab row \/ exists i, In i row /\ ~ (0 <= i < Z.of_nat n_vocab)%Z.
Proof.
  induction row as [|i row IH]; [left; constructor|].
  destruct (Z_le_dec 0 i) as [H0|H0]; [destruct (Z_lt_dec i (Z.of_nat n_vocab)) as [H1|H1]|].
  - destruct IH as [IH|(j & Hj & Hout)].
    + left. constructor; [lia|exact IH].
    + right. exists j. split; [now right|exact Hout].
  - right. exists i. split; [now left|lia].
  - right. exists i. split; [now left|lia].
Qed.

Lemma ids_in_vocab_cases (x : list (list Z)) :
  ids_in_vocab x
  \/ exists row i, In row x /\ In i row /\ ~ (0 <= i < Z.of_nat n_vocab)%Z.
Proof.
  induction x as [|row x IH]; [left; constructor|].
  destruct (in_vocab_cases row) as [Hrow|(i & Hi & Hout)].
  - destruct IH as [IH|(r & i & Hr & Hi & Hout)].
    + left. now constructor.
    + right. exists r, i. split; [now right|now split].
  - right. exists row, i. split; [now left|now split].
Qed.

Lemma tokens_out_of_table (w : nat -> vec) (x : list (list Z)) :
  ~ ids_in_vocab x ->
  all_ok (map (Embedding_forward n_vocab w VocabMismatch) x) = Err VocabMismatch.
Proof.
  intros H. destruct (ids_in_vocab_cases x) as [Hx|(row & i & Hrow & Hi & Hout)];
    [contradiction|].
  apply all_ok_map_Err.
  - intros r _. destruct (in_vocab_cases r) as [Hr|(j & Hj & Hjout)].
    + left. now rewrite Embedding_forward_in.
    + right. now apply (Embedding_forward_out _ _ _ _ j).
  - exists row. split; [exact Hrow|]. now apply (Embedding_forward_out _ _ _ _ i).
Qed.

Lemma Transformer_forward_out_of_vocab (x : list (list Z)) (st : State) :
  ~ ids_in_vocab x ->
  Transformer_forward x st = (Err VocabMismatch, recorded st x).
Proof.
  intros H. unfold Transformer_forward. cbv beta iota delta [bind get log lift].
  rewrite tokens_out_of_table by exact H. reflexivity.
Qed.

Lemma Transformer_forward_too_long (x : list (list Z)) (st : State) :
  ids_in_vocab x -> block_size < shape1 x ->
  Transformer_forward x st = (Err ContextOverflow, recorded st x).
Proof.
  intros Hids HT. unfold Transformer_forward. cbv beta iota delta [bind get log lift].
  rewrite tokens_in_table by exact Hids.
  rewrite positions_beyond_table by exact HT. reflexivity.
Qed.

(** C8 (as the code has it).  A window longer than [block_size] makes the
    forward pass raise: the positional lookup is out of range
    ([ContextOverflow]) whenever the token lookup got through, and nothing but
    the token lookup can raise before it.  The token lookup comes first: an id
    outside the vocabulary makes the forward pass raise [VocabMismatch],
    however long the window is.  For a window of at most [block_size]
    positions the positional lookup over [0 .. T-1] succeeds and returns rows
    [0 .. T-1] of the table, and the forward pass on ids of the vocabulary
    returns logits for all [T] positions. *)
Theorem forward_window_limit (x : list (list Z)) (st : State) :
  (block_size < shape1 x ->
     is_ok (fst (Transformer_forward x st)) = false
     /\ (fst (Transformer_forward x st) = Err ContextOverflow
         \/ fst (Transformer_forward x st) = Err VocabMismatch)
     /\ (ids_in_vocab x -> fst (Transformer_forward x st) = Err ContextOverflow)
     /\ Embedding_forward block_size (pos_emb (params st)) ContextOverflow
                          (arange (shape1 x)) = Err ContextOverflow)
  /\ (~ ids_in_vocab x -> fst (Transformer_forward x st) = Err VocabMismatch)
  /\ (shape1 x <= block_size ->
        Embedding_forward block_size (pos_emb (params st)) ContextOverflow
                          (arange (shape1 x))
        = Ok (map (pos_emb (params st)) (seq 0 (shape1 x)))
        /\ (ids_in_vocab x ->
            exists out st', Transformer_forward x st = (Ok out, st')
                            /\ dim0 out = length x /\ dim1 out = shape1 x)).
Proof.
  split.
  - intros HT. split; [|split; [|split]].
    + destruct (Transformer_forward_beyond_block_raises x st HT) as [H|H];
        now rewrite H.
    + destruct (Transformer_forward_beyond_block_raises x st HT) as [H|H]; tauto.
    + intros Hids. now apply Transformer_forward_beyond_block.
    + now apply positions_beyond_table.
  - split; [intros Hout; now rewrite Transformer_forward_out_of_vocab|].
    intros HT. split.
    + now apply positions_in_table.
    + intros Hids.
      destruct (Transformer_forward_succeeds x st HT Hids)
        as (out & st' & Hrun & H0 & H1 & _).
      now exists out, st'.
Qed.

End TransformerFacts.

(** ** Generation *)

Section GenerationFacts.
Context {torch : Torch}.

Lemma In_firstn {A} (k : nat) (l : list A) (a : A) : In a (firstn k l) -> In a l.
Proof.
  intros H. rewrite <- (firstn_skipn k l). apply in_or_app. now left.
Qed.

Lemma In_skipn {A} (k : nat) (l : list A) (a : A) : In a (skipn k l) -> In a l.
Proof.
  intros H. rewrite <- (firstn_skipn k l). apply in_or_app. now right.
Qed.

Lemma In_slice {A} (l : list A) (lo hi : option Z) (a : A) : In a (slice l lo hi) -> In a l.
Proof.
  unfold slice. intros H. apply In_firstn in H. now apply In_skipn in H.
Qed.

Lemma in_vocab_slice (l : list Z) (lo hi : option Z) :
  in_vocab l -> in_vocab (slice l lo hi).
Proof.
  unfold in_vocab. rewrite !Forall_forall. intros H a Ha.
  apply H. now apply (In_slice l lo hi).
Qed.

(** [s[-block_size:]] is the tail of [s] that holds its last
    [min(len(s), block_size)] elements. *)
Lemma context_is_tail {A} (s : list A) :
  slice s (Some (- Z.of_nat block_size)%Z) None
  = skipn (length s - Nat.min (length s) block_size) s
  /\ length (slice s (Some (- Z.of_nat block_size)%Z) None) = Nat.min (length s) block_size.
Proof.
  rewrite slice_from.
  assert (E : Z.to_nat (norm_index (len s) (- Z.of_nat block_size))
              = length s - Nat.min (length s) block_size).
  { unfold norm_index, len. destruct (Z.ltb_spec (- Z.of_nat block_size) 0).
    - lia.
    - unfold block_size in *. lia. }
  rewrite E. split; [reflexivity|]. rewrite length_skipn. lia.
Qed.

Lemma last_position_of (out : tensor3) :
  dim0 out = 1 -> 0 < dim1 out ->
  last_position out = Ok [at3 out 0 (dim1 out - 1)].
Proof.
  intros H0 H1. unfold last_position. rewrite H0.
  destruct (Nat.eqb_spec (dim1 out) 0); [lia|reflexivity].
Qed.

Lemma multinomial_one (p : vec) (st : State) :
  p <> [] ->
  multinomial [p] st
  = (Ok [[Z.of_nat (raw (rng st + 0) mod length p)]], advance st 1).
Proof.
  intros Hp. unfold multinomial, bind, draws, lift, upcoming. simpl.
  unfold multinomial_row. destruct p; [congruence|reflexivity].
Qed.

(** One generation step on a single non-empty row of ids of the vocabulary:
    the model sees the tail of the row, and one id of the vocabulary is
    appended. *)
Lemma generation_step_succeeds (s : list Z) (st : State) :
  s <> [] -> in_vocab s ->
  succeeds (generation_step [s]) st
    (fun r st' =>
       exists k, r = [s ++ [k]] /\ (0 <= k < Z.of_nat n_vocab)%Z
       /\ params st' = params st /\ training st' = training st
       /\ grad st' = grad st /\ opt_state st' = opt_state st
       /\ stdout st' = stdout st
       /\ events st'
          = events st
            ++ [Forward (training st) [slice s (Some (- Z.of_nat block_size)%Z) None]]).
Proof.
  intros Hne Hs. unfold generation_step, context_of. simpl map.
  set (ctx := slice s (Some (- Z.of_nat block_size)%Z) None).
  destruct (context_is_tail s) as [_ Hlen]. fold ctx in Hlen.
  assert (Hpos : 0 < length s) by (destruct s; [congruence|simpl; lia]).
  assert (Hvocab : 0 < n_vocab).
  { destruct s as [|a s]; [congruence|]. inversion Hs; subst. lia. }
  eapply succeeds_bind.
  { apply (Transformer_forward_succeeds [ctx] st).
    - unfold shape1. simpl. rewrite Hlen. lia.
    - constructor; [|constructor]. now apply in_vocab_slice. }
  intros out st1 (H0 & H1 & Hv & F1 & F2 & F3 & F4 & F5 & F6).
  simpl in H0. unfold shape1 in H1. simpl in H1.
  eapply succeeds_bind.
  { eapply succeeds_lift.
    - apply last_position_of; [exact H0|]. rewrite H1, Hlen. unfold block_size. lia.
    - instantiate (1 := fun y st' => y = [at3 out 0 (dim1 out - 1)] /\ st' = st1).
      now split. }
  intros y st2 (-> & ->). simpl map.
  set (p := softmax (map Fin (at3 out 0 (dim1 out - 1)))).
  assert (Hp : length p = n_vocab).
  { unfold p, softmax. now rewrite !length_map, Hv. }
  assert (Hpne : p <> []) by (intros E; rewrite E in Hp; simpl in Hp; lia).
  eapply succeeds_bind.
  { exists [[Z.of_nat (raw (rng st1 + 0) mod length p)]], (advance st1 1).
    split; [now apply multinomial_one|].
    instantiate (1 := fun w st' => w = [[Z.of_nat (raw (rng st1 + 0) mod length p)]]
                                   /\ st' = advance st1 1).
    now split. }
  intros w st3 (-> & ->).
  eapply succeeds_lift; [reflexivity|].
  exists (Z.of_nat (raw (rng st1 + 0) mod length p)). simpl.
  split; [reflexivity|]. split.
  { rewrite Hp. pose proof (Nat.mod_upper_bound (raw (rng st1 + 0)) n_vocab). lia. }
  repeat split; assumption.
Qed.

Lemma in_vocab_snoc (s : list Z) (k : Z) :
  in_vocab s -> (0 <= k < Z.of_nat n_vocab)%Z -> in_vocab (s ++ [k]).
Proof.
  intros Hs Hk. unfold in_vocab. apply Forall_app. split; [exact Hs|].
  constructor; [exact Hk|constructor].
Qed.

Lemma generation_loop_succeeds (steps : nat) (s : list Z) (st : State) :
  s <> [] -> in_vocab s ->
  succeeds (generation_loop steps [s]) st
    (fun r st' =>
       exists out, r = [out] /\ length out = length s + steps
       /\ firstn (length s) out = s /\ in_vocab out
       /\ params st' = params st /\ training st' = training st
       /\ grad st' = grad st /\ opt_state st' = opt_state st
       /\ stdout st' = stdout st
       /\ events st' = events st ++ map (Forward (training st)) (contexts_of s out steps)).
Proof.
  revert s st. induction steps as [|steps IH]; intros s st Hne Hs.
  - simpl. apply succeeds_ret. exists s. simpl.
    rewrite Nat.add_0_r, firstn_all, app_nil_r. repeat split; try reflexivity. exact Hs.
  - simpl. eapply succeeds_bind; [now apply generation_step_succeeds|].
    intros r st1 (k & -> & Hk & F1 & F2 & F3 & F4 & F5 & F6).
    eapply succeeds_weaken.
    { apply IH; [now destruct s|now apply in_vocab_snoc]. }
    intros r st2 (out & -> & Hlen & Hpre & Hout & G1 & G2 & G3 & G4 & G5 & G6).
    rewrite length_app in Hlen, Hpre. simpl in Hlen, Hpre.
    assert (Hs_out : firstn (length s) out = s).
    { transitivity (firstn (length s) (firstn (length s + 1) out)).
      - rewrite firstn_firstn. f_equal. lia.
      - rewrite Hpre, firstn_app, Nat.sub_diag, firstn_all. simpl. apply app_nil_r. }
    exists out. split; [reflexivity|]. split; [lia|]. split; [exact Hs_out|].
    split; [exact Hout|].
    repeat split; try congruence.
    rewrite G6, F6, F2, <- app_assoc. f_equal.
    unfold contexts_of. simpl. rewrite Nat.add_0_r, Hs_out. f_equal.
    rewrite <- seq_shift, !map_map. apply map_ext. intros j.
    rewrite length_app. simpl. do 4 f_equal. lia.
Qed.

Lemma skipn_length_app {A} (a b : list A) : skipn (length a) (a ++ b) = b.
Proof. rewrite skipn_app, Nat.sub_diag, skipn_all. reflexivity. Qed.

Lemma forward_inputs_map (b : bool) (l : list (list (list Z))) :
  forward_inputs (map (Forward b) l) = l.
Proof.
  induction l as [|x l IH]; [reflexivity|]. simpl. f_equal. exact IH.
Qed.

Lemma forward_modes_map (b : bool) (l : list (list (list Z))) :
  forward_modes (map (Forward b) l) = repeat b (length l).
Proof.
  induction l as [|x l IH]; [reflexivity|]. simpl. f_equal. exact IH.
Qed.

End GenerationFacts.

Section GenerationClaims.
Context {torch : Torch}.

(** A run of the generation cell on a non-empty seed of the vocabulary. *)
Lemma generate_run (seed : list Z) (steps : nat) (st : State) :
  seed <> [] -> in_vocab seed ->
  exists out st',
    generate seed steps st = (Ok out, st')
    /\ length out = length seed + steps
    /\ firstn (length seed) out = seed
    /\ params st' = params st
    /\ events st' = events st ++ map (Forward (training st)) (contexts_of seed out steps).
Proof.
  intros Hne Hs. unfold generate.
  destruct (generation_loop_succeeds steps seed st Hne Hs)
    as (r & st' & Hrun & out & -> & Hlen & Hpre & _ & F1 & _ & _ & _ & _ & F6).
  exists out, st'. unfold bind. rewrite Hrun.
  split; [reflexivity|]. split; [exact Hlen|]. split; [exact Hpre|].
  split; [exact F1|exact F6].
Qed.

(** C4 (as the code has it).  For every non-empty seed of ids of the
    vocabulary and every number of steps, generation returns the seed followed
    by one sampled id per step: the result has length [len(seed) + steps] and
    starts with the seed unchanged; the context handed to the model at step
    [k] is the tail of the current sequence (the first [len(seed) + k] ids of
    the result) that holds its last [min(len(seq), block_size)] ids.  The
    parameters are not touched. *)
Theorem generate_extends_seed (seed : list Z) (steps : nat) (st : State) :
  seed <> [] -> in_vocab seed ->
  exists out st',
    generate seed steps st = (Ok out, st')
    /\ length out = length seed + steps
    /\ firstn (length seed) out = seed
    /\ params st' = params st
    /\ events st' = events st ++ map (Forward (training st)) (contexts_of seed out steps)
    /\ forward_inputs (skipn (length (events st)) (events st')) = contexts_of seed out steps
    /\ (forall k, k < steps ->
          let cur := firstn (length seed + k) out in
          let context := skipn (length cur - Nat.min (length cur) block_size) cur in
          length cur = length seed + k
          /\ nth_error (contexts_of seed out steps) k = Some [context]
          /\ length context = Nat.min (length cur) block_size).
Proof.
  intros Hne Hs.
  destruct (generate_run seed steps st Hne Hs) as (out & st' & Hrun & Hlen & Hpre & F1 & F6).
  exists out, st'.
  split; [exact Hrun|]. split; [exact Hlen|]. split; [exact Hpre|].
  split; [exact F1|]. split; [exact F6|].
  split; [now rewrite F6, skipn_length_app, forward_inputs_map|].
  intros k Hk. set (cur := firstn (length seed + k) out).
  set (context := skipn (length cur - Nat.min (length cur) block_size) cur).
  assert (Hcur : length cur = length seed + k).
  { unfold cur. rewrite length_firstn. lia. }
  split; [exact Hcur|].
  destruct (context_is_tail cur) as [Htail Htlen].
  split.
  - unfold contexts_of. rewrite map_seq_nth_error by exact Hk.
    fold cur. now rewrite Htail.
  - unfold context. rewrite <- Htail. exact Htlen.
Qed.

End GenerationClaims.

(** ** The training loop *)

Section TrainerFacts.
Context {torch : Torch}.

Lemma in_vocab_select (data : list Z) (split : string) :
  in_vocab data -> in_vocab (select data split).
Proof.
  intros H. unfold select, train_data, val_data.
  destruct (String.eqb split "train"); now apply in_vocab_slice.
Qed.

Lemma concat_length_rows {A} (y : list (list A)) (c : nat) :
  Forall (fun r => length r = c) y -> length (concat y) = length y * c.
Proof.
  induction 1 as [|r y Hr _ IH]; [reflexivity|].
  simpl. rewrite length_app, IH, Hr. reflexivity.
Qed.

Lemma in_vocab_concat (y : list (list Z)) : ids_in_vocab y -> in_vocab (concat y).
Proof.
  unfold ids_in_vocab, in_vocab. induction 1 as [|r y Hr _ IH]; [constructor|].
  simpl. apply Forall_app. now split.
Qed.

(** A batch from a half longer than a window: sixteen rows of
    [block_size] ids of the corpus each, for inputs and targets alike. *)
Lemma get_batch_succeeds (data : list Z) (split : string) (st : State) :
  block_size < length (select data split) -> in_vocab data ->
  succeeds (get_batch data split) st
    (fun xy st' =>
       length (fst xy) = batch_size /\ shape1 (fst xy) = block_size
       /\ ids_in_vocab (fst xy) /\ ids_in_vocab (snd xy)
       /\ length (concat (snd xy)) = batch_size * block_size
       /\ st' = advance st batch_size
       /\ fst xy = batch_inputs (select data split) st).
Proof.
  intros Hd Hdata. unfold succeeds. rewrite get_batch_run by exact Hd.
  eexists _, _. split; [reflexivity|]. cbn [fst snd].
  set (d := select data split) in *.
  assert (Hvd : in_vocab d) by now apply in_vocab_select.
  assert (Hix : length (offsets d st) = batch_size) by apply offsets_length.
  assert (Hx : forall r, In r (map (fun i => slice d (Some i)
                                   (Some (i + Z.of_nat block_size)%Z)) (offsets d st)) ->
                         length r = block_size).
  { intros r Hr. apply in_map_iff in Hr. destruct Hr as (i & <- & Hi).
    pose proof (offsets_range d st i Hd Hi) as Hr.
    rewrite input_window by exact Hr. apply window_length. unfold len in Hr. lia. }
  assert (Hy : forall r, In r (map (fun i => slice d (Some (i + 1)%Z)
                                   (Some (i + Z.of_nat block_size + 1)%Z)) (offsets d st)) ->
                         length r = block_size).
  { intros r Hr. apply in_map_iff in Hr. destruct Hr as (i & <- & Hi).
    pose proof (offsets_range d st i Hd Hi) as Hr.
    rewrite target_window by exact Hr. apply window_length. unfold len in Hr. lia. }
  split; [now rewrite length_map|]. split.
  { unfold shape1. apply Hx.
    destruct (offsets d st) as [|i ix]; [discriminate Hix|]. now left. }
  split.
  { apply Forall_forall. intros r Hr. apply in_map_iff in Hr.
    destruct Hr as (i & <- & _). now apply in_vocab_slice. }
  split.
  { apply Forall_forall. intros r Hr. apply in_map_iff in Hr.
    destruct Hr as (i & <- & _). now apply in_vocab_slice. }
  split; [|split; reflexivity].
  rewrite (concat_length_rows _ block_size).
  - now rewrite length_map, Hix.
  - apply Forall_forall. exact Hy.
Qed.

Lemma view_rows_ok (out : tensor3) (B T : nat) :
  dim0 out = B -> dim1 out = T ->
  exists rows, view_rows (B * T) out = Ok rows /\ length rows = B * T.
Proof.
  intros H0 H1. unfold view_rows. rewrite H0, H1, Nat.eqb_refl.
  eexists. split; [reflexivity|].
  rewrite (flat_map_constant_length (c := T)).
  - now rewrite length_seq.
  - intros b _. now rewrite length_map, length_seq.
Qed.

Lemma nll_ok (row : vec) (t : Z) :
  (0 <= t < Z.of_nat n_vocab)%Z -> exists u, nll row t = Ok (Some u).
Proof.
  intros H. unfold nll, ignore_index.
  destruct (Z.eqb_spec t (-100)); [lia|].
  destruct (Z.leb_spec 0 t), (Z.ltb_spec t (Z.of_nat n_vocab)); try lia.
  eexists. reflexivity.
Qed.

Lemma all_ok_Forall {A B} (f : A -> result B) (l : list A) :
  (forall a, In a l -> exists b, f a = Ok b) -> exists r, all_ok (map f l) = Ok r.
Proof.
  induction l as [|a l IH]; intros H; [now exists []|].
  destruct (H a (or_introl eq_refl)) as [b Hb].
  destruct IH as [r Hr]; [intros a' Ha'; apply H; now right|].
  exists (b :: r). simpl. now rewrite Hb, Hr.
Qed.

Lemma lossfcn_ok (logits : list vec) (targets : list Z) :
  length logits = length targets -> in_vocab targets ->
  exists l, lossfcn logits targets = Ok l.
Proof.
  intros Hlen Ht. unfold lossfcn. rewrite Hlen, Nat.eqb_refl.
  destruct (all_ok_Forall (fun p : vec * Z => nll (fst p) (snd p)) (combine logits targets))
    as [terms Hterms].
  - intros [row t] Hin. apply in_combine_r in Hin. simpl.
    unfold in_vocab in Ht. rewrite Forall_forall in Ht.
    destruct (nll_ok row t (Ht t Hin)) as [u Hu]. now exists (Some u).
  - rewrite Hterms. now eexists.
Qed.

(** The forward pass and the loss on a well-shaped batch of ids of the
    vocabulary: one recorded forward pass, nothing else changed but the
    generator. *)
Lemma forward_loss_succeeds (x y : list (list Z)) (B T : nat) (st : State) :
  length x = B -> shape1 x = T -> T <= block_size ->
  ids_in_vocab x -> ids_in_vocab y -> length (concat y) = B * T ->
  succeeds (forward_loss x y B T) st
    (fun _ st' =>
       params st' = params st /\ training st' = training st
       /\ grad st' = grad st /\ opt_state st' = opt_state st
       /\ stdout st' = stdout st
       /\ events st' = events st ++ [Forward (training st) x]).
Proof.
  intros HB HT Hle Hx Hy Hcat. unfold forward_loss.
  eapply succeeds_bind.
  { apply Transformer_forward_succeeds; [now rewrite HT|exact Hx]. }
  intros out st1 (H0 & H1 & _ & F).
  destruct (view_rows_ok out B T) as (rows & Hrows & Hlen); [congruence|congruence|].
  eapply succeeds_bind.
  { eapply succeeds_lift; [exact Hrows|].
    instantiate (1 := fun a st' => a = rows /\ st' = st1). now split. }
  intros a st2 (-> & ->).
  eapply succeeds_bind.
  { eapply succeeds_lift.
    - unfold view_flat. rewrite Hcat, Nat.eqb_refl. reflexivity.
    - instantiate (1 := fun t st' => t = concat y /\ st' = st1). now split. }
  intros t st2 (-> & ->).
  destruct (lossfcn_ok rows (concat y)) as [l Hl];
    [congruence|now apply in_vocab_concat|].
  eapply succeeds_lift; [exact Hl|exact F].
Qed.

End TrainerFacts.

Section TrainerRuns.
Context {torch : Torch}.

(** The state after [model.eval()] or [model.train()]. *)
Lemma set_training_run (b : bool) (st : State) :
  set_training b st
  = (Ok tt, mkState (params st) b (grad st) (opt_state st) (rng st) (stdout st) (events st)).
Proof. reflexivity. Qed.

(** The gradient step: a forward pass in the current mode on a training
    batch, then backward, the optimizer step and the reset of the gradients. *)
Lemma update_succeeds (data : list Z) (st : State) :
  in_vocab data -> block_size < length (train_data data) ->
  succeeds (update data) st
    (fun r st' =>
       fst (fst r) = batch_size /\ snd (fst r) = block_size
       /\ training st' = training st /\ stdout st' = stdout st
       /\ events st'
          = events st ++ [Forward (training st) (batch_inputs (train_data data) st);
                          Backward; OptimStep; ZeroGrad]).
Proof.
  intros Hdata Htrain. unfold update.
  eapply succeeds_bind.
  { apply (get_batch_succeeds data "train" st); [exact Htrain|exact Hdata]. }
  intros [x y] st1 (Hx & HT & Hvx & Hvy & Hcat & -> & Hin). cbn [fst snd] in *.
  change (select data "train") with (train_data data) in Hin.
  eapply succeeds_bind_run; [reflexivity|].
  eapply succeeds_bind.
  { apply (forward_loss_succeeds x y (length x) (shape1 x));
      try reflexivity; try assumption.
    - rewrite HT. apply le_n.
    - now rewrite Hx, HT. }
  intros train_loss st2 (F1 & F2 & F3 & F4 & F5 & F6).
  unfold bind, backward, optim_step, optim_zero_grad, ret, succeeds.
  eexists _, _. split; [reflexivity|]. cbn [fst snd training stdout events].
  split; [exact Hx|]. split; [exact HT|]. split; [exact F2|]. split; [exact F5|].
  rewrite F6, Hin, <- !app_assoc. reflexivity.
Qed.

(** The validation branch: one forward pass in evaluation mode on a
    validation batch and one printed line; parameters, gradients and optimizer
    state are those it started with, and the model is back in training mode. *)
Lemma validation_succeeds (data : list Z) (step : nat) (train_loss : R) (st : State) :
  in_vocab data -> block_size < length (val_data data) ->
  succeeds (validation data step batch_size block_size train_loss) st
    (fun _ st' =>
       params st' = params st /\ grad st' = grad st /\ opt_state st' = opt_state st
       /\ training st' = true
       /\ events st' = events st ++ [Forward false (batch_inputs (val_data data) st)]
       /\ exists val_loss, stdout st' = stdout st ++ [(step, train_loss, val_loss)]).
Proof.
  intros Hdata Hval. unfold validation.
  eapply succeeds_bind_run; [apply set_training_run|].
  set (st0 := mkState (params st) false (grad st) (opt_state st) (rng st)
                      (stdout st) (events st)).
  eapply succeeds_bind.
  { apply (get_batch_succeeds data "val" st0); [exact Hval|exact Hdata]. }
  intros [x y] st1 (Hx & HT & Hvx & Hvy & Hcat & -> & Hin). cbn [fst snd] in *.
  change (select data "val") with (val_data data) in Hin.
  change (batch_inputs (val_data data) st0) with (batch_inputs (val_data data) st) in Hin.
  eapply succeeds_bind.
  { apply (forward_loss_succeeds x y batch_size block_size);
      try assumption. apply le_n. }
  intros val_loss st2 (F1 & F2 & F3 & F4 & F5 & F6).
  unfold bind, print, set_training, succeeds.
  eexists _, _. split; [reflexivity|].
  cbn [params grad opt_state training events stdout].
  split; [exact F1|]. split; [exact F3|]. split; [exact F4|]. split; [reflexivity|].
  split; [now rewrite F6, Hin|]. exists val_loss. now rewrite F5.
Qed.

Lemma training_step_succeeds (data : list Z) (step : nat) (st : State) :
  in_vocab data -> block_size < length (train_data data) ->
  block_size < length (val_data data) -> training st = true ->
  succeeds (training_step data step) st (fun _ st' => training st' = true).
Proof.
  intros Hdata Htrain Hval Hmode. unfold training_step.
  eapply succeeds_bind; [now apply update_succeeds|].
  intros [[B T] l] st1 (HB & HT & F & _). cbn [fst snd] in *. subst B T.
  destruct (Nat.eqb ((step + 1) mod 200) 0).
  - eapply succeeds_weaken; [now apply validation_succeeds|].
    intros u st2 (_ & _ & _ & G & _). exact G.
  - apply succeeds_ret. congruence.
Qed.

Lemma for_each_succeeds {A} (body : A -> M unit) (Inv : State -> Prop) (l : list A)
    (st : State) :
  (forall a s, Inv s -> succeeds (body a) s (fun _ s' => Inv s')) ->
  Inv st -> succeeds (for_each l body) st (fun _ s' => Inv s').
Proof.
  intros Hbody. revert st. induction l as [|a l IH]; intros st Hst; simpl.
  - now apply succeeds_ret.
  - eapply succeeds_bind; [now apply Hbody|]. intros u s Hs. now apply IH.
Qed.

(** After any number of training steps the model is in training mode. *)
Lemma training_loop_succeeds (data : list Z) (steps : nat) (st : State) :
  in_vocab data -> block_size < length (train_data data) ->
  block_size < length (val_data data) -> training st = true ->
  succeeds (training_loop data steps) st (fun _ st' => training st' = true).
Proof.
  intros Hdata Htrain Hval Hmode. unfold training_loop.
  apply (for_each_succeeds _ (fun s => training s = true)); [|exact Hmode].
  intros step s Hs. now apply training_step_succeeds.
Qed.

End TrainerRuns.

Section TrainerClaims.
Context {torch : Torch}.


(** C5 (what the code does).  Dropout is the identity in evaluation mode and
    zeroes or doubles every component in training mode.  When the cells are
    run in order, the training loop leaves the model in training mode, the
    generation cell does not switch it, and so the model is in training mode,
    with dropout at work, in each of the 200 forward passes of the generation
    loop. *)
Theorem generation_runs_in_training_mode
    (data seed : list Z) (model : Transformer) (o : OptState) :
  in_vocab data ->
  block_size < length (train_data data) ->
  block_size < length (val_data data) ->
  seed <> [] -> in_vocab seed ->
  (forall width x st, training st = false -> Dropout width x st = (Ok x, st))
  /\ (forall width x st, training st = true ->
        exists y,
          Dropout width x st = (Ok y, advance st (dim0 x * dim1 x * width))
          /\ forall i j,
               Forall2 (fun a b => b = 0%R \/ b = (a * 2)%R) (at3 x i j) (at3 y i j))
  /\ exists trained out st',
       training_loop data 1000 (initial_state model o) = (Ok tt, trained)
       /\ training trained = true
       /\ notebook data seed (initial_state model o) = (Ok out, st')
       /\ events st' = events trained ++ map (Forward true) (contexts_of seed out 200)
       /\ forward_modes (skipn (length (events trained)) (events st')) = repeat true 200.
Proof.
  intros Hdata Htrain Hval Hne Hseed.
  split; [exact Dropout_eval|]. split; [exact Dropout_training|].
  destruct (training_loop_succeeds data 1000 (initial_state model o) Hdata Htrain Hval
              eq_refl) as ([] & trained & Hloop & Hmode).
  destruct (generate_run seed 200 trained Hne Hseed)
    as (out & st' & Hgen & _ & _ & _ & Hev).
  rewrite Hmode in Hev.
  exists trained, out, st'. split; [exact Hloop|]. split; [exact Hmode|]. split.
  { unfold notebook, bind. rewrite Hloop. exact Hgen. }
  split; [exact Hev|].
  rewrite Hev, skipn_length_app, forward_modes_map.
  unfold contexts_of. now rewrite length_map, length_seq.
Qed.

End TrainerClaims.

(** ** The theorems on concrete inputs *)

(** The ids of the two sample inputs are tokens of the GPT-2 vocabulary. *)
Lemma toy_corpus_in_vocab : in_vocab (torch := toy) toy_corpus.
Proof.
  apply Forall_forall. intros i Hi. unfold toy_corpus in Hi.
  apply in_map_iff in Hi. destruct Hi as (k & <- & Hk). apply in_seq in Hk.
  change (n_vocab (Torch := toy)) with (Z.to_nat 50257). lia.
Qed.

Lemma toy_seed_in_vocab : in_vocab (torch := toy) toy_seed.
Proof.
  unfold toy_seed. change (n_vocab (Torch := toy)) with (Z.to_nat 50257).
  repeat constructor; lia.
Qed.

(** A training batch from the corpus of 400 ids. *)
Lemma get_batch_rows_are_shifted_windows_witness :
  exists x y,
    get_batch (torch := toy) toy_corpus "train" toy_state
    = (Ok (x, y), advance toy_state batch_size)
    /\ length x = batch_size /\ length y = batch_size.
Proof.
  destruct (get_batch_rows_are_shifted_windows (torch := toy) toy_corpus "train" toy_state)
    as (x & y & Hrun & _ & Hx & Hy & _).
  - vm_compute. lia.
  - exists x, y. split; [exact Hrun|]. split; [exact Hx|exact Hy].
Defined.

(** A validation half of exactly [block_size] ids yields no batch. *)
Lemma get_batch_fails_on_short_split_witness :
  length (val_data short_corpus) = block_size
  /\ get_batch (torch := toy) short_corpus "val" toy_state
     = (Err InsufficientData, toy_state).
Proof.
  split; [reflexivity|].
  apply (get_batch_fails_on_short_split (torch := toy) short_corpus "val" toy_state).
  vm_compute. lia.
Defined.

(** The misspelt split name ['Train'] reads the validation half. *)
Lemma get_batch_other_names_read_val_witness :
  get_batch (torch := toy) toy_corpus "Train" toy_state
  = get_batch (torch := toy) toy_corpus "val" toy_state.
Proof.
  destruct (get_batch_other_names_read_val (torch := toy) toy_corpus "Train" toy_state)
    as (_ & _ & H & _).
  - discriminate.
  - exact H.
Defined.

(** The split of a corpus of ten ids returns halves of nine ids and of one
    id, both shorter than [block_size + 1], and raises nothing. *)
Lemma split_of_tiny_corpus_succeeds :
  split_data tiny_corpus = Ok ([11; 12; 13; 14; 15; 16; 17; 18; 19]%Z, [20]%Z)
  /\ length (train_data tiny_corpus) < block_size + 1
  /\ length (val_data tiny_corpus) < block_size + 1.
Proof.
  split; [reflexivity|]. split; vm_compute; lia.
Qed.

(** The corpus of ten ids is split without an error; the batch request on
    its validation half is what raises. *)
Lemma split_never_fails_short_half_fails_later_witness :
  split_data tiny_corpus = Ok (train_data tiny_corpus, val_data tiny_corpus)
  /\ get_batch (torch := toy) tiny_corpus "val" toy_state
     = (Err InsufficientData, toy_state).
Proof.
  destruct (split_never_fails_short_half_fails_later (torch := toy) tiny_corpus)
    as (H1 & H2).
  split; [exact H1|]. apply H2. vm_compute. lia.
Defined.

(** A window of 33 ids overflows the positional table of 32 rows. *)
Lemma forward_window_limit_witness :
  fst (Transformer_forward (torch := toy) [repeat 0%Z 33] toy_state) = Err ContextOverflow.
Proof.
  destruct (forward_window_limit (torch := toy) [repeat 0%Z 33] toy_state) as (H & _).
  destruct H as (_ & _ & H & _).
  - unfold shape1, block_size. simpl. lia.
  - apply H. constructor; [|constructor].
    change (n_vocab (Torch := toy)) with (Z.to_nat 50257).
    simpl. repeat constructor; lia.
Defined.

(** A window of 33 ids that starts with an id outside the vocabulary: the
    token lookup raises, and the positional lookup is never reached. *)
Lemma forward_long_window_with_bad_id :
  shape1 [(50257 :: repeat 0 32)%Z] = 33
  /\ block_size < shape1 [(50257 :: repeat 0 32)%Z]
  /\ fst (Transformer_forward (torch := toy) [(50257 :: repeat 0 32)%Z] toy_state)
     = Err VocabMismatch.
Proof.
  split; [reflexivity|]. split; [unfold shape1, block_size; simpl; lia|].
  rewrite Transformer_forward_out_of_vocab; [reflexivity|].
  intros H. inversion H as [|? ? Hrow _]. inversion Hrow as [|? ? Hid _].
  change (n_vocab (Torch := toy)) with (Z.to_nat 50257) in Hid. lia.
Qed.

(** Two generation steps from the prompt of three ids return five ids that
    start with the prompt. *)
Lemma generate_extends_seed_witness :
  exists out st',
    generate (torch := toy) toy_seed 2 toy_state = (Ok out, st')
    /\ length out = 3 + 2
    /\ firstn 3 out = toy_seed.
Proof.
  destruct (generate_extends_seed (torch := toy) toy_seed 2 toy_state)
    as (out & st' & H1 & H2 & H3 & _).
  - discriminate.
  - exact toy_seed_in_vocab.
  - exists out, st'. split; [exact H1|]. split; [exact H2|exact H3].
Defined.

(** On an empty seed the first generation step raises: the model returns no
    position to read the next id from. *)
Lemma generate_empty_seed_raises :
  fst (generate (torch := toy) [] 1 toy_state) = Err IndexError.
Proof. reflexivity. Qed.


(** The notebook on the corpus of 400 ids and the prompt of three ids: all
    200 forward passes of generation are in training mode. *)
Lemma generation_runs_in_training_mode_witness :
  exists (trained : @State toy) out st',
    notebook (torch := toy) toy_corpus toy_seed toy_state = (Ok out, st')
    /\ training trained = true
    /\ forward_modes (skipn (length (events trained)) (events st')) = repeat true 200.
Proof.
  destruct (generation_runs_in_training_mode (torch := toy) toy_corpus toy_seed
              zero_model tt)
    as (_ & _ & trained & out & st' & _ & Hm & Hrun & _ & Hmodes).
  - exact toy_corpus_in_vocab.
  - vm_compute. lia.
  - vm_compute. lia.
  - discriminate.
  - exact toy_seed_in_vocab.
  - exists trained, out, st'. split; [exact Hrun|]. split; [exact Hm|exact Hmodes].
Defined.

(** * Further properties of the notebook *)

(** ** Cleaning the text *)

Section SubstitutionFacts.

Variable m : text -> option nat.
Variable repl : text.

Lemma re_sub_from_skip (k : nat) (t : text) :
  re_sub_from m repl k t = re_sub_from m repl 0 (skipn k t).
Proof.
  revert k. induction t as [|c r IH]; intros k.
  - now destruct k.
  - destruct k as [|k]; [reflexivity|]. simpl skipn. simpl re_sub_from at 1. apply IH.
Qed.

Lemma re_sub_cons (c : N) (r : text) :
  re_sub m repl (c :: r)
  = match m (c :: r) with
    | Some (S k) => repl ++ re_sub m repl (skipn k r)
    | _ => c :: re_sub m repl r
    end.
Proof.
  unfold re_sub. simpl. destruct (m (c :: r)) as [[|k]|]; try reflexivity.
  now rewrite re_sub_from_skip.
Qed.

(** Every character of the result is one of the text or of the
    replacement. *)
Lemma re_sub_Forall (P : N -> Prop) (t : text) :
  Forall P repl -> Forall P t -> Forall P (re_sub m repl t).
Proof.
  intros Hr. remember (length t) as n eqn:Hn. revert t Hn.
  induction n as [n IH] using lt_wf_ind. intros t Hn Ht.
  destruct t as [|c r]; [constructor|].
  rewrite re_sub_cons. inversion Ht as [|? ? Hc Hrest]; subst.
  destruct (m (c :: r)) as [[|k]|].
  - constructor; [exact Hc|]. apply (IH (length r)); simpl; auto.
  - apply Forall_app. split; [exact Hr|].
    apply (IH (length (skipn k r))); [rewrite length_skipn; simpl; lia|reflexivity|].
    apply Forall_forall. intros a Ha. rewrite Forall_forall in Hrest.
    apply Hrest. rewrite <- (firstn_skipn k r). apply in_or_app. now right.
  - constructor; [exact Hc|]. apply (IH (length r)); simpl; auto.
Qed.

(** A text in which the pattern matches nowhere is returned as it is. *)
Lemma re_sub_no_match (t : text) :
  (forall k, m (skipn k t) = None) -> re_sub m repl t = t.
Proof.
  induction t as [|c r IH]; intros H; [reflexivity|].
  rewrite re_sub_cons. pose proof (H 0) as H0. simpl in H0. rewrite H0.
  f_equal. apply IH. intros k. apply (H (S k)).
Qed.

End SubstitutionFacts.

(** A part of the result that holds no space was in the text, at the same
    place from the start. *)
Lemma re_sub_prefix_kept (m : text -> option nat) (t w rest : text) :
  re_sub m [32%N] t = w ++ rest -> ~ In 32%N w -> exists rest', t = w ++ rest'.
Proof.
  revert w rest. induction t as [|c r IH]; intros w rest H Hw.
  - destruct w; [now exists []|discriminate].
  - destruct w as [|a w]; [exists (c :: r); reflexivity|].
    rewrite re_sub_cons in H.
    destruct (m (c :: r)) as [[|k]|]; simpl in H; injection H as E H.
    + destruct (IH w rest H) as [rest' ->]; [intros G; apply Hw; now right|].
      subst a. now exists rest'.
    + exfalso. apply Hw. left. now symmetry.
    + destruct (IH w rest H) as [rest' ->]; [intros G; apply Hw; now right|].
      subst a. now exists rest'.
Qed.

(** Replacing every match by one character never makes a text longer. *)
Lemma re_sub_one_length (m : text -> option nat) (c0 : N) (t : text) :
  length (re_sub m [c0] t) <= length t.
Proof.
  remember (length t) as n eqn:Hn. revert t Hn.
  induction n as [n IH] using lt_wf_ind. intros t Hn.
  destruct t as [|c r]; [subst; apply le_n|]. rewrite re_sub_cons. simpl in Hn.
  destruct (m (c :: r)) as [[|k]|]; simpl.
  - pose proof (IH (length r) ltac:(lia) r eq_refl). lia.
  - pose proof (IH (length (skipn k r)) ltac:(rewrite length_skipn; lia) (skipn k r) eq_refl)
      as H.
    rewrite length_skipn in H. lia.
  - pose proof (IH (length r) ltac:(lia) r eq_refl). lia.
Qed.

Section NonAsciiFacts.

Lemma leading_zero_head (most : nat) (p : N -> bool) (c : N) (r : text) :
  leading (S most) p (c :: r) = 0 -> p c = false.
Proof. simpl. now destruct (p c). Qed.

Lemma match_non_ascii_None (c : N) (r : text) :
  match_non_ascii (c :: r) = None -> is_ascii c = true.
Proof.
  unfold match_non_ascii. simpl length.
  destruct (leading (S (length r)) (fun c => negb (is_ascii c)) (c :: r)) eqn:E;
    [|discriminate].
  intros _. apply leading_zero_head in E. now destruct (is_ascii c).
Qed.

Lemma match_non_ascii_positive (t : text) (k : nat) :
  match_non_ascii t = Some k -> 0 < k.
Proof.
  unfold match_non_ascii.
  destruct (leading (length t) (fun c => negb (is_ascii c)) t); [discriminate|].
  intros H. injection H as <-. lia.
Qed.

Lemma sub_non_ascii_is_ascii (skip : nat) (t : text) :
  forallb is_ascii (re_sub_from match_non_ascii [32%N] skip t) = true.
Proof.
  revert skip. induction t as [|c r IH]; intros skip; [reflexivity|].
  simpl. destruct skip as [|k]; [|apply IH].
  destruct (match_non_ascii (c :: r)) as [[|k]|] eqn:E.
  - apply match_non_ascii_positive in E. lia.
  - simpl. apply IH.
  - simpl. rewrite (match_non_ascii_None c r E). apply IH.
Qed.

Lemma sub_non_ascii_length (skip : nat) (t : text) :
  length (re_sub_from match_non_ascii [32%N] skip t) <= length t.
Proof.
  revert skip. induction t as [|c r IH]; intros skip; [apply le_n|].
  simpl. destruct skip as [|k]; [|specialize (IH k); lia].
  destruct (match_non_ascii (c :: r)) as [[|k]|]; simpl.
  - specialize (IH 0). lia.
  - specialize (IH k). lia.
  - specialize (IH 0). lia.
Qed.

Lemma leading_none (most : nat) (p : N -> bool) (t : text) :
  forallb (fun c => negb (p c)) t = true -> leading most p t = 0.
Proof.
  intros H. destruct most, t as [|c r]; try reflexivity.
  simpl in *. apply andb_prop in H. destruct H as [H _]. now destruct (p c).
Qed.

Lemma forallb_skipn {A} (p : A -> bool) (k : nat) (l : list A) :
  forallb p l = true -> forallb p (skipn k l) = true.
Proof.
  intros H. rewrite forallb_forall in *. intros a Ha. apply H.
  rewrite <- (firstn_skipn k l). apply in_or_app. now right.
Qed.

End NonAsciiFacts.

Section DateFacts.

Variable unicode_digit : N -> bool.

Local Abbreviation digit := (is_digit unicode_digit).
Local Abbreviation date_at := (match_date unicode_digit).

Lemma space_is_no_digit : digit 32%N = false.
Proof. reflexivity. Qed.

Lemma slash_is_no_digit : digit 47%N = false.
Proof. reflexivity. Qed.

Lemma first_some_Some {A B} (f : A -> option B) (l : list A) (b : B) :
  first_some f l = Some b -> exists a, In a l /\ f a = Some b.
Proof.
  induction l as [|a l IH]; [discriminate|]. simpl.
  destruct (f a) as [b'|] eqn:E.
  - intros H. injection H as <-. exists a. split; [now left|exact E].
  - intros H. destruct (IH H) as (a' & Hin & Ha'). exists a'. split; [now right|exact Ha'].
Qed.

Lemma first_some_found {A B} (f : A -> option B) (l : list A) (a : A) (b : B) :
  In a l -> f a = Some b -> exists b', first_some f l = Some b'.
Proof.
  induction l as [|a' l IH]; [intros []|]. intros [->|Hin] Ha; simpl.
  - rewrite Ha. now exists b.
  - destruct (f a') as [b'|]; [now exists b'|]. now apply IH.
Qed.

Lemma In_counts (lo g n : nat) : In n (counts lo g) <-> lo <= n <= g.
Proof.
  unfold counts. rewrite <- in_rev, in_seq. lia.
Qed.

Lemma leading_le (most : nat) (p : N -> bool) (t : text) : leading most p t <= most.
Proof.
  revert t. induction most as [|k IH]; intros t; [apply le_n|].
  destruct t as [|c r]; simpl; [lia|]. destruct (p c); [|lia].
  specialize (IH r). lia.
Qed.

(** The characters that a greedy count covers satisfy the class. *)
Lemma leading_covers (most : nat) (p : N -> bool) (t : text) (n : nat) :
  n <= leading most p t -> n <= length t /\ forallb p (firstn n t) = true.
Proof.
  revert t n. induction most as [|k IH]; intros t n H.
  - simpl in H. assert (n = 0) by lia. subst. split; [apply Nat.le_0_l|reflexivity].
  - destruct t as [|c r]; simpl in H.
    + assert (n = 0) by lia. subst. now split.
    + destruct (p c) eqn:E.
      * destruct n as [|n]; [split; [lia|reflexivity]|].
        destruct (IH r n) as [H1 H2]; [lia|]. simpl. rewrite E, H2. split; [lia|reflexivity].
      * assert (n = 0) by lia. subst. split; [lia|reflexivity].
Qed.

(** A greedy count takes every character of a run that fits. *)
Lemma leading_takes (most : nat) (p : N -> bool) (a rest : text) :
  forallb p a = true -> length a <= most -> length a <= leading most p (a ++ rest).
Proof.
  revert most. induction a as [|c a IH]; intros most Ha Hlen; [apply Nat.le_0_l|].
  simpl in Ha. apply andb_prop in Ha. destruct Ha as [Hc Ha].
  destruct most as [|k]; [simpl in Hlen; lia|].
  simpl. rewrite Hc. specialize (IH k Ha). simpl in Hlen. lia.
Qed.

(** A run that ends before a character outside the class is taken whole
    and no further. *)
Lemma leading_stops (most : nat) (p : N -> bool) (a : text) (c : N) (rest : text) :
  forallb p a = true -> length a <= most -> p c = false ->
  leading most p (a ++ c :: rest) = length a.
Proof.
  revert most. induction a as [|c' a IH]; intros most Ha Hlen Hc.
  - simpl. destruct most; [reflexivity|]. simpl. now rewrite Hc.
  - simpl in Ha. apply andb_prop in Ha. destruct Ha as [Hc' Ha].
    destruct most as [|k]; [simpl in Hlen; lia|].
    simpl. rewrite Hc'. f_equal. apply IH; [exact Ha|simpl in Hlen; lia|exact Hc].
Qed.

Lemma match_digits_Some (lo hi : nat) (k : text -> option nat) (t : text) (len : nat) :
  match_digits unicode_digit lo hi k t = Some len ->
  exists n len', lo <= n <= hi /\ n <= length t
                 /\ forallb digit (firstn n t) = true
                 /\ k (skipn n t) = Some len' /\ len = n + len'.
Proof.
  unfold match_digits. intros H. apply first_some_Some in H.
  destruct H as (n & Hin & Hn). apply In_counts in Hin.
  destruct (k (skipn n t)) as [len'|] eqn:E; [|discriminate].
  simpl in Hn. injection Hn as <-.
  destruct (leading_covers hi digit t n) as [H1 H2]; [lia|].
  pose proof (leading_le hi digit t).
  exists n, len'. repeat split; try assumption; lia.
Qed.

Lemma match_slash_Some (k : text -> option nat) (t : text) (len : nat) :
  match_slash k t = Some len ->
  exists r len', t = 47%N :: r /\ k r = Some len' /\ len = S len'.
Proof.
  unfold match_slash. destruct t as [|c r]; [discriminate|].
  destruct (N.eqb_spec c 47); [|discriminate]. subst c.
  destruct (k r) as [len'|] eqn:E; [|discriminate]. simpl. intros H. injection H as <-.
  now exists r, len'.
Qed.

(** What the matcher accepts at the start of a text is a date. *)
Lemma match_date_sound (t : text) (len : nat) :
  date_at t = Some len ->
  len <= length t /\ is_date unicode_digit (firstn len t).
Proof.
  unfold match_date. intros H.
  apply match_digits_Some in H. destruct H as (n1 & l1 & Hn1 & Hl1 & Hd1 & H & ->).
  apply match_slash_Some in H. destruct H as (r1 & l2 & Hr1 & H & ->).
  apply match_digits_Some in H. destruct H as (n2 & l3 & Hn2 & Hl2 & Hd2 & H & ->).
  apply match_slash_Some in H. destruct H as (r2 & l4 & Hr2 & H & ->).
  apply match_digits_Some in H. destruct H as (n3 & l5 & Hn3 & Hl3 & Hd3 & H & ->).
  injection H as <-.
  assert (Et : t = firstn n1 t ++ 47%N :: firstn n2 r1 ++ 47%N :: firstn n3 r2 ++ skipn n3 r2).
  { rewrite <- (firstn_skipn n1 t) at 1. rewrite Hr1. f_equal. f_equal.
    rewrite <- (firstn_skipn n2 r1) at 1. rewrite Hr2. f_equal. f_equal.
    symmetry. apply firstn_skipn. }
  set (a := firstn n1 t) in *. set (b := firstn n2 r1) in *. set (c := firstn n3 r2) in *.
  assert (La : length a = n1) by (unfold a; rewrite length_firstn; lia).
  assert (Lb : length b = n2) by (unfold b; rewrite length_firstn; lia).
  assert (Lc : length c = n3) by (unfold c; rewrite length_firstn; lia).
  assert (Ed : firstn (n1 + S (n2 + S (n3 + 0))) t = a ++ 47%N :: b ++ 47%N :: c).
  { rewrite Et.
    replace (a ++ 47%N :: b ++ 47%N :: c ++ skipn n3 r2)
      with ((a ++ 47%N :: b ++ 47%N :: c) ++ skipn n3 r2)
      by (rewrite <- !app_assoc; simpl; rewrite <- !app_assoc; reflexivity).
    rewrite firstn_app.
    replace (n1 + S (n2 + S (n3 + 0)) - length (a ++ 47%N :: b ++ 47%N :: c)) with 0
      by (rewrite !length_app; simpl; rewrite !length_app; simpl; lia).
    rewrite firstn_all2
      by (rewrite !length_app; simpl; rewrite !length_app; simpl; lia).
    simpl. apply app_nil_r. }
  split.
  - rewrite Et at 1. rewrite !length_app. simpl. rewrite !length_app. simpl.
    rewrite length_app. lia.
  - rewrite Ed. exists a, b, c. repeat split; try assumption; lia.
Qed.

(** At the start of a date the matcher finds a match. *)
Lemma match_date_complete (d rest : text) :
  is_date unicode_digit d -> exists k, date_at (d ++ rest) = Some (S k).
Proof.
  intros (a & b & c & -> & Ha & La & Hb & Lb & Hc & Lc).
  assert (G : exists len, date_at ((a ++ [47%N] ++ b ++ [47%N] ++ c) ++ rest) = Some len).
  { unfold match_date. rewrite <- !app_assoc. simpl.
    unfold match_digits at 1.
    rewrite (leading_stops 2 digit a 47%N) by (try assumption; try reflexivity; lia).
    assert (Y : exists y, match_digits unicode_digit 2 4 (fun _ => Some 0) (c ++ rest) = Some y).
    { unfold match_digits.
      pose proof (leading_takes 4 digit c rest Hc (proj2 Lc)) as Hg.
      apply (first_some_found _ _ (leading 4 digit (c ++ rest)) (leading 4 digit (c ++ rest) + 0)).
      - apply In_counts. lia.
      - reflexivity. }
    destruct Y as [y Hy].
    assert (B : exists z, match_digits unicode_digit 1 2
                            (match_slash (match_digits unicode_digit 2 4 (fun _ => Some 0)))
                            (b ++ 47%N :: c ++ rest) = Some z).
    { unfold match_digits at 1.
      rewrite (leading_stops 2 digit b 47%N) by (try assumption; try reflexivity; lia).
      apply (first_some_found _ _ (length b) (length b + S y)).
      - apply In_counts. lia.
      - rewrite skipn_app, Nat.sub_diag, skipn_all. simpl. now rewrite Hy. }
    destruct B as [z Hz].
    apply (first_some_found _ _ (length a) (length a + S z)).
    - apply In_counts. lia.
    - rewrite skipn_app, Nat.sub_diag, skipn_all. simpl. now rewrite Hz. }
  destruct G as [len Hlen].
  destruct (match_date_sound _ _ Hlen) as [_ (a' & b' & c' & E & _ & La' & _)].
  destruct len as [|k]; [|now exists k].
  exfalso. simpl in E. destruct a'; simpl in *; [lia|discriminate].
Qed.

End DateFacts.

Section NonAsciiRuns.

Local Abbreviation non_ascii := (fun c : N => negb (is_ascii c)).

Lemma leading_whole (most : nat) (p : N -> bool) (a : text) :
  forallb p a = true -> length a <= most -> leading most p a = length a.
Proof.
  intros Ha Hlen. apply Nat.le_antisymm.
  - destruct (leading_covers most p a (leading most p a) (le_n _)) as [H _]. exact H.
  - rewrite <- (app_nil_r a) at 2. now apply leading_takes.
Qed.

(** An ASCII character is kept where it is. *)
Lemma sub_non_ascii_keeps (c : N) (rest : text) :
  is_ascii c = true ->
  re_sub match_non_ascii [32%N] (c :: rest) = c :: re_sub match_non_ascii [32%N] rest.
Proof.
  intros Hc. rewrite re_sub_cons. unfold match_non_ascii. simpl. now rewrite Hc.
Qed.

(** A run of non-ASCII characters that ends with the text or before an ASCII
    character is replaced, as a whole, by one space. *)
Lemma sub_non_ascii_run (run rest : text) :
  run <> [] -> forallb non_ascii run = true ->
  forallb is_ascii (firstn 1 rest) = true ->
  re_sub match_non_ascii [32%N] (run ++ rest) = 32%N :: re_sub match_non_ascii [32%N] rest.
Proof.
  intros Hne Hrun Hrest. destruct run as [|c r]; [congruence|].
  assert (Hlead : leading (length ((c :: r) ++ rest)) non_ascii ((c :: r) ++ rest)
                  = length (c :: r)).
  { destruct rest as [|c' rest'].
    - rewrite app_nil_r. now apply leading_whole.
    - simpl in Hrest. rewrite andb_true_r in Hrest.
      apply leading_stops; [exact Hrun|rewrite length_app; lia|now rewrite Hrest]. }
  change ((c :: r) ++ rest) with (c :: (r ++ rest)) in *.
  rewrite re_sub_cons. unfold match_non_ascii at 1. rewrite Hlead.
  cbn [length app]. rewrite skipn_app, skipn_all, Nat.sub_diag. reflexivity.
Qed.

(** X1.  Replacing the runs of non-ASCII characters by one space each: every
    ASCII character is kept where it is, and every run of non-ASCII characters
    that ends with the text or before an ASCII character becomes exactly one
    space.  So the result holds ASCII characters only and is never longer
    than the original, and a text that is all ASCII comes back unchanged. *)
Theorem sub_non_ascii_gives_ascii (t : text) :
  forallb is_ascii (re_sub match_non_ascii [32%N] t) = true
  /\ length (re_sub match_non_ascii [32%N] t) <= length t
  /\ (forallb is_ascii t = true -> re_sub match_non_ascii [32%N] t = t)
  /\ (forall c rest, t = c :: rest -> is_ascii c = true ->
      re_sub match_non_ascii [32%N] t = c :: re_sub match_non_ascii [32%N] rest)
  /\ (forall run rest,
        t = run ++ rest -> run <> [] -> forallb non_ascii run = true ->
        forallb is_ascii (firstn 1 rest) = true ->
        re_sub match_non_ascii [32%N] t = 32%N :: re_sub match_non_ascii [32%N] rest).
Proof.
  split; [apply sub_non_ascii_is_ascii|]. split; [apply sub_non_ascii_length|].
  split.
  { intros H. apply re_sub_no_match. intros k. unfold match_non_ascii.
    rewrite leading_none; [reflexivity|].
    apply forallb_skipn. rewrite forallb_forall in *. intros c Hc.
    now rewrite negb_involutive, (H c Hc). }
  split.
  - intros c rest -> Hc. now apply sub_non_ascii_keeps.
  - intros run rest -> Hne Hrun Hrest. now apply sub_non_ascii_run.
Qed.

End NonAsciiRuns.

Section DateClaims.

Variable unicode_digit : N -> bool.

Local Abbreviation date_at := (match_date unicode_digit).

Lemma date_has_no_space (d : text) : is_date unicode_digit d -> ~ In 32%N d.
Proof.
  intros (a & b & c & -> & Ha & _ & Hb & _ & Hc & _) H.
  rewrite forallb_forall in Ha, Hb, Hc.
  repeat (apply in_app_or in H; destruct H as [H|H]).
  - specialize (Ha _ H). discriminate.
  - destruct H as [H|[]]. discriminate.
  - specialize (Hb _ H). discriminate.
  - destruct H as [H|[]]. discriminate.
  - specialize (Hc _ H). discriminate.
Qed.

Lemma date_is_not_empty (d : text) : is_date unicode_digit d -> d <> [].
Proof.
  intros (a & b & c & -> & _ & La & _) E.
  destruct a; [simpl in La; lia|discriminate].
Qed.

Lemma has_date_tail (c : N) (r : text) :
  has_date unicode_digit r -> has_date unicode_digit (c :: r).
Proof.
  intros (pre & d & post & -> & Hd). now exists (c :: pre), d, post.
Qed.

Lemma has_date_skipn (k : nat) (t : text) :
  has_date unicode_digit (skipn k t) -> has_date unicode_digit t.
Proof.
  intros (pre & d & post & E & Hd). exists (firstn k t ++ pre), d, post.
  split; [|exact Hd]. rewrite <- app_assoc, <- E. symmetry. apply firstn_skipn.
Qed.

Lemma sub_dates_no_date_left (t : text) :
  ~ has_date unicode_digit (re_sub date_at [32%N] t).
Proof.
  remember (length t) as n eqn:Hn. revert t Hn.
  induction n as [n IH] using lt_wf_ind. intros t Hn (pre & d & post & E & Hd).
  destruct pre as [|p pre].
  - (* the date would start the result: it then starts the text *)
    simpl in E.
    destruct (re_sub_prefix_kept date_at t d post E (date_has_no_space d Hd)) as [rest ->].
    destruct (match_date_complete unicode_digit d rest Hd) as [k Hk].
    destruct d as [|c d]; [now apply (date_is_not_empty [] Hd)|].
    simpl in E. rewrite re_sub_cons in E. simpl in Hk. rewrite Hk in E.
    simpl in E. injection E as E _.
    apply (date_has_no_space _ Hd). left. now symmetry.
  - (* the date would come later: it is in the result for a shorter text *)
    destruct t as [|c r]; [discriminate|].
    rewrite re_sub_cons in E.
    destruct (date_at (c :: r)) as [[|k]|]; simpl in E; injection E as _ E.
    + apply (IH (length r)) with (t := r); [simpl in Hn; lia|reflexivity|].
      now exists pre, d, post.
    + apply (IH (length (skipn k r))) with (t := skipn k r);
        [rewrite length_skipn; simpl in Hn; lia|reflexivity|].
      now exists pre, d, post.
    + apply (IH (length r)) with (t := r); [simpl in Hn; lia|reflexivity|].
      now exists pre, d, post.
Qed.

Lemma sub_dates_without_date (t : text) :
  ~ has_date unicode_digit t -> re_sub date_at [32%N] t = t.
Proof.
  intros H. apply re_sub_no_match. intros k.
  destruct (date_at (skipn k t)) as [len|] eqn:E; [|reflexivity].
  exfalso. apply H. apply (has_date_skipn k).
  destruct (match_date_sound unicode_digit _ _ E) as [_ Hd].
  exists [], (firstn len (skipn k t)), (skipn len (skipn k t)).
  split; [|exact Hd]. simpl. symmetry. apply firstn_skipn.
Qed.

Lemma sub_dates_keeps_ascii (t : text) :
  forallb is_ascii t = true -> forallb is_ascii (re_sub date_at [32%N] t) = true.
Proof.
  intros H. apply forallb_forall. apply Forall_forall.
  apply re_sub_Forall.
  - now constructor.
  - apply Forall_forall. now apply forallb_forall.
Qed.

(** X2.  After the dates are replaced, no part of the text has the shape of
    a date any more, so one pass is enough; a text that holds no date comes
    back unchanged; and the result is ASCII whenever the text was. *)
Theorem sub_dates_removes_every_date (t : text) :
  ~ has_date unicode_digit (re_sub date_at [32%N] t)
  /\ (~ has_date unicode_digit t -> re_sub date_at [32%N] t = t)
  /\ re_sub date_at [32%N] (re_sub date_at [32%N] t) = re_sub date_at [32%N] t
  /\ (forallb is_ascii t = true -> forallb is_ascii (re_sub date_at [32%N] t) = true).
Proof.
  split; [apply sub_dates_no_date_left|]. split; [apply sub_dates_without_date|].
  split; [apply sub_dates_without_date, sub_dates_no_date_left|].
  apply sub_dates_keeps_ascii.
Qed.

(** X3.  The text that the cell hands on to the tokenizer is ASCII only and
    holds no date; the first 26 characters of the text after the two
    replacements are gone, and a text of at most 26 characters becomes the
    empty text. *)
Theorem clean_text_is_ascii_without_dates (t : text) :
  forallb is_ascii (clean unicode_digit t) = true
  /\ ~ has_date unicode_digit (clean unicode_digit t)
  /\ clean unicode_digit t
     = skipn 26 (re_sub date_at [32%N] (re_sub match_non_ascii [32%N] t))
  /\ length (clean unicode_digit t) <= length t - 26
  /\ (length t <= 26 -> clean unicode_digit t = []).
Proof.
  unfold clean.
  set (u := re_sub match_non_ascii [32%N] t).
  set (v := re_sub date_at [32%N] u).
  pose proof (sub_non_ascii_is_ascii 0 t) as Hu. fold (re_sub match_non_ascii [32%N] t) in Hu. fold u in Hu.
  pose proof (sub_non_ascii_length 0 t) as Hlen. fold (re_sub match_non_ascii [32%N] t) in Hlen. fold u in Hlen.
  pose proof (sub_dates_no_date_left u) as Hno. fold v in Hno.
  pose proof (sub_dates_keeps_ascii u) as Hascii. fold v in Hascii.
  assert (Hv : length v <= length u) by apply re_sub_one_length.
  assert (E : slice v (Some 26%Z) None = skipn 26 v).
  { rewrite slice_from. unfold norm_index, len.
    destruct (Z.ltb_spec 26 0); [lia|].
    destruct (Nat.le_gt_cases 26 (length v)).
    - f_equal. lia.
    - rewrite !skipn_all2 by lia. reflexivity. }
  rewrite E. split; [|split; [|split; [reflexivity|split]]].
  - apply forallb_skipn. now apply Hascii.
  - intros H. apply Hno. now apply (has_date_skipn 26).
  - rewrite length_skipn. lia.
  - intros H. apply skipn_all2. lia.
Qed.

End DateClaims.

(** ** Sizes of the two halves *)

Section SplitSizes.
Context {torch : Torch}.

Lemma train_data_length (data : list Z) :
  length (train_data data) = 9 * length data / 10.
Proof.
  unfold train_data. rewrite slice_upto, cut_at_nine_tenths.
  pose proof (len_nonneg data) as H0.
  assert (H : (0 <= 9 * len data / 10 <= len data)%Z).
  { split; [apply Z.div_pos; lia|]. apply Z.div_le_upper_bound; lia. }
  rewrite norm_index_inside by exact H.
  rewrite length_firstn. unfold len in *.
  assert (E : Z.to_nat (9 * Z.of_nat (length data) / 10) = 9 * length data / 10).
  { rewrite <- (Nat2Z.id (9 * length data / 10)). f_equal.
    rewrite Nat2Z.inj_div, Nat2Z.inj_mul. reflexivity. }
  rewrite E. apply Nat.min_l. lia.
Qed.

Lemma val_data_length (data : list Z) :
  length (val_data data) = length data - 9 * length data / 10.
Proof.
  pose proof (train_val_app data) as H. apply (f_equal (@length Z)) in H.
  rewrite length_app, train_data_length in H. lia.
Qed.

Lemma get_batch_ok_iff (data : list Z) (split : string) (st : State) :
  is_ok (fst (get_batch data split st)) = true <-> block_size < length (select data split).
Proof.
  split.
  - intros H. destruct (Nat.le_gt_cases (length (select data split)) block_size) as [Hs|Hs];
      [|exact Hs].
    rewrite get_batch_short in H by exact Hs. discriminate.
  - intros H. now rewrite get_batch_run.
Qed.

(** X4.  The training half has [floor(9*len/10)] ids and the validation
    half the rest, so the validation half of a non-empty corpus is never
    empty.  A training batch can be drawn exactly when the corpus has at least
    37 ids, a validation batch exactly when it has at least 321. *)
Theorem corpus_size_thresholds (data : list Z) (st : State) :
  length (train_data data) = 9 * length data / 10
  /\ length (val_data data) = length data - 9 * length data / 10
  /\ (data <> [] -> val_data data <> [])
  /\ (is_ok (fst (get_batch data "train" st)) = true <-> 37 <= length data)
  /\ (is_ok (fst (get_batch data "val" st)) = true <-> 321 <= length data).
Proof.
  split; [apply train_data_length|]. split; [apply val_data_length|].
  pose proof (Nat.div_mod_eq (9 * length data) 10) as Hd.
  pose proof (Nat.mod_upper_bound (9 * length data) 10 ltac:(lia)) as Hm.
  split; [|split].
  - intros Hne E. apply (f_equal (@length Z)) in E. rewrite val_data_length in E.
    destruct data; [congruence|]. simpl length in *. lia.
  - rewrite get_batch_ok_iff.
    change (select data "train") with (train_data data).
    rewrite train_data_length. unfold block_size. lia.
  - rewrite get_batch_ok_iff.
    change (select data "val") with (val_data data).
    rewrite val_data_length. unfold block_size. lia.
Qed.

Lemma randint_value_single (r : nat) : randint_value 0 1 r = 0%Z.
Proof. unfold randint_value. rewrite Z.sub_0_r, Z.mod_1_r. reflexivity. Qed.

(** X5.  From a half of exactly [block_size + 1] ids only one batch can be
    drawn: whatever the generator yields, every input row is the first
    [block_size] ids of the half and every target row its last [block_size]
    ids. *)
Theorem get_batch_on_smallest_split (data : list Z) (split : string) (st : State) :
  length (select data split) = block_size + 1 ->
  get_batch data split st
  = (Ok (repeat (firstn block_size (select data split)) batch_size,
         repeat (skipn 1 (select data split)) batch_size),
     advance st batch_size).
Proof.
  intros Hlen. rewrite get_batch_run by lia.
  set (d := select data split) in *.
  assert (Hoff : offsets d st = repeat 0%Z batch_size).
  { unfold offsets, upcoming. unfold len. rewrite Hlen.
    replace (Z.of_nat (block_size + 1) - Z.of_nat block_size)%Z with 1%Z by lia.
    rewrite !map_map, repeat_map_seq. apply map_ext. intros i.
    apply randint_value_single. }
  rewrite Hoff, !map_repeat. f_equal. f_equal. f_equal.
  - f_equal. rewrite (slice_window d 0 block_size); [reflexivity|lia|unfold len; lia].
  - f_equal.
    replace (0 + Z.of_nat block_size + 1)%Z with (0 + 1 + Z.of_nat block_size)%Z by lia.
    rewrite (slice_window d (0 + 1) block_size) by (unfold len; lia).
    apply firstn_all2. rewrite length_skipn. simpl Z.to_nat. lia.
Qed.

End SplitSizes.

(** ** The forward pass with and without dropout *)

Section EvaluationFacts.
Context {torch : Torch}.

Lemma MHA_forward_eval (m : MHA) (x : tensor3) (st : State) :
  training st = false -> MHA_forward m x st = (Ok (MHA_eval m x), st).
Proof.
  intros E. unfold MHA_forward, bind. now rewrite Dropout_eval.
Qed.

Lemma FeedFoward_forward_eval (m : FeedFoward) (x : tensor3) (st : State) :
  training st = false -> FeedFoward_forward m x st = (Ok (FeedFoward_eval m x), st).
Proof.
  intros E. unfold FeedFoward_forward, bind. now rewrite Dropout_eval.
Qed.

Lemma Block_forward_eval (m : Block) (x : tensor3) (st : State) :
  training st = false -> Block_forward m x st = (Ok (Block_eval m x), st).
Proof.
  intros E. unfold Block_forward, bind.
  rewrite MHA_forward_eval by exact E. now rewrite FeedFoward_forward_eval.
Qed.

Lemma Sequential_forward_eval (bs : list Block) (x : tensor3) (st : State) :
  training st = false -> Sequential_forward bs x st = (Ok (Sequential_eval bs x), st).
Proof.
  intros E. revert x. induction bs as [|b bs IH]; intros x; [reflexivity|].
  simpl. unfold bind. rewrite Block_forward_eval by exact E. apply IH.
Qed.

Lemma Transformer_forward_eval (x : list (list Z)) (st : State) :
  training st = false -> shape1 x <= block_size -> ids_in_vocab x ->
  Transformer_forward x st = (Ok (logits (params st) x), recorded st x).
Proof.
  intros E HT Hids. unfold Transformer_forward.
  cbv beta iota delta [bind get log lift].
  rewrite tokens_in_table by exact Hids.
  rewrite positions_in_table by exact HT.
  cbv beta iota. rewrite Sequential_forward_eval by exact E. reflexivity.
Qed.

(** X6.  In evaluation mode a forward pass on ids of the vocabulary, in a
    window that the positional table holds, consumes no random draw and
    changes nothing but the record of calls; its logits are a function of the
    parameters and the input alone, the same in every state with these
    parameters. *)
Theorem forward_in_evaluation_mode_is_pure (x : list (list Z)) (st st2 : State) :
  training st = false -> shape1 x <= block_size -> ids_in_vocab x ->
  training st2 = false -> params st2 = params st ->
  exists out st',
    Transformer_forward x st = (Ok out, st')
    /\ rng st' = rng st /\ params st' = params st /\ grad st' = grad st
    /\ opt_state st' = opt_state st /\ stdout st' = stdout st
    /\ training st' = false
    /\ events st' = events st ++ [Forward false x]
    /\ fst (Transformer_forward x st2) = Ok out.
Proof.
  intros E HT Hids E2 Hp.
  exists (logits (params st) x), (recorded st x).
  split; [now apply Transformer_forward_eval|].
  unfold recorded. cbn [rng params grad opt_state stdout training events].
  rewrite E. repeat split; try reflexivity.
  rewrite Transformer_forward_eval by assumption. now rewrite Hp.
Qed.

Lemma advance_advance (st : State) (a b : nat) :
  advance (advance st a) b = advance st (a + b).
Proof. unfold advance. simpl. f_equal. lia. Qed.

Lemma advance_zero (st : State) : advance st 0 = st.
Proof. destruct st. unfold advance. simpl. now rewrite Nat.add_0_r. Qed.

Lemma Dropout_training_run (width : nat) (x : tensor3) (st : State) :
  training st = true ->
  exists y, Dropout width x st = (Ok y, advance st (dim0 x * dim1 x * width))
            /\ dim0 y = dim0 x /\ dim1 y = dim1 x.
Proof.
  intros E. unfold Dropout, bind, get, draws, ret. rewrite E.
  eexists. split; [reflexivity|]. split; reflexivity.
Qed.

Lemma Block_forward_training (m : Block) (x : tensor3) (st : State) :
  training st = true ->
  exists y, Block_forward m x st
            = (Ok y, advance st (2 * (dim0 x * dim1 x * n_embd)))
            /\ dim0 y = dim0 x /\ dim1 y = dim1 x.
Proof.
  intros E. unfold Block_forward, MHA_forward, FeedFoward_forward, bind, ret.
  match goal with
  | |- context [Dropout n_embd ?z st] =>
      destruct (Dropout_training_run n_embd z st E) as (y1 & -> & H0 & H1)
  end.
  cbn [dim0 dim1 permute_1_0_2 map3 MultiheadAttention_forward] in H0, H1 |- *.
  match goal with
  | |- context [Dropout n_embd ?z ?s] =>
      destruct (Dropout_training_run n_embd z s E) as (y2 & -> & G0 & G1)
  end.
  cbn [dim0 dim1 permute_1_0_2 map3 add3] in G0, G1 |- *.
  eexists. split.
  - rewrite advance_advance. f_equal. f_equal. ring.
  - split; reflexivity.
Qed.

Lemma Sequential_forward_training (bs : list Block) (x : tensor3) (st : State) :
  training st = true ->
  exists y, Sequential_forward bs x st
            = (Ok y, advance st (length bs * (2 * (dim0 x * dim1 x * n_embd))))
            /\ dim0 y = dim0 x /\ dim1 y = dim1 x.
Proof.
  intros E. revert x st E. induction bs as [|b bs IH]; intros x st E.
  - exists x. simpl. unfold ret. split; [|split; reflexivity].
    now rewrite advance_zero.
  - simpl. unfold bind.
    destruct (Block_forward_training b x st E) as (y & -> & H0 & H1).
    destruct (IH y (advance st (2 * (dim0 x * dim1 x * n_embd))) E) as (z & -> & G0 & G1).
    exists z. split; [|split; congruence].
    rewrite advance_advance, H0, H1. reflexivity.
Qed.

(** X7.  In training mode a forward pass on a batch of [B] rows of [T] ids
    consumes exactly [2 * B * T * n_embd] raw draws in every block (1,048,576
    in all for the notebook's eight blocks and batches of 16 by 32), records
    the call, and changes nothing else. *)
Theorem forward_in_training_mode_draws (x : list (list Z)) (st : State) :
  training st = true -> shape1 x <= block_size -> ids_in_vocab x ->
  exists out st',
    Transformer_forward x st = (Ok out, st')
    /\ rng st' = rng st + dropout_draws (params st) (length x) (shape1 x)
    /\ params st' = params st /\ grad st' = grad st /\ opt_state st' = opt_state st
    /\ stdout st' = stdout st /\ training st' = true
    /\ events st' = events st ++ [Forward true x]
    /\ (length (blocks (params st)) = n_layer -> length x = batch_size ->
        shape1 x = block_size ->
        Z.of_nat (rng st') = (Z.of_nat (rng st) + 1048576)%Z).
Proof.
  intros E HT Hids. unfold Transformer_forward.
  cbv beta iota delta [bind get log lift].
  rewrite tokens_in_table by exact Hids.
  rewrite positions_in_table by exact HT.
  cbv beta iota.
  match goal with
  | |- context [Sequential_forward ?bs ?z ?s] =>
      destruct (Sequential_forward_training bs z s E) as (y & -> & H0 & H1)
  end.
  cbn [dim0 dim1 params] in *.
  eexists _, _. split; [reflexivity|].
  cbn [rng params grad opt_state stdout training events advance].
  rewrite E. unfold dropout_draws.
  repeat split; try reflexivity.
  intros HL HB HTT. rewrite HL, HB, HTT.
  unfold n_layer, batch_size, block_size, n_embd. lia.
Qed.

End EvaluationFacts.

(** ** Causality of the stack *)

Section AttentionPrefix.

Lemma combine_app_same {A B} (a b : list A) (c d : list B) :
  length a = length c -> combine (a ++ b) (c ++ d) = combine a c ++ combine b d.
Proof.
  revert c. induction a as [|x a IH]; intros [|y c] H; try discriminate; [reflexivity|].
  simpl. f_equal. apply IH. now injection H.
Qed.

Lemma firstn_seq (k s n : nat) : firstn k (seq s n) = seq s (Nat.min k n).
Proof.
  revert s n. induction k as [|k IH]; intros s [|n]; try reflexivity.
  simpl. f_equal. apply IH.
Qed.

Lemma nth_map_seq {A} (f : nat -> A) (n i : nat) (d : A) :
  i < n -> nth i (map f (seq 0 n)) d = f i.
Proof. intros H. apply nth_error_nth. now apply map_seq_nth_error. Qed.

Lemma flat_map_same {A B} (f g : A -> list B) (l : list A) :
  (forall a, In a l -> f a = g a) -> flat_map f l = flat_map g l.
Proof.
  induction l as [|a l IH]; intros H; [reflexivity|].
  simpl. rewrite (H a (or_introl eq_refl)), IH; [reflexivity|].
  intros a' Ha'. apply H. now right.
Qed.

Lemma head_dim_is_16 : head_dim = 16.
Proof. reflexivity. Qed.

Lemma values_length (A : MultiheadAttention) (h : nat) (xs : list vec) (v : vec) :
  h < n_head -> In v (values A h xs) -> length v = head_dim.
Proof.
  intros Hh Hin. unfold values in Hin. apply in_map_iff in Hin.
  destruct Hin as (x & <- & _). unfold head_chunk, Linear_forward.
  rewrite length_firstn, !length_skipn, length_map, length_seq.
  rewrite head_dim_is_16. unfold n_embd, n_head in *. lia.
Qed.

(** Entries of a row up to the diagonal keep their score; the mask adds
    zero. *)
Lemma masked_up_to_diagonal (phi : vec -> R) (i : nat) (ks : list vec) (js : list nat) :
  length ks = length js -> (forall j, In j js -> j <= i) ->
  map (fun sm : R * fl => fl_add (Fin (fst sm)) (snd sm))
      (combine (map phi ks) (map (fun j => if j <=? i then Fin 0%R else NegInf) js))
  = map (fun k => Fin (phi k + 0)%R) ks.
Proof.
  revert js. induction ks as [|k ks IH]; intros [|j js] Hlen Hjs; try discriminate;
    [reflexivity|].
  simpl. destruct (Nat.leb_spec j i) as [_|Hbad].
  - simpl. f_equal. apply IH; [now injection Hlen|]. intros j' Hj'. apply Hjs. now right.
  - pose proof (Hjs j (or_introl eq_refl)). lia.
Qed.

(** Entries beyond the diagonal are [-inf]. *)
Lemma masked_beyond_diagonal (phi : vec -> R) (i : nat) (ks : list vec) (js : list nat) :
  length ks = length js -> (forall j, In j js -> i < j) ->
  map (fun sm : R * fl => fl_add (Fin (fst sm)) (snd sm))
      (combine (map phi ks) (map (fun j => if j <=? i then Fin 0%R else NegInf) js))
  = repeat NegInf (length ks).
Proof.
  revert js. induction ks as [|k ks IH]; intros [|j js] Hlen Hjs; try discriminate;
    [reflexivity|].
  simpl. destruct (Nat.leb_spec j i) as [Hbad|_].
  - pose proof (Hjs j (or_introl eq_refl)). lia.
  - simpl. f_equal. apply IH; [now injection Hlen|]. intros j' Hj'. apply Hjs. now right.
Qed.

Lemma keys_length (A : MultiheadAttention) (h : nat) (xs : list vec) :
  length (keys A h xs) = length xs.
Proof. unfold keys. now rewrite length_map. Qed.

(** Row [i] of the masked scores of head [h]: the scores of query [i]
    against the keys up to position [i], then [-inf] to the end of the row. *)
Lemma masked_row_form (A : MultiheadAttention) (h : nat) (xs : list vec) (i : nat) :
  i < length xs ->
  nth i (masked_scores (scores A h xs) (causal_mask (length xs))) []
  = map (fun k => Fin (dot (nth i (queries A h xs) []) k / sqrt (INR head_dim) + 0)%R)
        (firstn (S i) (keys A h xs))
    ++ repeat NegInf (length xs - S i).
Proof.
  intros Hi. rewrite masked_scores_row by (try rewrite scores_length; exact Hi).
  assert (Hrow : nth i (scores A h xs) []
                 = map (fun k => (dot (nth i (queries A h xs) []) k / sqrt (INR head_dim))%R)
                       (keys A h xs)).
  { unfold scores.
    apply (nth_map_in_range
             (fun q : vec =>
                map (fun k : vec => (dot q k / sqrt (INR head_dim))%R) (keys A h xs))
             (queries A h xs) i [] []).
    unfold queries. now rewrite length_map. }
  rewrite Hrow.
  rewrite <- (firstn_skipn (S i) (keys A h xs)) at 1.
  replace (seq 0 (length xs)) with (seq 0 (S i) ++ seq (S i) (length xs - S i))
    by (rewrite <- seq_app; f_equal; lia).
  assert (Hk1 : length (firstn (S i) (keys A h xs)) = S i)
    by (rewrite length_firstn, keys_length; lia).
  rewrite !map_app, combine_app_same by (now rewrite !length_map, length_seq).
  rewrite map_app. f_equal.
  - apply masked_up_to_diagonal; [now rewrite length_seq|].
    intros j Hj. apply in_seq in Hj. lia.
  - rewrite masked_beyond_diagonal.
    + now rewrite length_skipn, keys_length.
    + now rewrite length_seq, length_skipn, keys_length.
    + intros j Hj. apply in_seq in Hj. lia.
Qed.

Lemma sum_repeat_zero (r : nat) : sum (repeat 0%R r) = 0%R.
Proof.
  induction r as [|r IH]; [reflexivity|]. simpl. rewrite sum_cons, IH. apply Rplus_0_l.
Qed.

(** Masked entries at the end of a row get weight zero and leave the
    weights before them as they are without them. *)
Lemma softmax_masked_tail (row : list fl) (r : nat) :
  softmax (row ++ repeat NegInf r) = softmax row ++ repeat 0%R r.
Proof.
  unfold softmax.
  assert (E : sum (map fl_exp (row ++ repeat NegInf r)) = sum (map fl_exp row)).
  { rewrite map_app, sum_app, map_repeat. simpl fl_exp.
    rewrite sum_repeat_zero. apply Rplus_0_r. }
  rewrite E, map_app, map_repeat. f_equal. f_equal. simpl.
  unfold Rdiv. apply Rmult_0_l.
Qed.

Lemma vadd_zeros (k : nat) (v : vec) : length v = k -> vadd (repeat 0%R k) v = v.
Proof.
  revert v. induction k as [|k IH]; intros [|u v] H; try discriminate; [reflexivity|].
  unfold vadd in *. simpl. rewrite Rplus_0_l. f_equal. apply IH. now injection H.
Qed.

Lemma scale_zero (v : vec) : scale 0%R v = repeat 0%R (length v).
Proof.
  induction v as [|u v IH]; [reflexivity|]. unfold scale in *. simpl.
  now rewrite Rmult_0_l, IH.
Qed.

(** Values with weight zero at the end of the list add nothing. *)
Lemma weighted_sum_zero_tail (w : vec) (r : nat) (vs1 vs2 : list vec) :
  length w = length vs1 -> Forall (fun v => length v = head_dim) vs2 ->
  weighted_sum (w ++ repeat 0%R r) (vs1 ++ vs2) = weighted_sum w vs1.
Proof.
  intros Hlen Hvs. unfold weighted_sum.
  rewrite combine_app_same by exact Hlen. rewrite map_app, fold_right_app. f_equal.
  revert r. induction Hvs as [|v vs2 Hv _ IH]; intros r.
  - now destruct r.
  - destruct r as [|r]; [reflexivity|]. cbn [repeat combine map fold_right fst snd].
    rewrite IH, scale_zero, Hv. apply vadd_zeros. apply repeat_length.
Qed.

(** The output of the attention layer at position [i] is that of the layer
    on the first [i+1] positions alone. *)
Lemma attend_truncates (A : MultiheadAttention) (xs : list vec) (i : nat) :
  i < length xs ->
  nth i (attend A (causal_mask (length xs)) xs) []
  = nth i (attend A (causal_mask (S i)) (firstn (S i) xs)) [].
Proof.
  intros Hi.
  assert (Hpre : length (firstn (S i) xs) = S i) by (rewrite length_firstn; lia).
  unfold attend.
  rewrite !nth_map_seq by (try rewrite Hpre; lia).
  f_equal. apply flat_map_same. intros h Hh. apply in_seq in Hh. simpl in Hh.
  unfold attention_weights.
  change (@nil R) with (softmax []). rewrite !map_nth.
  replace (causal_mask (S i)) with (causal_mask (length (firstn (S i) xs)))
    by (now rewrite Hpre).
  rewrite !masked_row_form by (try rewrite Hpre; lia).
  rewrite Hpre, Nat.sub_diag. simpl repeat. rewrite app_nil_r.
  assert (Hq : nth i (queries A h (firstn (S i) xs)) [] = nth i (queries A h xs) []).
  { unfold queries. rewrite <- firstn_map, nth_firstn.
    destruct (Nat.ltb_spec i (S i)); [reflexivity|lia]. }
  assert (Hk : firstn (S i) (keys A h (firstn (S i) xs)) = firstn (S i) (keys A h xs)).
  { unfold keys. rewrite <- firstn_map, firstn_firstn. f_equal. lia. }
  rewrite Hq, Hk, softmax_masked_tail.
  rewrite <- (firstn_skipn (S i) (values A h xs)) at 1.
  rewrite weighted_sum_zero_tail.
  - f_equal. unfold values. now rewrite firstn_map.
  - unfold softmax. rewrite !length_map, !length_firstn.
    unfold values, keys. rewrite !length_map. reflexivity.
  - apply Forall_forall. intros v Hv. apply (values_length A h xs); [lia|].
    rewrite <- (firstn_skipn (S i) (values A h xs)). apply in_or_app. now right.
Qed.

End AttentionPrefix.

Section StackCausality.
Context {torch : Torch}.

Lemma MHA_sequence_prefix (m : MHA) (X : tensor3) (b k : nat) :
  k <= dim1 X ->
  firstn k (MHA_sequence m X b)
  = map (fun l => LayerNorm_forward (MHA_ln m) (at3 X b l)) (seq 0 k).
Proof.
  intros H. unfold MHA_sequence. cbn [dim0 dim1 at3 permute_1_0_2 map3].
  rewrite firstn_map, firstn_seq. now rewrite Nat.min_l.
Qed.

Lemma MHA_eval_agree (m : MHA) (n : nat) (X X' : tensor3) (b b' : nat) :
  n <= dim1 X -> n <= dim1 X' -> agree n X b X' b' ->
  agree n (MHA_eval m X) b (MHA_eval m X') b'.
Proof.
  intros HX HX' H t Ht.
  change (at3 (MHA_eval m X) b t)
    with (LayerNorm_forward (MHA_proj_ln m)
            (Linear_forward n_embd (MHA_proj m)
               (nth t (attend (MHA_attn m) (causal_mask (dim1 X)) (MHA_sequence m X b)) []))).
  change (at3 (MHA_eval m X') b' t)
    with (LayerNorm_forward (MHA_proj_ln m)
            (Linear_forward n_embd (MHA_proj m)
               (nth t (attend (MHA_attn m) (causal_mask (dim1 X')) (MHA_sequence m X' b')) []))).
  do 2 f_equal.
  rewrite <- (MHA_sequence_length m X b) at 1.
  rewrite <- (MHA_sequence_length m X' b') at 1.
  rewrite !attend_truncates by (rewrite MHA_sequence_length; lia).
  rewrite !MHA_sequence_prefix by lia.
  assert (E : map (fun l => LayerNorm_forward (MHA_ln m) (at3 X b l)) (seq 0 (S t))
              = map (fun l => LayerNorm_forward (MHA_ln m) (at3 X' b' l)) (seq 0 (S t))).
  { apply map_ext_in. intros l Hl. apply in_seq in Hl. f_equal. apply H. lia. }
  now rewrite E.
Qed.

Lemma FeedFoward_eval_agree (m : FeedFoward) (n : nat) (X X' : tensor3) (b b' : nat) :
  agree n X b X' b' -> agree n (FeedFoward_eval m X) b (FeedFoward_eval m X') b'.
Proof.
  intros H t Ht. unfold FeedFoward_eval. cbn [at3 map3]. now rewrite (H t Ht).
Qed.

Lemma add3_agree (n : nat) (X Y X' Y' : tensor3) (b b' : nat) :
  agree n X b X' b' -> agree n Y b Y' b' -> agree n (add3 X Y) b (add3 X' Y') b'.
Proof.
  intros H G t Ht. cbn [at3 add3]. now rewrite (H t Ht), (G t Ht).
Qed.

Lemma Block_eval_agree (m : Block) (n : nat) (X X' : tensor3) (b b' : nat) :
  n <= dim1 X -> n <= dim1 X' -> agree n X b X' b' ->
  agree n (Block_eval m X) b (Block_eval m X') b'.
Proof.
  intros HX HX' H. unfold Block_eval.
  apply add3_agree.
  - apply add3_agree; [exact H|now apply MHA_eval_agree].
  - apply FeedFoward_eval_agree.
    apply add3_agree; [exact H|now apply MHA_eval_agree].
Qed.

Lemma Sequential_eval_agree (bs : list Block) (n : nat) (X X' : tensor3) (b b' : nat) :
  n <= dim1 X -> n <= dim1 X' -> agree n X b X' b' ->
  agree n (Sequential_eval bs X) b (Sequential_eval bs X') b'.
Proof.
  revert X X'. induction bs as [|m bs IH]; intros X X' HX HX' H; [exact H|].
  simpl. apply IH; [exact HX|exact HX'|]. now apply Block_eval_agree.
Qed.

Lemma nth_of_nth_error {A} (l l' : list A) (t : nat) (d : A) :
  nth_error l t = nth_error l' t -> nth t l d = nth t l' d.
Proof.
  intros H. rewrite <- !nth_default_eq. unfold nth_default. now rewrite H.
Qed.

(** The logits at the first [n] positions of a row are those of any other
    row, of this or another batch, that starts with the same [n] ids. *)
Lemma logits_agree (model : Transformer) (x x' : list (list Z)) (b b' n : nat) :
  n <= shape1 x -> n <= shape1 x' ->
  firstn n (nth b x []) = firstn n (nth b' x' []) ->
  agree n (logits model x) b (logits model x') b'.
Proof.
  intros HT HT' Hrows. unfold logits. intros t Ht. cbn [at3 map3].
  do 2 f_equal. revert t Ht.
  apply Sequential_eval_agree; [exact HT|exact HT'|].
  intros t Ht. cbn [at3]. f_equal.
  - change (@nil vec) with (map (fun i => tok_emb model (Z.to_nat i)) []).
    rewrite !map_nth. apply nth_of_nth_error. rewrite !nth_error_map. f_equal.
    assert (E : forall row : list Z, nth_error row t = nth_error (firstn n row) t).
    { intros row. rewrite nth_error_firstn. destruct (Nat.ltb_spec t n); [reflexivity|lia]. }
    now rewrite (E (nth b x [])), (E (nth b' x' [])), Hrows.
  - rewrite !nth_map_seq by lia. reflexivity.
Qed.

(** X8.  The stack is causal.  In evaluation mode the logits at a position
    depend on the ids of that row up to that position and on nothing else:
    two rows, of one batch or of two batches with windows of different length,
    that start with the same [n] ids get the same logits at their first [n]
    positions. *)
Theorem logits_depend_on_earlier_ids_only
    (x x' : list (list Z)) (b b' n : nat) (st : State) :
  training st = false ->
  shape1 x <= block_size -> ids_in_vocab x ->
  shape1 x' <= block_size -> ids_in_vocab x' ->
  n <= shape1 x -> n <= shape1 x' ->
  firstn n (nth b x []) = firstn n (nth b' x' []) ->
  exists out out',
    fst (Transformer_forward x st) = Ok out
    /\ fst (Transformer_forward x' st) = Ok out'
    /\ forall t, t < n -> at3 out b t = at3 out' b' t.
Proof.
  intros E HT Hids HT' Hids' Hn Hn' Hrows.
  exists (logits (params st) x), (logits (params st) x').
  rewrite !Transformer_forward_eval by assumption.
  split; [reflexivity|]. split; [reflexivity|].
  now apply logits_agree.
Qed.

End StackCausality.

Section AttentionClaim.
Context {torch : Torch}.

(** What [MHA.forward] hands on at position [i] of batch row [b]: the output
    of the attention layer under [causal_mask], through dropout, then the
    projection and its layer norm. *)
Lemma MHA_forward_reads_attention (m : MHA) (x : tensor3) (st : State) (b i : nat) :
  i < dim1 x ->
  let xs := MHA_sequence m x b in
  let a :=
    Linear_forward n_embd (out_proj (MHA_attn m))
      (flat_map (fun h' =>
                   weighted_sum
                     (nth i (attention_weights (MHA_attn m) (causal_mask (dim1 x)) h' xs) [])
                     (values (MHA_attn m) h' xs))
                (seq 0 n_head)) in
  exists d y st',
    MHA_forward m x st = (Ok y, st')
    /\ at3 y b i
       = LayerNorm_forward (MHA_proj_ln m) (Linear_forward n_embd (MHA_proj m) d)
    /\ (training st = false -> d = a)
    /\ (training st = true -> Forall2 (fun u v => v = 0%R \/ v = (u * 2)%R) a d).
Proof.
  intros Hi xs a.
  assert (Ha : nth i (attend (MHA_attn m) (causal_mask (dim1 x)) xs) [] = a).
  { unfold attend. rewrite nth_map_seq; [reflexivity|].
    unfold xs. now rewrite MHA_sequence_length. }
  destruct (training st) eqn:E.
  - unfold MHA_forward, bind.
    match goal with
    | |- context [Dropout n_embd ?X st] =>
        destruct (Dropout_training n_embd X st E) as (yd & Hrun & Hall);
        pose proof (Hall i b) as Hib
    end.
    rewrite Hrun. exists (at3 yd i b). eexists _, _.
    split; [reflexivity|]. split; [reflexivity|]. split; [discriminate|].
    intros _. rewrite MHA_attention_unfolds in Hib. fold xs in Hib.
    now rewrite Ha in Hib.
  - exists a. eexists _, _. rewrite MHA_forward_eval by exact E.
    split; [reflexivity|]. split.
    + unfold MHA_eval. cbn [at3 map3 permute_1_0_2]. do 2 f_equal.
      rewrite MHA_attention_unfolds. exact Ha.
    + split; [reflexivity|discriminate].
Qed.

(** C1.  In the attention block, for every batch row [b], every head [h] and
    every position [i] of the window: the masked score [(i, j)] is [-inf] for
    every later position [j > i] (and the plain score elsewhere) before the
    softmax, so the attention weight of every [j > i] is zero, the weights on
    the positions after [i] sum to exactly zero, and the weights on the
    positions up to [i] sum to one.  These are the weights [MHA.forward]
    works with: what it returns at position [i] is the layer norm of the
    projection of the attention output at [i], which is the output projection
    of the heads' weighted sums of the values under these weights (in
    training mode with every component dropped or doubled by the dropout
    layer in between).  So in evaluation mode the result at position [i] is
    the same for any other input that agrees with this one up to
    position [i]. *)
Theorem attention_is_causal (m : MHA) (x : tensor3) (st : State) (b h i : nat) :
  i < dim1 x ->
  let T := dim1 x in
  let xs := MHA_sequence m x b in
  let plain := scores (MHA_attn m) h xs in
  let masked := masked_scores plain (causal_mask T) in
  let w := attention_weights (MHA_attn m) (causal_mask T) h xs in
  let a :=
    Linear_forward n_embd (out_proj (MHA_attn m))
      (flat_map (fun h' =>
                   weighted_sum
                     (nth i (attention_weights (MHA_attn m) (causal_mask T) h' xs) [])
                     (values (MHA_attn m) h' xs))
                (seq 0 n_head)) in
  length xs = T
  /\ (forall j, i < j < T -> nth_error (nth i masked []) j = Some NegInf)
  /\ (forall j, j <= i ->
        exists s, nth_error (nth i plain []) j = Some s
                  /\ nth_error (nth i masked []) j = Some (Fin (s + 0)%R))
  /\ (forall j, i < j < T -> nth_error (nth i w []) j = Some 0%R)
  /\ sum (skipn (S i) (nth i w [])) = 0%R
  /\ sum (firstn (S i) (nth i w [])) = 1%R
  /\ (exists d y st',
        MHA_forward m x st = (Ok y, st')
        /\ at3 y b i
           = LayerNorm_forward (MHA_proj_ln m) (Linear_forward n_embd (MHA_proj m) d)
        /\ (training st = false -> d = a)
        /\ (training st = true -> Forall2 (fun u v => v = 0%R \/ v = (u * 2)%R) a d))
  /\ (forall x' st2,
        training st = false -> training st2 = false -> i < dim1 x' ->
        (forall l, l <= i -> at3 x' b l = at3 x b l) ->
        exists y y',
          fst (MHA_forward m x st) = Ok y /\ fst (MHA_forward m x' st2) = Ok y'
          /\ at3 y' b i = at3 y b i).
Proof.
  intros Hi T xs plain masked w a.
  destruct (masked_attention_row m x b h i Hi) as (H1 & H2 & H3 & H4 & H5 & H6).
  split; [exact H1|]. split; [exact H2|]. split; [exact H3|]. split; [exact H4|].
  split; [exact H5|]. split; [exact H6|]. split.
  - exact (MHA_forward_reads_attention m x st b i Hi).
  - intros x' st2 E E2 Hi' Hsame.
    exists (MHA_eval m x), (MHA_eval m x').
    rewrite !MHA_forward_eval by assumption.
    split; [reflexivity|]. split; [reflexivity|].
    symmetry. apply (MHA_eval_agree m (S i) x x' b b); [exact Hi|exact Hi'| |apply Nat.lt_succ_diag_r].
    intros l Hl. symmetry. apply Hsame. lia.
Qed.

End AttentionClaim.

Section LoopAccounting.
Context {torch : Torch}.

Lemma optimizer_steps_app (a b : list event) :
  optimizer_steps (a ++ b) = optimizer_steps a + optimizer_steps b.
Proof. unfold optimizer_steps. now rewrite filter_app, length_app. Qed.

Lemma backward_passes_app (a b : list event) :
  backward_passes (a ++ b) = backward_passes a + backward_passes b.
Proof. unfold backward_passes. now rewrite filter_app, length_app. Qed.

Lemma forward_modes_app (a b : list event) :
  forward_modes a ++ forward_modes b = forward_modes (a ++ b).
Proof. unfold forward_modes. now rewrite flat_map_app. Qed.

Lemma step_done_trans (st st1 st2 : State) (m1 m2 : list bool) (l1 l2 : list nat)
    (k1 k2 : nat) :
  step_done st m1 l1 k1 st1 -> step_done st1 m2 l2 k2 st2 ->
  step_done st (m1 ++ m2) (l1 ++ l2) (k1 + k2) st2.
Proof.
  intros (o1 & e1 & A1 & A2 & A3 & A4 & A5 & A6) (o2 & e2 & B1 & B2 & B3 & B4 & B5 & B6).
  exists (o1 ++ o2), (e1 ++ e2).
  rewrite B1, A1, B3, A3, <- !app_assoc, optimizer_steps_app, backward_passes_app.
  unfold printed_steps in *. rewrite map_app, <- forward_modes_app.
  repeat split; congruence.
Qed.

Lemma update_done (data : list Z) (st : State) :
  in_vocab data -> block_size < length (train_data data) ->
  succeeds (update data) st
    (fun r st' =>
       fst (fst r) = batch_size /\ snd (fst r) = block_size
       /\ training st' = training st
       /\ step_done st [training st] [] 1 st').
Proof.
  intros Hdata Htrain.
  eapply succeeds_weaken; [now apply update_succeeds|].
  intros r st' (HB & HT & Hm & Hout & Hev).
  split; [exact HB|]. split; [exact HT|]. split; [exact Hm|].
  exists [], [Forward (training st) (batch_inputs (train_data data) st);
              Backward; OptimStep; ZeroGrad].
  rewrite app_nil_r. repeat split; assumption.
Qed.

(** A step that is no validation step needs the training half only. *)
Lemma training_step_plain (data : list Z) (step : nat) (st : State) :
  in_vocab data -> block_size < length (train_data data) ->
  is_validation_step step = false ->
  succeeds (training_step data step) st
    (fun _ st' => training st' = training st /\ step_done st [training st] [] 1 st').
Proof.
  intros Hdata Htrain E. unfold training_step.
  eapply succeeds_bind; [now apply update_done|].
  intros [[B T] l] st1 (_ & _ & Hm & Hd). cbn [fst snd].
  fold (is_validation_step step). rewrite E.
  apply succeeds_ret. now split.
Qed.

Lemma training_step_validating (data : list Z) (step : nat) (st : State) :
  in_vocab data -> block_size < length (train_data data) ->
  block_size < length (val_data data) ->
  is_validation_step step = true ->
  succeeds (training_step data step) st
    (fun _ st' => training st' = true /\ step_done st [training st; false] [step] 1 st').
Proof.
  intros Hdata Htrain Hval E. unfold training_step.
  eapply succeeds_bind; [now apply update_done|].
  intros [[B T] l] st1 (HB & HT & Hm & Hd). cbn [fst snd] in *. subst B T.
  fold (is_validation_step step). rewrite E.
  eapply succeeds_weaken; [now apply validation_succeeds|].
  intros u st2 (_ & _ & _ & G & Hev & val_loss & Hout).
  split; [exact G|].
  apply (step_done_trans st st1 st2 [training st] [false] [] [step] 1 0 Hd).
  exists [(step, l, val_loss)], [Forward false (batch_inputs (val_data data) st1)].
  repeat split; assumption.
Qed.

(** The step at which the validation half turns out to be too short: the
    gradient step is done, the model is switched to evaluation mode, and the
    request for a validation batch raises. *)
Lemma training_step_stops (data : list Z) (step : nat) (st : State) :
  in_vocab data -> block_size < length (train_data data) ->
  length (val_data data) <= block_size ->
  is_validation_step step = true ->
  exists st',
    training_step data step st = (Err InsufficientData, st')
    /\ training st' = false /\ step_done st [training st] [] 1 st'.
Proof.
  intros Hdata Htrain Hval E.
  destruct (update_done data st Hdata Htrain) as ([[B T] l] & st1 & Hrun & _ & _ & _ & Hd).
  exists (mkState (params st1) false (grad st1) (opt_state st1) (rng st1)
                  (stdout st1) (events st1)).
  split.
  - unfold training_step, bind. rewrite Hrun. cbn [fst snd].
    fold (is_validation_step step). rewrite E.
    unfold validation, bind. rewrite set_training_run.
    rewrite get_batch_short by exact Hval. reflexivity.
  - split; [reflexivity|]. exact Hd.
Qed.

Lemma for_each_app {A} (body : A -> M unit) (l1 l2 : list A) (st : State) :
  for_each (l1 ++ l2) body st
  = match for_each l1 body st with
    | (Ok _, st1) => for_each l2 body st1
    | (Err e, st1) => (Err e, st1)
    end.
Proof.
  revert st. induction l1 as [|a l1 IH]; intros st; [reflexivity|].
  simpl. unfold bind. destruct (body a st) as [[[]|e] st1]; [apply IH|reflexivity].
Qed.

Lemma step_done_refl (st : State) : step_done st [] [] 0 st.
Proof. exists [], []. rewrite !app_nil_r. repeat split. Qed.

(** Steps without validation, one after the other. *)
Lemma plain_steps (data : list Z) (l : list nat) (st : State) :
  in_vocab data -> block_size < length (train_data data) ->
  Forall (fun s => is_validation_step s = false) l ->
  succeeds (for_each l (training_step data)) st
    (fun _ st' =>
       training st' = training st
       /\ step_done st (repeat (training st) (length l)) [] (length l) st').
Proof.
  intros Hdata Htrain Hl. revert st.
  induction Hl as [|s l Hs _ IH]; intros st.
  - simpl. apply succeeds_ret. split; [reflexivity|apply step_done_refl].
  - simpl. eapply succeeds_bind; [now apply training_step_plain|].
    intros u st1 (Hm & Hd). cbn beta in Hm, Hd.
    eapply succeeds_weaken; [apply IH|].
    intros u' st2 (Hm2 & Hd2). cbn beta in Hm2, Hd2. split; [congruence|].
    rewrite Hm in Hd2.
    exact (step_done_trans st st1 st2 [training st] _ [] [] 1 _ Hd Hd2).
Qed.

End LoopAccounting.

Section LoopClaims.
Context {torch : Torch}.

Lemma all_steps (data : list Z) (l : list nat) (st : State) :
  in_vocab data -> block_size < length (train_data data) ->
  block_size < length (val_data data) -> training st = true ->
  succeeds (for_each l (training_step data)) st
    (fun _ st' =>
       training st' = true
       /\ step_done st (flat_map step_modes l) (filter is_validation_step l) (length l) st').
Proof.
  intros Hdata Htrain Hval. revert st.
  induction l as [|s l IH]; intros st Hmode.
  - simpl. apply succeeds_ret. split; [exact Hmode|apply step_done_refl].
  - cbn [for_each flat_map filter length]. unfold step_modes at 1.
    destruct (is_validation_step s) eqn:E.
    + eapply succeeds_bind; [now apply training_step_validating|].
      intros u st1 (Hm & Hd). cbn beta in Hm, Hd. rewrite Hmode in Hd.
      eapply succeeds_weaken; [now apply IH|].
      intros u' st2 (Hm2 & Hd2). cbn beta in Hm2, Hd2. split; [exact Hm2|].
      exact (step_done_trans st st1 st2 [true; false] _ [s] _ 1 _ Hd Hd2).
    + eapply succeeds_bind; [now apply training_step_plain|].
      intros u st1 (Hm & Hd). cbn beta in Hm, Hd. rewrite Hmode in Hm, Hd.
      eapply succeeds_weaken; [now apply IH|].
      intros u' st2 (Hm2 & Hd2). cbn beta in Hm2, Hd2. split; [exact Hm2|].
      exact (step_done_trans st st1 st2 [true] _ [] _ 1 _ Hd Hd2).
Qed.

Lemma validation_steps_succ (n : nat) :
  validation_steps (S n)
  = validation_steps n ++ (if is_validation_step n then [n] else []).
Proof.
  unfold validation_steps. rewrite seq_S, filter_app. reflexivity.
Qed.

Lemma validation_steps_length (n : nat) : length (validation_steps n) = n / 200.
Proof.
  induction n as [|n IH]; [reflexivity|].
  rewrite validation_steps_succ, length_app, IH. unfold is_validation_step.
  destruct (Nat.eqb_spec ((n + 1) mod 200) 0) as [E|E]; cbn [length].
  all: replace (S n) with (n + 1) by lia.
  all: pose proof (Nat.div_mod_eq (n + 1) 200); pose proof (Nat.div_mod_eq n 200).
  all: pose proof (Nat.mod_upper_bound n 200); pose proof (Nat.mod_upper_bound (n+1) 200).
  all: nia.
Qed.

(** X9.  A run of the training loop on a corpus whose halves are both longer
    than a window returns for every number of steps.  It makes one backward
    pass and one optimizer step per step; every step has one forward pass in
    training mode, followed on the steps with [(step+1) % 200 == 0], and on
    no other, by one forward pass in evaluation mode; it prints one line for
    each of those steps, in order, [steps / 200] lines in all, and it leaves
    the model in training mode. *)
Theorem training_loop_accounting (data : list Z) (steps : nat) (st : State) :
  in_vocab data ->
  block_size < length (train_data data) ->
  block_size < length (val_data data) ->
  training st = true ->
  exists st' out evs,
    training_loop data steps st = (Ok tt, st')
    /\ training st' = true
    /\ stdout st' = stdout st ++ out
    /\ printed_steps out = validation_steps steps
    /\ (forall s, In s (printed_steps out) <-> s < steps /\ (s + 1) mod 200 = 0)
    /\ length out = steps / 200
    /\ events st' = events st ++ evs
    /\ forward_modes evs = flat_map step_modes (seq 0 steps)
    /\ optimizer_steps evs = steps
    /\ backward_passes evs = steps.
Proof.
  intros Hdata Htrain Hval Hmode.
  destruct (all_steps data (seq 0 steps) st Hdata Htrain Hval Hmode)
    as ([] & st' & Hrun & Hm & out & evs & H1 & H2 & H3 & H4 & H5 & H6).
  rewrite length_seq in H5, H6.
  exists st', out, evs.
  split; [exact Hrun|]. split; [exact Hm|]. split; [exact H1|]. split; [exact H2|].
  split.
  { intros s. rewrite H2. unfold validation_steps, is_validation_step.
    rewrite filter_In, in_seq, Nat.eqb_eq. lia. }
  split.
  { rewrite <- validation_steps_length. fold (validation_steps steps) in H2.
    rewrite <- H2. unfold printed_steps. now rewrite length_map. }
  repeat split; assumption.
Qed.

Lemma early_steps_are_plain :
  Forall (fun s => is_validation_step s = false) (seq 0 199).
Proof.
  apply Forall_forall. intros s Hs. apply in_seq in Hs.
  unfold is_validation_step. apply Nat.eqb_neq.
  rewrite Nat.mod_small by lia. lia.
Qed.

(** X10.  When the training half is longer than a window and the validation
    half is not, the loop returns if it has fewer than 200 steps, without
    ever reading the validation half.  With 200 steps or more it raises at
    step 199, where the first validation batch is requested: 200 gradient
    steps have been made by then, nothing has been printed, and the model is
    left in evaluation mode. *)
Theorem training_loop_stops_at_first_validation
    (data : list Z) (steps : nat) (st : State) :
  in_vocab data ->
  block_size < length (train_data data) ->
  length (val_data data) <= block_size ->
  (steps < 200 ->
   exists st' evs,
     training_loop data steps st = (Ok tt, st')
     /\ training st' = training st /\ stdout st' = stdout st
     /\ events st' = events st ++ evs /\ optimizer_steps evs = steps)
  /\ (200 <= steps ->
      exists st' evs,
        training_loop data steps st = (Err InsufficientData, st')
        /\ training st' = false /\ stdout st' = stdout st
        /\ events st' = events st ++ evs
        /\ forward_modes evs = repeat (training st) 200
        /\ optimizer_steps evs = 200 /\ backward_passes evs = 200).
Proof.
  intros Hdata Htrain Hval. split; intros Hsteps.
  - assert (Hl : Forall (fun s => is_validation_step s = false) (seq 0 steps)).
    { apply Forall_forall. intros s Hs. apply in_seq in Hs.
      unfold is_validation_step. apply Nat.eqb_neq.
      rewrite Nat.mod_small by lia. lia. }
    destruct (plain_steps data (seq 0 steps) st Hdata Htrain Hl)
      as ([] & st' & Hrun & Hm & out & evs & H1 & H2 & H3 & H4 & H5 & H6).
    rewrite length_seq in H5.
    exists st', evs. split; [exact Hrun|]. split; [exact Hm|].
    destruct out; [|discriminate H2]. rewrite app_nil_r in H1.
    repeat split; assumption.
  - destruct (plain_steps data (seq 0 199) st Hdata Htrain early_steps_are_plain)
      as ([] & st1 & Hrun & Hm & Hd).
    rewrite length_seq in Hd.
    destruct (training_step_stops data 199 st1 Hdata Htrain Hval eq_refl)
      as (st2 & Hstop & Hm2 & Hd2).
    rewrite Hm in Hd2.
    destruct (step_done_trans st st1 st2 _ _ _ _ _ _ Hd Hd2)
      as (out & evs & H1 & H2 & H3 & H4 & H5 & H6).
    exists st2, evs. split.
    { unfold training_loop.
      assert (E : seq 0 steps = seq 0 199 ++ 199 :: seq 200 (steps - 200)).
      { replace steps with (199 + S (steps - 200)) at 1 by lia.
        rewrite seq_app. reflexivity. }
      rewrite E, for_each_app, Hrun.
      cbn [for_each]. unfold bind. now rewrite Hstop. }
    split; [exact Hm2|].
    destruct out; [|discriminate H2]. rewrite app_nil_r in H1.
    split; [exact H1|]. split; [exact H3|]. split.
    { rewrite H4. change 200 with (199 + 1). now rewrite repeat_app. }
    split; [rewrite H5|rewrite H6]; reflexivity.
Qed.

End LoopClaims.

Section ForwardOutcome.
Context {torch : Torch}.

(** X11.  The forward pass returns logits exactly when every id is a token
    of the vocabulary and the window has at most [block_size] positions.  An
    id outside the vocabulary makes the token lookup raise whatever the length
    of the window; a window that is too long makes the positional lookup
    raise.  A forward pass that raises has drawn no random number and has
    changed nothing of the model or the optimizer. *)
Theorem forward_returns_iff_ids_and_window_fit (x : list (list Z)) (st : State) :
  (is_ok (fst (Transformer_forward x st)) = true
   <-> ids_in_vocab x /\ shape1 x <= block_size)
  /\ (~ ids_in_vocab x -> fst (Transformer_forward x st) = Err VocabMismatch)
  /\ (ids_in_vocab x -> block_size < shape1 x ->
      fst (Transformer_forward x st) = Err ContextOverflow)
  /\ (is_ok (fst (Transformer_forward x st)) = false ->
      snd (Transformer_forward x st) = recorded st x).
Proof.
  assert (Hcases : (ids_in_vocab x /\ shape1 x <= block_size)
                   \/ ~ ids_in_vocab x
                   \/ (ids_in_vocab x /\ block_size < shape1 x)).
  { destruct (ids_in_vocab_cases x) as [Hx|(row & i & Hrow & Hi & Hout)].
    - destruct (Nat.le_gt_cases (shape1 x) block_size); [now left|right; now right].
    - right. left. intros Hx. unfold ids_in_vocab, in_vocab in Hx.
      rewrite Forall_forall in Hx. specialize (Hx row Hrow).
      rewrite Forall_forall in Hx. now apply Hout, Hx. }
  split; [|split; [|split]].
  - split.
    + intros Hok. destruct Hcases as [H|[H|[H1 H2]]]; [exact H| |].
      * rewrite Transformer_forward_out_of_vocab in Hok by exact H. discriminate.
      * rewrite Transformer_forward_too_long in Hok by assumption. discriminate.
    + intros [Hids HT].
      destruct (Transformer_forward_succeeds x st HT Hids) as (out & st' & Hrun & _).
      now rewrite Hrun.
  - intros H. now rewrite Transformer_forward_out_of_vocab.
  - intros H1 H2. now rewrite Transformer_forward_too_long.
  - intros Hfail. destruct Hcases as [[Hids HT]|[H|[H1 H2]]].
    + destruct (Transformer_forward_succeeds x st HT Hids) as (out & st' & Hrun & _).
      rewrite Hrun in Hfail. discriminate.
    + now rewrite Transformer_forward_out_of_vocab.
    + now rewrite Transformer_forward_too_long.
Qed.

End ForwardOutcome.

Section GenerationFacts.
Context {torch : Torch}.

Lemma optimizer_steps_forwards (b : bool) (l : list (list (list Z))) :
  optimizer_steps (map (Forward b) l) = 0 /\ backward_passes (map (Forward b) l) = 0.
Proof.
  unfold optimizer_steps, backward_passes.
  induction l as [|x l [IH1 IH2]]; [now split|]. simpl. now split.
Qed.

(** X12.  Generation is inference only.  On a non-empty seed of ids of the
    vocabulary it returns for every number of steps, and every id of the
    result is a token of the vocabulary, so the result can be decoded.  It
    makes one forward pass per step, no backward pass and no optimizer step,
    and the mode, the gradients and the optimizer state are those it started
    with. *)
Theorem generation_is_inference_only (seed : list Z) (steps : nat) (st : State) :
  seed <> [] -> in_vocab seed ->
  exists out st' evs,
    generate seed steps st = (Ok out, st')
    /\ in_vocab out
    /\ training st' = training st /\ grad st' = grad st
    /\ opt_state st' = opt_state st
    /\ events st' = events st ++ evs
    /\ length (forward_modes evs) = steps
    /\ optimizer_steps evs = 0 /\ backward_passes evs = 0.
Proof.
  intros Hne Hs. unfold generate.
  destruct (generation_loop_succeeds steps seed st Hne Hs)
    as (r & st' & Hrun & out & -> & _ & _ & Hout & _ & F2 & F3 & F4 & _ & F6).
  exists out, st', (map (Forward (training st)) (contexts_of seed out steps)).
  unfold bind. rewrite Hrun.
  split; [reflexivity|]. split; [exact Hout|]. split; [exact F2|].
  split; [exact F3|]. split; [exact F4|]. split; [exact F6|].
  split.
  { rewrite forward_modes_map. unfold contexts_of.
    now rewrite repeat_length, length_map, length_seq. }
  apply optimizer_steps_forwards.
Qed.

End GenerationFacts.

Section TextSplit.

Lemma text_cut_value (data : list Z) :
  text_cut data = Z.of_nat (9 * (9 * length data / 10) / 10).
Proof.
  unfold text_cut, py_int, Qmult, inject_Z. cbn [Qnum Qden].
  change (1 * 10)%positive with 10%positive.
  rewrite cut_at_nine_tenths. unfold len.
  rewrite Z.quot_div_nonneg.
  - rewrite !Nat2Z.inj_div, !Nat2Z.inj_mul, Nat2Z.inj_div, Nat2Z.inj_mul.
    f_equal. apply Z.mul_comm.
  - apply Z.mul_nonneg_nonneg; [|lia]. apply Z.div_pos; lia.
  - lia.
Qed.

(** X13.  The text split of the fine-tuning cell cuts the text at the
    character index [int(n*0.9)], where [n] is the number of training ids of
    cell 3 and not the length of the text.  The two parts still make up the
    text; the first has [min(len(text), floor(9*floor(9*len(data)/10)/10))]
    characters.  When the text has at least as many characters as ids, the
    first part holds at most 81 percent of the characters and the second at
    least 19 percent. *)
Theorem text_split_cuts_at_token_count (t : text) (data : list Z) :
  train_text t data ++ val_text t data = t
  /\ length (train_text t data)
     = Nat.min (length t) (9 * (9 * length data / 10) / 10)
  /\ length (val_text t data) = length t - 9 * (9 * length data / 10) / 10
  /\ (length data <= length t ->
      100 * length (train_text t data) <= 81 * length t
      /\ 19 * length t <= 100 * length (val_text t data)).
Proof.
  assert (Happ : train_text t data ++ val_text t data = t) by apply slice_halves.
  assert (Htrain : length (train_text t data)
                   = Nat.min (length t) (9 * (9 * length data / 10) / 10)).
  { unfold train_text. rewrite slice_upto, text_cut_value, length_firstn.
    unfold norm_index, len.
    destruct (Z.ltb_spec (Z.of_nat (9 * (9 * length data / 10) / 10)) 0); lia. }
  assert (Hval : length (val_text t data) = length t - 9 * (9 * length data / 10) / 10).
  { apply (f_equal (@length N)) in Happ. rewrite length_app, Htrain in Happ. lia. }
  split; [exact Happ|]. split; [exact Htrain|]. split; [exact Hval|].
  intros Hlen. rewrite Htrain, Hval.
  pose proof (Nat.div_mod_eq (9 * length data) 10) as H1.
  pose proof (Nat.mod_upper_bound (9 * length data) 10 ltac:(lia)) as H2.
  pose proof (Nat.div_mod_eq (9 * (9 * length data / 10)) 10) as H3.
  pose proof (Nat.mod_upper_bound (9 * (9 * length data / 10)) 10 ltac:(lia)) as H4.
  lia.
Qed.

End TextSplit.

(** ** The further theorems on concrete inputs *)

Lemma short_corpus_in_vocab : in_vocab (torch := toy) short_corpus.
Proof.
  apply Forall_forall. intros i Hi. unfold short_corpus in Hi.
  apply in_map_iff in Hi. destruct Hi as (k & <- & Hk). apply in_seq in Hk.
  change (n_vocab (Torch := toy)) with (Z.to_nat 50257). lia.
Qed.

(** The attention block on a window of two positions: the weight of the first
    position on the second is zero, and the block returns. *)
Lemma attention_is_causal_witness :
  sum (skipn 1 (nth 0 (attention_weights (MHA_attn zero_MHA) (causal_mask 2) 0
                                         (MHA_sequence zero_MHA toy_window 0)) []))
  = 0%R
  /\ exists y st', MHA_forward (torch := toy) zero_MHA toy_window toy_state = (Ok y, st').
Proof.
  destruct (attention_is_causal (torch := toy) zero_MHA toy_window toy_state 0 0 0)
    as (_ & _ & _ & _ & H & _ & (d & y & st' & Hrun & _) & _).
  - simpl. lia.
  - split; [exact H|]. now exists y, st'.
Defined.

(** The validation half of the corpus of 330 ids has 33 ids: every row of a
    validation batch is the same window. *)
Lemma get_batch_on_smallest_split_witness :
  get_batch (torch := toy) edge_corpus "val" toy_state
  = (Ok (repeat (firstn block_size (val_data edge_corpus)) batch_size,
         repeat (skipn 1 (val_data edge_corpus)) batch_size),
     advance toy_state batch_size).
Proof.
  apply (get_batch_on_smallest_split (torch := toy) edge_corpus "val" toy_state).
  vm_compute. reflexivity.
Defined.

(** The prompt in evaluation mode: no random draw is consumed. *)
Lemma forward_in_evaluation_mode_is_pure_witness :
  exists out st',
    Transformer_forward (torch := toy) [toy_seed] toy_eval_state = (Ok out, st')
    /\ rng st' = 0.
Proof.
  destruct (forward_in_evaluation_mode_is_pure (torch := toy) [toy_seed]
              toy_eval_state toy_eval_state) as (out & st' & Hrun & Hrng & _).
  - reflexivity.
  - vm_compute. lia.
  - constructor; [exact toy_seed_in_vocab|constructor].
  - reflexivity.
  - reflexivity.
  - exists out, st'. split; [exact Hrun|exact Hrng].
Defined.

(** The prompt in training mode: the sixteen dropout layers draw for one row
    of three positions. *)
Lemma forward_in_training_mode_draws_witness :
  exists out st',
    Transformer_forward (torch := toy) [toy_seed] toy_state = (Ok out, st')
    /\ rng st' = dropout_draws zero_model 1 3.
Proof.
  destruct (forward_in_training_mode_draws (torch := toy) [toy_seed] toy_state)
    as (out & st' & Hrun & Hrng & _).
  - reflexivity.
  - vm_compute. lia.
  - constructor; [exact toy_seed_in_vocab|constructor].
  - exists out, st'. split; [exact Hrun|exact Hrng].
Defined.

(** Two windows of three and of four ids that start with the same two ids:
    the logits at the first two positions are the same. *)
Lemma logits_depend_on_earlier_ids_only_witness :
  exists out out',
    fst (Transformer_forward (torch := toy) [[40; 716; 257]%Z] toy_eval_state) = Ok out
    /\ fst (Transformer_forward (torch := toy) [[40; 716; 11; 12]%Z] toy_eval_state) = Ok out'
    /\ forall t, t < 2 -> at3 out 0 t = at3 out' 0 t.
Proof.
  apply (logits_depend_on_earlier_ids_only (torch := toy)
           [[40; 716; 257]%Z] [[40; 716; 11; 12]%Z] 0 0 2 toy_eval_state).
  - reflexivity.
  - vm_compute. lia.
  - change (n_vocab (Torch := toy)) with (Z.to_nat 50257). repeat constructor; lia.
  - vm_compute. lia.
  - change (n_vocab (Torch := toy)) with (Z.to_nat 50257). repeat constructor; lia.
  - vm_compute. lia.
  - vm_compute. lia.
  - reflexivity.
Defined.

(** The 1000 steps of the notebook on the corpus of 400 ids print five
    lines. *)
Lemma training_loop_accounting_witness :
  exists (st' : @State toy) out,
    training_loop (torch := toy) toy_corpus 1000 toy_state = (Ok tt, st')
    /\ stdout st' = out
    /\ printed_steps out = [199; 399; 599; 799; 999].
Proof.
  destruct (training_loop_accounting (torch := toy) toy_corpus 1000 toy_state)
    as (st' & out & evs & Hrun & _ & Hout & Hp & _).
  - exact toy_corpus_in_vocab.
  - vm_compute. lia.
  - vm_compute. lia.
  - reflexivity.
  - exists st', out. split; [exact Hrun|]. split; [exact Hout|].
    rewrite Hp. vm_compute. reflexivity.
Defined.

(** On the corpus of 320 ids, whose validation half has 32 ids, the 1000
    steps of the notebook stop at the first validation. *)
Lemma training_loop_stops_at_first_validation_witness :
  exists (st' : @State toy),
    training_loop (torch := toy) short_corpus 1000 toy_state = (Err InsufficientData, st')
    /\ training st' = false /\ stdout st' = [].
Proof.
  destruct (training_loop_stops_at_first_validation (torch := toy) short_corpus 1000
              toy_state) as (_ & H).
  - exact short_corpus_in_vocab.
  - vm_compute. lia.
  - vm_compute. lia.
  - destruct H as (st' & evs & Hrun & Hm & Hout & _); [lia|].
    exists st'. split; [exact Hrun|]. split; [exact Hm|exact Hout].
Defined.

(** The 200 steps of the notebook from the prompt. *)
Lemma generation_is_inference_only_witness :
  exists out (st' : @State toy),
    generate (torch := toy) toy_seed 200 toy_state = (Ok out, st')
    /\ in_vocab (torch := toy) out /\ training st' = true.
Proof.
  destruct (generation_is_inference_only (torch := toy) toy_seed 200 toy_state)
    as (out & st' & evs & Hrun & Hout & Hm & _).
  - discriminate.
  - exact toy_seed_in_vocab.
  - exists out, st'. split; [exact Hrun|]. split; [exact Hout|exact Hm].
Defined.
